(** * OTTL grammar, resource-context path resolution and the
      Prometheus remote-write histogram translation

    A shallow embedding of
    - [pkg/ottl] grammar ([src/unnamed/part_001]): the AST structs, the
      [Capture] methods and the lexer rule table of [buildLexer];
    - [pkg/ottl/contexts/internal/ottlcommon] ([ResourcePathGetSetter] and
      its accessors);
    - [pkg/translator/prometheusremotewrite/helper.go]: the series map
      ([addSample], [addExemplars], [timeSeriesSignature]), the labels
      ([createAttributes]) and the translation of number, histogram and
      summary points and of the target info;
    - [internal/coreinternal/processor/filtermatcher]
      ([src/unnamed/part_000]): [NewAttributesMatcher] and [Match]. *)

From Stdlib Require Import ZArith String Ascii List Bool Lia.
From Stdlib Require Import PrimFloat SpecFloat FloatOps.
From Stdlib Require OrderedTypeEx.
From stdpp Require Import base option list gmap strings sorting.

#[local] Set Warnings "-register-all".

Local Open Scope Z_scope.
Local Open Scope string_scope.

(** ** Go results

    A Go call either returns or panics (index out of range, slice bounds
    out of range). *)

Inductive go (A : Type) : Type :=
| Return (a : A)
| Panic (msg : string).
Arguments Return {A} a.
Arguments Panic {A} msg.

(** Go [error] values: [fmt.Errorf]/[errors.New] texts and the two errors
    of [encoding/hex].  The [nil] error is [None]. *)
Inductive error_value : Type :=
| ErrorString (s : string)
| hex_ErrLength
| hex_InvalidByteError (b : ascii).

Definition error := option error_value.

(** [s[n:]] on a string: panics when [n > len(s)]. *)
Fixpoint slice_from (n : nat) (s : string) : go string :=
  match n, s with
  | O, _ => Return s
  | S n', String _ s' => slice_from n' s'
  | S _, EmptyString => Panic "slice bounds out of range"
  end.

(** [values[0]]: panics on an empty slice. *)
Definition index0 {A} (values : list A) : go A :=
  match values with
  | v :: _ => Return v
  | [] => Panic "index out of range [0] with length 0"
  end.

(** Substring containment, for statements about error texts. *)
Definition contains (sub s : string) : Prop :=
  exists pre post, s = pre +:+ sub +:+ post.

Module Ottl.

(** *** compareOp *)

(** [type compareOp int] with the [iota] constants. *)
Definition compareOp := Z.

Definition EQ : compareOp := 0.
Definition NE : compareOp := 1.
Definition LT : compareOp := 2.
Definition LTE : compareOp := 3.
Definition GTE : compareOp := 4.
Definition GT : compareOp := 5.

(** [compareOpTable]: a Go map literal. *)
Definition compareOpTable : gmap string compareOp :=
  <["==" := EQ]> (<["!=" := NE]> (<["<" := LT]> (<["<=" := LTE]>
  (<[">" := GT]> (<[">=" := GTE]> ∅))))).

(** [func (c *compareOp) Capture(values []string) error]: the result is the
    receiver after the call together with the returned error. *)
Definition compareOp_Capture (c : compareOp) (values : list string)
  : go (compareOp * error) :=
  match index0 values with
  | Panic m => Panic m
  | Return v0 =>
      match compareOpTable !! v0 with
      | None =>
          Return (c, Some (ErrorString ("'" +:+ v0 +:+ "' is not a valid operator")))
      | Some op => Return (op, None)
      end
  end.

(** [func (c *compareOp) String() string] *)
Definition compareOp_String (c : compareOp) : string :=
  if decide (c = EQ) then "EQ"
  else if decide (c = NE) then "NE"
  else if decide (c = LT) then "LT"
  else if decide (c = LTE) then "LTE"
  else if decide (c = GTE) then "GTE"
  else if decide (c = GT) then "GT"
  else "UNKNOWN OP!".

(** *** encoding/hex *)

(** [fromHexChar] *)
Definition fromHexChar (c : ascii) : option Z :=
  let n := Z.of_nat (nat_of_ascii c) in
  if ((48 <=? n) && (n <=? 57))%Z then Some (n - 48)
  else if ((97 <=? n) && (n <=? 102))%Z then Some (n - 97 + 10)
  else if ((65 <=? n) && (n <=? 70))%Z then Some (n - 65 + 10)
  else None.

(** [hex.DecodeString]: the decoded bytes and the error.  Pairs are
    decoded from the left; a bad digit is reported before an odd length. *)
Fixpoint hex_DecodeString (s : string) : list Z * error :=
  match s with
  | EmptyString => ([], None)
  | String p EmptyString =>
      match fromHexChar p with
      | None => ([], Some (hex_InvalidByteError p))
      | Some _ => ([], Some hex_ErrLength)
      end
  | String p (String q rest) =>
      match fromHexChar p, fromHexChar q with
      | None, _ => ([], Some (hex_InvalidByteError p))
      | Some _, None => ([], Some (hex_InvalidByteError q))
      | Some a, Some b =>
          let '(bytes, err) := hex_DecodeString rest in
          (Z.lor (Z.shiftl a 4) b :: bytes, err)
      end
  end.

(** *** Captured leaf types *)

(** [type byteSlice []byte] *)
Definition byteSlice := list Z.

(** [func (b *byteSlice) Capture(values []string) error] *)
Definition byteSlice_Capture (b : byteSlice) (values : list string)
  : go (byteSlice * error) :=
  match index0 values with
  | Panic m => Panic m
  | Return v0 =>
      match slice_from 2 v0 with
      | Panic m => Panic m
      | Return rawStr =>
          match hex_DecodeString rawStr with
          | (_, Some err) => Return (b, Some err)
          | (newBytes, None) => Return (newBytes, None)
          end
      end
  end.

(** [type boolean bool] and its [Capture] *)
Definition boolean := bool.

Definition boolean_Capture (b : boolean) (values : list string)
  : go (boolean * error) :=
  match index0 values with
  | Panic m => Panic m
  | Return v0 => Return (String.eqb v0 "true", None)
  end.

(** [type isNil bool] and its [Capture] *)
Definition isNil := bool.

Definition isNil_Capture (n : isNil) (values : list string) : go (isNil * error) :=
  Return (true, None).

(** [type EnumSymbol string] *)
Definition EnumSymbol := string.

(** *** The lexer *)

(** The rule names of [buildLexer]. *)
Inductive TokenKind : Type :=
| Bytes | Float | Int | String_ | OpOr | OpAnd | OpComparison | Boolean
| LParen | RParen | Punct | Uppercase | Lowercase | whitespace.

#[export] Instance TokenKind_eq_dec : EqDecision TokenKind.
Proof. solve_decision. Defined.

(** [lexer.Token]: the rule that matched and the matched text. *)
Record Token : Type := mkToken {
  kind : TokenKind;
  text : string;
}.

(** Regular expressions, as far as the rule patterns use them.  [Or] is
    ordered and [Star] greedy, as in Go's [regexp] (leftmost-first). *)
Inductive regex : Type :=
| Empty                                   (* matches the empty string *)
| Char (c : ascii)
| Class (negated : bool) (ranges : list (ascii * ascii))
| Then (r1 r2 : regex)
| Or (r1 r2 : regex)
| Star (r : regex)
| WordBoundary.                           (* \b *)

Definition Plus (r : regex) : regex := Then r (Star r).
Definition Opt (r : regex) : regex := Or r Empty.

Fixpoint Lit (s : string) : regex :=
  match s with
  | EmptyString => Empty
  | String c EmptyString => Char c
  | String c s' => Then (Char c) (Lit s')
  end.

Definition in_range (c : ascii) (range : ascii * ascii) : bool :=
  (nat_of_ascii (fst range) <=? nat_of_ascii c)%nat
  && (nat_of_ascii c <=? nat_of_ascii (snd range))%nat.

Definition in_class (negated : bool) (ranges : list (ascii * ascii)) (c : ascii)
  : bool :=
  xorb negated (existsb (in_range c) ranges).

(** [\w] *)
Definition is_word_char (c : ascii) : bool :=
  in_class false [("0", "9"); ("A", "Z"); ("a", "z"); ("_", "_")]%char c.

Definition is_word (c : option ascii) : bool :=
  match c with
  | Some c => is_word_char c
  | None => false
  end.

Definition head_char (s : string) : option ascii :=
  match s with
  | EmptyString => None
  | String c _ => Some c
  end.

(** A backtracking matcher in continuation style: [k] receives the
    character before the rest and the rest, and the first continuation
    that succeeds decides the match. *)
Definition cont := option ascii -> string -> option string.

(** The greedy loop of [Star]; an iteration that consumes nothing ends
    it. *)
Fixpoint star_loop (step : option ascii -> string -> cont -> option string)
    (k : cont) (fuel : nat) (prev : option ascii) (s : string) : option string :=
  match fuel with
  | O => k prev s
  | S fuel' =>
      match step prev s
              (fun prev' s' =>
                 if (String.length s' <? String.length s)%nat
                 then star_loop step k fuel' prev' s'
                 else None)
      with
      | Some rest => Some rest
      | None => k prev s
      end
  end.

Fixpoint match_re (r : regex) (prev : option ascii) (s : string) (k : cont)
  : option string :=
  match r with
  | Empty => k prev s
  | Char c =>
      match s with
      | String c' s' => if Ascii.eqb c c' then k (Some c') s' else None
      | EmptyString => None
      end
  | Class negated ranges =>
      match s with
      | String c' s' => if in_class negated ranges c' then k (Some c') s' else None
      | EmptyString => None
      end
  | Then r1 r2 => match_re r1 prev s (fun prev' s' => match_re r2 prev' s' k)
  | Or r1 r2 =>
      match match_re r1 prev s k with
      | Some rest => Some rest
      | None => match_re r2 prev s k
      end
  | Star r' => star_loop (match_re r') k (String.length s) prev s
  | WordBoundary =>
      if xorb (is_word prev) (is_word (head_char s)) then k prev s else None
  end.

(** The match of [^(?:r)] against the remaining input: the matched text
    and what is left. *)
Definition match_prefix (r : regex) (s : string) : option (string * string) :=
  match match_re r None s (fun _ rest => Some rest) with
  | Some rest =>
      Some (substring 0 (String.length s - String.length rest) s, rest)
  | None => None
  end.

Definition dquote : ascii := ascii_of_nat 34.
Definition backslash : ascii := ascii_of_nat 92.

Definition digit : regex := Class false [("0", "9")]%char.
Definition sign : regex := Class false [("-", "-"); ("+", "+")]%char.

(** [[a-fA-F0-9]] *)
Definition hexDigits : list (ascii * ascii) :=
  [("a", "f"); ("A", "F"); ("0", "9")]%char.

Definition is_hexDigit (c : ascii) : bool := in_class false hexDigits c.

Fixpoint all_chars (p : ascii -> bool) (s : string) : bool :=
  match s with
  | EmptyString => true
  | String c s' => p c && all_chars p s'
  end.

(** [buildLexer]: the rules, in the order of the source. *)
Definition buildLexer : list (TokenKind * regex) :=
  [ (* 0x[a-fA-F0-9]+ *)
    (Bytes, Then (Lit "0x") (Plus (Class false hexDigits)));
    (* [-+]?\d*\.\d+([eE][-+]?\d+)? *)
    (Float, Then (Opt sign)
              (Then (Star digit)
                 (Then (Char ".")
                    (Then (Plus digit)
                       (Opt (Then (Class false [("e", "e"); ("E", "E")]%char)
                               (Then (Opt sign) (Plus digit))))))));
    (* [-+]?\d+ *)
    (Int, Then (Opt sign) (Plus digit));
    (* "(\\"|[^"])*" *)
    (String_, Then (Char dquote)
                (Then (Star (Or (Then (Char backslash) (Char dquote))
                                (Class true [(dquote, dquote)])))
                   (Char dquote)));
    (* \b(or)\b *)
    (OpOr, Then WordBoundary (Then (Lit "or") WordBoundary));
    (* \b(and)\b *)
    (OpAnd, Then WordBoundary (Then (Lit "and") WordBoundary));
    (* ==|!=|>=|<=|>|< *)
    (OpComparison,
      Or (Lit "==") (Or (Lit "!=") (Or (Lit ">=") (Or (Lit "<=")
        (Or (Lit ">") (Lit "<"))))));
    (* \b(true|false)\b *)
    (Boolean, Then WordBoundary
                (Then (Or (Lit "true") (Lit "false")) WordBoundary));
    (* \( *)
    (LParen, Char "(");
    (* \) *)
    (RParen, Char ")");
    (* [,.\[\]] *)
    (Punct, Class false [(",", ","); (".", "."); ("[", "["); ("]", "]")]%char);
    (* [A-Z_][A-Z0-9_]* *)
    (Uppercase, Then (Class false [("A", "Z"); ("_", "_")]%char)
                  (Star (Class false [("A", "Z"); ("0", "9"); ("_", "_")]%char)));
    (* [a-z_][a-z0-9_]* *)
    (Lowercase, Then (Class false [("a", "z"); ("_", "_")]%char)
                  (Star (Class false [("a", "z"); ("0", "9"); ("_", "_")]%char)));
    (* \s+ *)
    (whitespace,
      Plus (Class false
              [(ascii_of_nat 9, ascii_of_nat 10); (ascii_of_nat 12, ascii_of_nat 13);
               (" ", " ")]%char)) ].

(** The first rule, in order, that matches at the start of the input. *)
Fixpoint first_match (rules : list (TokenKind * regex)) (s : string)
  : option (Token * string) :=
  match rules with
  | [] => None
  | (name, pattern) :: rules' =>
      match match_prefix pattern s with
      | Some (span, rest) => Some (mkToken name span, rest)
      | None => first_match rules' s
      end
  end.

(** The outcome of lexing: the tokens, or the input left at the place
    no rule matches. *)
Inductive lexed : Type :=
| Tokens (ts : list Token)
| LexError (remaining : string).

(** A rule whose name starts with a lower-case letter is elided. *)
Definition elided (k : TokenKind) : bool :=
  match k with
  | whitespace => true
  | _ => false
  end.

(** The lexer's loop over the input; every token consumes at least one
    character, so the length of the input bounds the iterations. *)
Fixpoint lex_loop (rules : list (TokenKind * regex)) (fuel : nat) (s : string)
  : lexed :=
  match s with
  | EmptyString => Tokens []
  | _ =>
      match fuel with
      | O => LexError s
      | S fuel' =>
          match first_match rules s with
          | None => LexError s
          | Some (tok, rest) =>
              if (String.length rest <? String.length s)%nat then
                match lex_loop rules fuel' rest with
                | Tokens ts => Tokens (if elided (kind tok) then ts else tok :: ts)
                | LexError remaining => LexError remaining
                end
              else LexError s
          end
      end
  end.

Definition lex_with (rules : list (TokenKind * regex)) (s : string) : lexed :=
  lex_loop rules (String.length s) s.

Definition lex (s : string) : lexed := lex_with buildLexer s.

(** *** Path and Field *)

(** [type Field struct { Name string; MapKey *string }] *)
Record Field : Type := mkField {
  Name : string;
  MapKey : option string;
}.

(** [type Path struct { Fields []Field }] *)
Record Path : Type := mkPath {
  Fields : list Field;
}.

(** *** Parsers over the token list

    The outcome of running a piece of the grammar: the node and the
    tokens left, no match, or the error of a [Capture] method or of a
    conversion. *)

Inductive result (A : Type) : Type :=
| Match (a : A) (rest : list Token)
| NoMatch
| Abort (err : error_value).
Arguments Match {A} a rest.
Arguments NoMatch {A}.
Arguments Abort {A} err.

Definition parser (A : Type) : Type := list Token -> result A.

Definition ret {A} (a : A) : parser A := fun ts => Match a ts.

Definition bind {A B} (p : parser A) (k : A -> parser B) : parser B :=
  fun ts =>
    match p ts with
    | Match a rest => k a rest
    | NoMatch => NoMatch
    | Abort err => Abort err
    end.

Notation "x <- p ;; k" := (bind p (fun x => k))
  (at level 100, p at next level, k at level 200, right associativity,
   only parsing).

(** Ordered choice. *)
Definition orElse {A} (p q : parser A) : parser A :=
  fun ts =>
    match p ts with
    | Match a rest => Match a rest
    | NoMatch => q ts
    | Abort err => Abort err
    end.

(** [( ... )?] *)
Definition optional {A} (p : parser A) : parser (option A) :=
  fun ts =>
    match p ts with
    | Match a rest => Match (Some a) rest
    | NoMatch => Match None ts
    | Abort err => Abort err
    end.

(** [( ... )*] *)
Fixpoint many {A} (fuel : nat) (p : parser A) : parser (list A) :=
  match fuel with
  | O => fun _ => NoMatch
  | S fuel' =>
      fun ts =>
        match p ts with
        | Match a rest =>
            match many fuel' p rest with
            | Match l rest' => Match (a :: l) rest'
            | NoMatch => NoMatch
            | Abort err => Abort err
            end
        | NoMatch => Match [] ts
        | Abort err => Abort err
        end
  end.

Definition isKind (k : TokenKind) (tok : Token) : bool := bool_decide (kind tok = k).

Definition isLit (k : TokenKind) (s : string) (tok : Token) : bool :=
  isKind k tok && String.eqb (text tok) s.

(** [@Kind]: one token of that kind; its text is captured. *)
Definition token (k : TokenKind) : parser string :=
  fun ts =>
    match ts with
    | tok :: rest => if isKind k tok then Match (text tok) rest else NoMatch
    | [] => NoMatch
    end.

(** ['text'] *)
Definition literal (k : TokenKind) (s : string) : parser string :=
  fun ts =>
    match ts with
    | tok :: rest => if isLit k s tok then Match (text tok) rest else NoMatch
    | [] => NoMatch
    end.

(** The outcome of a [Capture] method or of a conversion. *)
Definition captured {A} (r : go (A * error)) : parser A :=
  fun ts =>
    match r with
    | Return (a, None) => Match a ts
    | Return (_, Some err) => Abort err
    | Panic msg => Abort (ErrorString ("panic: " +:+ msg))
    end.

Definition converted {A} (r : A + error_value) : parser A :=
  fun ts =>
    match r with
    | inl a => Match a ts
    | inr err => Abort err
    end.

(** *** The AST

    A pointer field that a grammar alternative fills is an [option]; the
    pointers the grammar always fills ([Left], [Value], [Term]) hold the
    node itself.  Field names carry the struct's name where two structs
    share one. *)

(** What the parser library does with a leaf token: [strconv.ParseFloat]
    for a [*float64], [strconv.ParseInt] for an [*int64], and the text a
    [*string] receives from a [String] token. *)
Class Conversions : Type := mkConversions {
  float64 : Type;
  ParseFloat : string -> float64 + error_value;
  ParseInt : string -> Z + error_value;
  StringValue : string -> string + error_value;
}.

Section Grammar.
Context `{!Conversions}.

(** [type value struct] and [type invocation struct] *)
Inductive value : Type := mkValue {
  value_Invocation : option invocation;
  value_Bytes : option byteSlice;
  value_String : option string;
  value_Float : option float64;
  value_Int : option Z;
  value_Bool : option boolean;
  value_IsNil : option isNil;
  value_Enum : option EnumSymbol;
  value_Path : option Path;
}
with invocation : Type := mkInvocation {
  Function : string;
  Arguments : list value;
}.

(** [type comparison struct] *)
Record comparison : Type := mkComparison {
  comparison_Left : value;
  Op : compareOp;
  comparison_Right : value;
}.

(** [booleanValue], [opAndBooleanValue], [term], [opOrTerm],
    [booleanExpression] *)
Inductive booleanValue : Type := mkBooleanValue {
  Comparison : option comparison;
  ConstExpr : option boolean;
  SubExpr : option booleanExpression;
}
with opAndBooleanValue : Type := mkOpAndBooleanValue {
  opAnd_Operator : string;
  opAnd_Value : booleanValue;
}
with term : Type := mkTerm {
  term_Left : booleanValue;
  term_Right : list opAndBooleanValue;
}
with opOrTerm : Type := mkOpOrTerm {
  opOr_Operator : string;
  opOr_Term : term;
}
with booleanExpression : Type := mkBooleanExpression {
  booleanExpression_Left : term;
  booleanExpression_Right : list opOrTerm;
}.

(** [type parsedStatement struct] *)
Record parsedStatement : Type := mkParsedStatement {
  Invocation : invocation;
  WhereClause : option booleanExpression;
}.

(** *** Exactly one variant field

    The number of populated variant fields of a node, and the check that
    it is one at every [value] and [booleanValue] node of a tree. *)

Definition populated {A} (o : option A) : nat :=
  match o with
  | Some _ => 1
  | None => 0
  end.

Definition value_variants (v : value) : nat :=
  populated (value_Invocation v) + populated (value_Bytes v)
  + populated (value_String v) + populated (value_Float v)
  + populated (value_Int v) + populated (value_Bool v)
  + populated (value_IsNil v) + populated (value_Enum v)
  + populated (value_Path v).

Definition booleanValue_variants (b : booleanValue) : nat :=
  populated (Comparison b) + populated (ConstExpr b) + populated (SubExpr b).

Fixpoint value_ok (v : value) : bool :=
  (value_variants v =? 1)%nat
  && match value_Invocation v with
     | Some i => forallb value_ok (Arguments i)
     | None => true
     end.

Definition invocation_ok (i : invocation) : bool := forallb value_ok (Arguments i).

Definition comparison_ok (c : comparison) : bool :=
  value_ok (comparison_Left c) && value_ok (comparison_Right c).

Fixpoint booleanValue_ok (b : booleanValue) : bool :=
  (booleanValue_variants b =? 1)%nat
  && match Comparison b with
     | Some c => comparison_ok c
     | None => true
     end
  && match SubExpr b with
     | Some e => booleanExpression_ok e
     | None => true
     end
with term_ok (t : term) : bool :=
  booleanValue_ok (term_Left t)
  && forallb (fun r => booleanValue_ok (opAnd_Value r)) (term_Right t)
with booleanExpression_ok (e : booleanExpression) : bool :=
  term_ok (booleanExpression_Left e)
  && forallb (fun r => term_ok (opOr_Term r)) (booleanExpression_Right e).

Definition parsedStatement_ok (st : parsedStatement) : bool :=
  invocation_ok (Invocation st)
  && match WhereClause st with
     | Some e => booleanExpression_ok e
     | None => true
     end.

(** *** The parser

    The struct tags are the grammar; the parser library runs it as a
    recursive descent over the token list: a sequence matches its
    elements one after the other, alternatives are tried in order and the
    first that matches is taken, [( ... )?] and [( ... )*] match as much as
    they can and fall back to the tokens before a failed group, and an
    error returned by a [Capture] method or a conversion ends the parse.
    A quoted literal matches a token by its text; the lexer gives each of
    the grammar's literals one kind, which is checked with it.

    [fuel] bounds the nesting and the repetitions; more than the number
    of tokens is enough, and the result does not depend on how much
    more. *)

(** [Field]: [@Lowercase ( '[' @String ']' )?] *)
Definition parseMapKey : parser string :=
  _ <- literal Punct "[" ;;
  raw <- token String_ ;;
  _ <- literal Punct "]" ;;
  converted (StringValue raw).

Definition parseField : parser Field :=
  name <- token Lowercase ;;
  mapKey <- optional parseMapKey ;;
  ret (mkField name mapKey).

(** [Path]: [@@ ( '.' @@ )*] *)
Definition parsePath (fuel : nat) : parser Path :=
  f <- parseField ;;
  fs <- many fuel (_ <- literal Punct "." ;; parseField) ;;
  ret (mkPath (f :: fs)).

Definition isName (tok : Token) : bool := isKind Uppercase tok || isKind Lowercase tok.

(** [@(Uppercase | Lowercase)+]: the texts of the leading name tokens,
    joined. *)
Fixpoint nameTokens (ts : list Token) : string * list Token :=
  match ts with
  | tok :: rest =>
      if isName tok
      then (text tok +:+ fst (nameTokens rest), snd (nameTokens rest))
      else (EmptyString, ts)
  | [] => (EmptyString, [])
  end.

Definition parseFunction : parser string :=
  fun ts =>
    match ts with
    | tok :: _ =>
        if isName tok then Match (fst (nameTokens ts)) (snd (nameTokens ts))
        else NoMatch
    | [] => NoMatch
    end.

(** [( @@ ( ',' @@ )* )?], over a parser of values. *)
Definition parseArguments (parseValue : parser value) (fuel : nat)
  : parser (list value) :=
  arguments <- optional (v <- parseValue ;;
                         vs <- many fuel (_ <- literal Punct "," ;; parseValue) ;;
                         ret (v :: vs)) ;;
  ret (default [] arguments).

(** [invocation]: [@(Uppercase | Lowercase)+ '(' ( @@ ( ',' @@ )* )? ')'] *)
Definition parseInvocation (parseValue : parser value) (fuel : nat)
  : parser invocation :=
  function <- parseFunction ;;
  _ <- literal LParen "(" ;;
  arguments <- parseArguments parseValue fuel ;;
  _ <- literal RParen ")" ;;
  ret (mkInvocation function arguments).

(** The alternatives of [value] after [Invocation], in order:
    [@Bytes | @String | @Float | @Int | @Boolean | @'nil' | @Uppercase | @@]
    (a [Path]). *)
Definition parseLeaf (fuel : nat) : parser value :=
  orElse (raw <- token Bytes ;;
          b <- captured (byteSlice_Capture [] [raw]) ;;
          ret (mkValue None (Some b) None None None None None None None))
 (orElse (raw <- token String_ ;;
          s <- converted (StringValue raw) ;;
          ret (mkValue None None (Some s) None None None None None None))
 (orElse (raw <- token Float ;;
          f <- converted (ParseFloat raw) ;;
          ret (mkValue None None None (Some f) None None None None None))
 (orElse (raw <- token Int ;;
          i <- converted (ParseInt raw) ;;
          ret (mkValue None None None None (Some i) None None None None))
 (orElse (raw <- token Boolean ;;
          b <- captured (boolean_Capture false [raw]) ;;
          ret (mkValue None None None None None (Some b) None None None))
 (orElse (raw <- literal Lowercase "nil" ;;
          n <- captured (isNil_Capture false [raw]) ;;
          ret (mkValue None None None None None None (Some n) None None))
 (orElse (e <- token Uppercase ;;
          ret (mkValue None None None None None None None (Some e) None))
         (p <- parsePath fuel ;;
          ret (mkValue None None None None None None None None (Some p))))))))).

(** [value] *)
Fixpoint parseValue (fuel : nat) : parser value :=
  match fuel with
  | O => fun _ => NoMatch
  | S fuel' =>
      orElse (i <- parseInvocation (parseValue fuel') fuel' ;;
              ret (mkValue (Some i) None None None None None None None None))
             (parseLeaf fuel')
  end.

(** [comparison]: [@@ @OpComparison @@] *)
Definition parseComparison (fuel : nat) : parser comparison :=
  left <- parseValue fuel ;;
  raw <- token OpComparison ;;
  op <- captured (compareOp_Capture EQ [raw]) ;;
  right <- parseValue fuel ;;
  ret (mkComparison left op right).

(** [term]: [@@ @@*], with [opAndBooleanValue]: [@OpAnd @@], over a parser
    of boolean values. *)
Definition parseOpAndBooleanValue (parseBooleanValue : parser booleanValue)
  : parser opAndBooleanValue :=
  operator <- token OpAnd ;;
  v <- parseBooleanValue ;;
  ret (mkOpAndBooleanValue operator v).

Definition parseTerm (parseBooleanValue : parser booleanValue) (fuel : nat)
  : parser term :=
  left <- parseBooleanValue ;;
  right <- many fuel (parseOpAndBooleanValue parseBooleanValue) ;;
  ret (mkTerm left right).

(** [booleanExpression]: [@@ @@*], with [opOrTerm]: [@OpOr @@] *)
Definition parseOpOrTerm (parseBooleanValue : parser booleanValue) (fuel : nat)
  : parser opOrTerm :=
  operator <- token OpOr ;;
  t <- parseTerm parseBooleanValue fuel ;;
  ret (mkOpOrTerm operator t).

Definition parseBooleanExpressionWith (parseBooleanValue : parser booleanValue)
    (fuel : nat) : parser booleanExpression :=
  left <- parseTerm parseBooleanValue fuel ;;
  right <- many fuel (parseOpOrTerm parseBooleanValue fuel) ;;
  ret (mkBooleanExpression left right).

(** [booleanValue]: [( @@ | @Boolean | '(' @@ ')' )] *)
Fixpoint parseBooleanValueFuel (fuel : nat) : parser booleanValue :=
  match fuel with
  | O => fun _ => NoMatch
  | S fuel' =>
      orElse (c <- parseComparison fuel ;;
              ret (mkBooleanValue (Some c) None None))
     (orElse (raw <- token Boolean ;;
              b <- captured (boolean_Capture false [raw]) ;;
              ret (mkBooleanValue None (Some b) None))
             (_ <- literal LParen "(" ;;
              e <- parseBooleanExpressionWith (parseBooleanValueFuel fuel') fuel' ;;
              _ <- literal RParen ")" ;;
              ret (mkBooleanValue None None (Some e))))
  end.

(** The parsers of the nonterminals, with the fuel their input needs. *)
Definition parseBooleanValue : parser booleanValue :=
  fun ts => parseBooleanValueFuel (S (length ts)) ts.

Definition parseBooleanExpression : parser booleanExpression :=
  fun ts =>
    parseBooleanExpressionWith (parseBooleanValueFuel (S (length ts)))
      (S (length ts)) ts.

(** [parsedStatement]: [@@ ( 'where' @@ )?] *)
Definition parseParsedStatement : parser parsedStatement :=
  fun ts =>
    let fuel := S (length ts) in
    (i <- parseInvocation (parseValue fuel) fuel ;;
     whereClause <- optional
                      (_ <- literal Lowercase "where" ;;
                       parseBooleanExpressionWith (parseBooleanValueFuel fuel) fuel) ;;
     ret (mkParsedStatement i whereClause)) ts.

(** Why a statement did not parse. *)
Inductive parseError : Type :=
| InvalidInputText (remaining : string)      (* the lexer *)
| UnexpectedToken (rest : list Token)        (* the grammar *)
| CaptureFailed (err : error_value).         (* a Capture or a conversion *)

(** Modelled from the spec: the entry point [Parse(text) → (ParsedStatement,
    error)] is not among the sources.  It lexes the text, runs the grammar
    from [parsedStatement] and requires that every token is consumed; on an
    error there is no AST. *)
Definition parseTokens (ts : list Token) : parsedStatement + parseError :=
  match parseParsedStatement ts with
  | Match st [] => inl st
  | Match _ rest => inr (UnexpectedToken rest)
  | NoMatch => inr (UnexpectedToken ts)
  | Abort err => inr (CaptureFailed err)
  end.

Definition parseStatement (raw : string) : parsedStatement + parseError :=
  match lex raw with
  | Tokens ts => parseTokens ts
  | LexError remaining => inr (InvalidInputText remaining)
  end.

End Grammar.

End Ottl.

(** ** Properties of parsers

    The vocabulary of the statements about the parser. *)
Module ParserProps.
Import Ottl.

(** A [Bytes] token is decodable when [byteSlice.Capture] accepts its
    text; tokens of the other kinds always are. *)
Definition decodable (tok : Token) : bool :=
  negb (isKind Bytes tok)
  || match byteSlice_Capture [] [text tok] with
     | Return (_, None) => true
     | _ => false
     end.

(** Whatever [p] matches satisfies [P], and the tokens it took are a
    prefix of the input made of decodable tokens. *)
Definition sound {A} (P : A -> Prop) (p : parser A) : Prop :=
  forall ts a rest,
    p ts = Match a rest ->
    P a /\ exists taken, ts = (taken ++ rest)%list
                         /\ Forall (fun tok => decodable tok = true) taken.

(** A match of [p] takes at least one token; a match of [p] leaves no more
    tokens than it was given. *)
Definition advances {A} (p : parser A) : Prop :=
  forall ts a rest, p ts = Match a rest -> (length rest < length ts)%nat.

Definition bounded {A} (p : parser A) : Prop :=
  forall ts a rest, p ts = Match a rest -> (length rest <= length ts)%nat.

(** [p] and [q] do the same on inputs of at most [n] tokens. *)
Definition agree {A} (n : nat) (p q : parser A) : Prop :=
  forall ts, (length ts <= n)%nat -> p ts = q ts.

(** Tokens that cannot go on a value, a boolean value, a term, a boolean
    expression: what may follow one in a statement. *)
Definition follows (allowed : Token -> bool) (ts : list Token) : bool :=
  match ts with
  | [] => true
  | tok :: _ => allowed tok
  end.

Definition afterValue (tok : Token) : bool :=
  negb (isName tok) && negb (isKind LParen tok) && negb (isKind Punct tok)
  || isLit Punct "," tok.

Definition afterBooleanValue (tok : Token) : bool :=
  isKind OpAnd tok || isKind OpOr tok || isKind RParen tok.

Definition afterTerm (tok : Token) : bool := isKind OpOr tok || isKind RParen tok.

Definition afterBooleanExpression (tok : Token) : bool := isKind RParen tok.

Definition afterField (tok : Token) : bool := negb (isLit Punct "[" tok).

Definition afterPath (tok : Token) : bool :=
  negb (isLit Punct "[" tok) && negb (isLit Punct "." tok).

Definition afterFunction (tok : Token) : bool := negb (isName tok).

Definition notNameNotLParen (tok : Token) : bool :=
  negb (isName tok) && negb (isKind LParen tok).

(** The tokens a value can start with. *)
Definition startsValue (tok : Token) : bool :=
  isName tok || isKind Bytes tok || isKind String_ tok || isKind Float tok
  || isKind Int tok || isKind Boolean tok.

(** A match of [p] stays what it is when the input is extended by tokens
    [more], provided what then follows the match is allowed. *)
Definition extends {A} (allowed : Token -> bool) (p : parser A) : Prop :=
  forall ts a rest more,
    p ts = Match a rest ->
    follows allowed (rest ++ more) = true ->
    p (ts ++ more)%list = Match a (rest ++ more)%list.

(** [p] does not match an input that is empty or starts with a token of
    [S]; a match of [p] starts with a token of [sep]. *)
Definition refuses {A} (S : Token -> bool) (p : parser A) : Prop :=
  forall ts, follows S ts = true -> p ts = NoMatch.

Definition separated {A} (sep : Token -> bool) (p : parser A) : Prop :=
  forall ts a rest, p ts = Match a rest ->
                    exists tok ts', ts = tok :: ts' /\ sep tok = true.

(** Whether [p] has no match depends on the first token only. *)
Definition headed {A} (p : parser A) : Prop :=
  forall tok ts ts', p (tok :: ts) = NoMatch -> p (tok :: ts') = NoMatch.

Section Chains.
Context {conv : Conversions}.

(** The tokens of [and B1 and B2 ...] for operands given with their
    tokens, and the [Right] list they are parsed to. *)
Definition andTokens (operands : list (list Token * booleanValue)) : list Token :=
  concat (map (fun operand => mkToken OpAnd "and" :: fst operand) operands).

Definition andValues (operands : list (list Token * booleanValue))
  : list opAndBooleanValue :=
  map (fun operand => mkOpAndBooleanValue "and" (snd operand)) operands.

End Chains.

End ParserProps.

(** ** pdata handles

    [pcommon.Resource] and [pcommon.Map] are handles: a [Resource] wraps a
    pointer to a resource object, and [Resource.Attributes()] is a [Map]
    handle onto the attribute slice stored inside that object.  Mutation
    goes through the handle and is seen by every other holder of it, so
    the objects live in a store and the handles are addresses. *)
Module pcommon.

Definition loc := positive.

(** [pcommon.Value] payloads; a double is kept as its IEEE-754 bits. *)
Inductive Value : Type :=
| ValueEmpty
| ValueStr (s : string)
| ValueInt (i : Z)
| ValueDouble (bits : Z)
| ValueBool (b : bool)
| ValueMap (kvs : list (string * Value))
| ValueSlice (vs : list Value)
| ValueBytes (bs : list Z).

Definition KeyValues := list (string * Value).

(** [func (m Map) Get(key string) (Value, bool)]: the first entry with
    that key. *)
Fixpoint Map_Get (m : KeyValues) (key : string) : option Value :=
  match m with
  | [] => None
  | (k, v) :: m' => if decide (k = key) then Some v else Map_Get m' key
  end.

(** The resource object behind a [Resource] handle. *)
Record ResourceData : Type := mkResourceData {
  attributes : KeyValues;
  droppedAttributesCount : Z;  (* uint32 *)
}.

Definition zeroResource : ResourceData := mkResourceData [] 0.

Record Store : Type := mkStore {
  resources : gmap loc ResourceData;
  maps : gmap loc KeyValues;
}.

Definition Resource := loc.

(** A [Map] handle points at the attribute slice of a resource object or
    at a free-standing slice. *)
Inductive Map : Type :=
| ResourceAttributes (r : Resource)
| MapAt (l : loc).

#[export] Instance Map_eq_dec : EqDecision Map.
Proof. solve_decision. Defined.

Definition resourceAt (σ : Store) (r : Resource) : ResourceData :=
  default zeroResource (resources σ !! r).

Definition readMap (σ : Store) (m : Map) : KeyValues :=
  match m with
  | ResourceAttributes r => attributes (resourceAt σ r)
  | MapAt l => default [] (maps σ !! l)
  end.

Definition writeMap (m : Map) (kvs : KeyValues) (σ : Store) : Store :=
  match m with
  | ResourceAttributes r =>
      mkStore (<[r := mkResourceData kvs (droppedAttributesCount (resourceAt σ r))]>
                 (resources σ))
              (maps σ)
  | MapAt l => mkStore (resources σ) (<[l := kvs]> (maps σ))
  end.

(** [func (ms Resource) Attributes() Map] *)
Definition Resource_Attributes (r : Resource) : Map := ResourceAttributes r.

(** [func (ms Resource) DroppedAttributesCount() uint32] *)
Definition Resource_DroppedAttributesCount (σ : Store) (r : Resource) : Z :=
  droppedAttributesCount (resourceAt σ r).

(** [func (ms Resource) SetDroppedAttributesCount(v uint32)] *)
Definition Resource_SetDroppedAttributesCount (r : Resource) (v : Z) (σ : Store)
  : Store :=
  mkStore (<[r := mkResourceData (attributes (resourceAt σ r)) v]> (resources σ))
          (maps σ).

(** [func (m Map) CopyTo(dest Map)]: overwrites the slice behind [dest]
    with a copy of the entries behind [m]. *)
Definition Map_CopyTo (m dest : Map) (σ : Store) : Store :=
  writeMap dest (readMap σ m) σ.

(** [func (ms Resource) CopyTo(dest Resource)] *)
Definition Resource_CopyTo (ms dest : Resource) (σ : Store) : Store :=
  let σ1 := Map_CopyTo (Resource_Attributes ms) (Resource_Attributes dest) σ in
  Resource_SetDroppedAttributesCount dest
    (Resource_DroppedAttributesCount σ ms) σ1.

End pcommon.

(** ** Go dynamic values ([interface{}])

    The dynamic types a Setter can be handed; the type assertions of the
    accessors ask which constructor a value has. *)
Inductive any : Type :=
| AnyNil
| AnyResource (r : pcommon.Resource)
| AnyMap (m : pcommon.Map)
| AnyInt64 (i : Z)
| AnyInt (i : Z)
| AnyFloat64 (bits : Z)
| AnyString (s : string)
| AnyBool (b : bool)
| AnyBytes (bs : list Z)
| AnyValue (v : pcommon.Value).

(** [uint32(i)] for an [int64] [i]. *)
Definition uint32 (i : Z) : Z := i mod 2 ^ 32.

(** ** Resource context ([ottlcommon]) *)
Module ottlcommon.
Import Ottl pcommon.

(** [type ResourceContext interface { GetResource() pcommon.Resource }] *)
Class ResourceContext (K : Type) := GetResource : K -> Resource.

(** [ottl.StandardGetSetter[K]]: the closures read and write the record
    through the store. *)
Record StandardGetSetter (K : Type) : Type := mkGetSetter {
  Getter : K -> Store -> any;
  Setter : K -> any -> Store -> Store;
}.
Arguments mkGetSetter {K} _ _.
Arguments Getter {K} _ _ _.
Arguments Setter {K} _ _ _ _.

(** [GetMapValue] and [SetMapValue] live in another file of the package;
    [fmt_v] is [fmt]'s [%v] rendering of a path. *)
Class Helpers : Type := mkHelpers {
  GetMapValue : Store -> Map -> string -> any;
  SetMapValue : Map -> string -> any -> Store -> Store;
  fmt_v : list Field -> string;
}.

Section Resource.
Context {K : Type} `{!ResourceContext K} `{!Helpers}.

Definition accessResource : StandardGetSetter K :=
  mkGetSetter
    (fun ctx _ => AnyResource (GetResource ctx))
    (fun ctx val σ =>
       match val with
       | AnyResource newRes => Resource_CopyTo newRes (GetResource ctx) σ
       | _ => σ
       end).

Definition accessResourceAttributes : StandardGetSetter K :=
  mkGetSetter
    (fun ctx _ => AnyMap (Resource_Attributes (GetResource ctx)))
    (fun ctx val σ =>
       match val with
       | AnyMap attrs => Map_CopyTo attrs (Resource_Attributes (GetResource ctx)) σ
       | _ => σ
       end).

Definition accessResourceAttributesKey (mapKey : string) : StandardGetSetter K :=
  mkGetSetter
    (fun ctx σ => GetMapValue σ (Resource_Attributes (GetResource ctx)) mapKey)
    (fun ctx val σ =>
       SetMapValue (Resource_Attributes (GetResource ctx)) mapKey val σ).

Definition accessResourceDroppedAttributesCount : StandardGetSetter K :=
  mkGetSetter
    (fun ctx σ => AnyInt64 (Resource_DroppedAttributesCount σ (GetResource ctx)))
    (fun ctx val σ =>
       match val with
       | AnyInt64 i =>
           Resource_SetDroppedAttributesCount (GetResource ctx) (uint32 i) σ
       | _ => σ
       end).

(** [func ResourcePathGetSetter[K ResourceContext](path []ottl.Field)
      (ottl.GetSetter[K], error)] *)
Definition ResourcePathGetSetter (path : list Field)
  : option (StandardGetSetter K) * error :=
  match path with
  | [] => (Some accessResource, None)
  | f :: _ =>
      if decide (Name f = "attributes") then
        match MapKey f with
        | None => (Some accessResourceAttributes, None)
        | Some mapKey => (Some (accessResourceAttributesKey mapKey), None)
        end
      else if decide (Name f = "dropped_attributes_count") then
        (Some accessResourceDroppedAttributesCount, None)
      else
        (None, Some (ErrorString
                       ("invalid resource path expression " +:+ fmt_v path)))
  end.

End Resource.

(** The claim's notion of a value whose dynamic type does not match the
    field a path targets: not a [Resource] for the whole-resource path, not a
    [Map] for [attributes], not an [int64] for [dropped_attributes_count].
    A single entry [attributes["k"]] takes values of several types and is
    left to [SetMapValue]. *)
Definition dynamicTypeMismatch (path : list Field) (val : any) : bool :=
  match path with
  | [] => match val with AnyResource _ => false | _ => true end
  | f :: _ =>
      if decide (Name f = "attributes") then
        match MapKey f with
        | None => match val with AnyMap _ => false | _ => true end
        | Some _ => false
        end
      else if decide (Name f = "dropped_attributes_count") then
        match val with AnyInt64 _ => false | _ => true end
      else false
  end.

End ottlcommon.

(** ** Prometheus remote-write translation ([prometheusremotewrite]) *)
Module prometheusremotewrite.
Import pcommon.

Definition nameStr := "__name__".
Definition sumStr := "_sum".
Definition countStr := "_count".
Definition bucketStr := "_bucket".
Definition leStr := "le".
Definition quantileStr := "quantile".
Definition pInfStr := "+Inf".
Definition maxExemplarRunes : Z := 128.
Definition traceIDKey := "trace_id".
Definition spanIDKey := "span_id".

(** [conventions.AttributeService*] and [model.JobLabel],
    [model.InstanceLabel]. *)
Definition AttributeServiceName := "service.name".
Definition AttributeServiceNamespace := "service.namespace".
Definition AttributeServiceInstanceID := "service.instance.id".
Definition JobLabel := "job".
Definition InstanceLabel := "instance".

(** [uint64] addition. *)
Definition uint64_add (a b : Z) : Z := (a + b) mod 2 ^ 64.

(** [int64(x)] for a [uint64] [x]. *)
Definition int64_of_uint64 (x : Z) : Z :=
  if decide (x < 2 ^ 63) then x else x - 2 ^ 64.

(** [prompb.Label] *)
Record Label : Type := mkLabel {
  Label_Name : string;
  Label_Value : string;
}.

(** [len(name) > 4 && name[:2] == "__" && name[len(name)-2:] == "__"] *)
Definition isInternalLabel (name : string) : bool :=
  bool_decide (4 < String.length name)%nat
  && String.eqb (substring 0 2 name) "__"
  && String.eqb (substring (String.length name - 2) 2 name) "__".

(** [float64] is kept abstract, with the operations the translation
    applies to it: the conversion [float64(x)] of a [uint64],
    [math.Float64frombits(value.StaleNaN)], [math.Inf(1)], [a <= b] and
    [strconv.FormatFloat(f, 'f', -1, 64)]. *)
Class Float64 : Type := mkFloat64 {
  float64 : Type;
  float64_of_uint64 : Z -> float64;
  StaleNaN : float64;
  Inf1 : float64;
  float64_le : float64 -> float64 -> bool;
  FormatFloat : float64 -> string;
}.

Section Data.
Context `{!Float64}.

(** [prompb.Sample], [prompb.Exemplar], [prompb.TimeSeries].  [Samples] is
    compared with [nil] by [addExemplar], so a nil slice is [None]. *)
Record Sample : Type := mkSample {
  Sample_Value : float64;
  Sample_Timestamp : Z;
}.

Record Exemplar : Type := mkExemplar {
  Exemplar_Labels : list Label;
  Exemplar_Value : float64;
  Exemplar_Timestamp : Z;
}.

Record TimeSeries : Type := mkTimeSeries {
  Labels : list Label;
  Samples : option (list Sample);
  Exemplars : list Exemplar;
}.

(** [append(s, x)] on a slice that may be nil. *)
Definition append_nilable {A} (s : option (list A)) (x : A) : option (list A) :=
  Some (default [] s ++ [x])%list.

(** [type bucketBoundsData struct { sig string; bound float64 }] *)
Record bucketBoundsData : Type := mkBucketBoundsData {
  sig : string;
  bound : float64;
}.

(** [type Settings struct] *)
Record Settings : Type := mkSettings {
  Namespace : string;
  ExternalLabels : gmap string string;
  DisableTargetInfo : bool;
}.

(** What the translation reads from a [pcommon.Resource], a pdata
    exemplar and a [pmetric.HistogramDataPoint]. *)
Record Resource : Type := mkResource {
  Resource_Attributes : KeyValues;
}.

Record pdataExemplar : Type := mkPdataExemplar {
  DoubleValue : float64;
  exemplar_Timestamp : Z;        (* uint64 nanoseconds *)
  TraceID : list Z;
  SpanID : list Z;
  FilteredAttributes : KeyValues;
}.

Record HistogramDataPoint : Type := mkHistogramDataPoint {
  Attributes : KeyValues;
  Timestamp : Z;                 (* uint64 nanoseconds *)
  HasSum : bool;
  Sum : float64;
  Count : Z;                     (* uint64 *)
  NoRecordedValue : bool;        (* Flags().NoRecordedValue() *)
  ExplicitBounds : list float64;
  BucketCounts : list Z;         (* uint64 each *)
  pt_Exemplars : list pdataExemplar;
}.

End Data.

(** What the translation calls outside this file:
    [prometheustranslator.NormalizeLabel] and [BuildPromCompliantName]
    ([pmetric.Metric] is only passed through to the latter and asked for
    [Type().String()]), [pcommon.Value.AsString], [pcommon.Map.Sort],
    [utf8.RuneCountInString], the [HexString] of a trace or span id, and
    [sort.Sort] on [ByLabelName] and on [byBucketBoundsData] (the
    algorithm is not stable). *)
Class Externals `{!Float64} : Type := mkExternals {
  NormalizeLabel : string -> string;
  Metric : Type;
  BuildPromCompliantName : Metric -> string -> string;
  Metric_Type_String : Metric -> string;
  Value_AsString : Value -> string;
  Map_Sort : KeyValues -> KeyValues;
  RuneCountInString : string -> Z;
  HexString : list Z -> string;
  sort_ByLabelName : list Label -> list Label;
  sort_byBucketBoundsData : list bucketBoundsData -> list bucketBoundsData;
}.

(** The map [tsMap map[string]*prompb.TimeSeries]; the nil map is [None].
    Every signature owns its series (no two keys share a pointer), which
    is how [addSample] builds the map. *)
Abbreviation TsMap := (option (gmap string TimeSeries)).

Section Translate.
Context `{!Float64} `{!Externals}.

(** [timeSeriesSignature]: sorts [labels] in place and returns the
    signature; the result carries the sorted slice. *)
Definition timeSeriesSignature (datatype : string) (labels : list Label)
  : string * list Label :=
  let labels' := sort_ByLabelName labels in
  (fold_left
     (fun b lb => b +:+ "-" +:+ Label_Name lb +:+ "-" +:+ Label_Value lb)
     labels' datatype,
   labels').

(** [addSample] *)
Definition addSample (tsMap : TsMap) (sample : option Sample)
    (labels : option (list Label)) (datatype : string) : TsMap * string :=
  match sample, labels, tsMap with
  | Some sample, Some labels, Some m =>
      let '(sig, labels) := timeSeriesSignature datatype labels in
      match m !! sig with
      | Some ts =>
          (Some (<[sig := mkTimeSeries (Labels ts)
                            (append_nilable (Samples ts) sample)
                            (Exemplars ts)]> m), sig)
      | None =>
          (Some (<[sig := mkTimeSeries labels (Some [sample]) []]> m), sig)
      end
  | _, _, _ => (tsMap, "")
  end.

(** [addExemplar]: the first bucket, in the given order, whose series
    exists with non-nil samples and whose bound is not below the
    exemplar's value receives the exemplar. *)
Fixpoint addExemplar (m : gmap string TimeSeries)
    (bucketBounds : list bucketBoundsData) (exemplar : Exemplar)
  : gmap string TimeSeries :=
  match bucketBounds with
  | [] => m
  | bucketBound :: rest =>
      match m !! sig bucketBound with
      | Some ts =>
          match Samples ts with
          | Some _ =>
              if float64_le (Exemplar_Value exemplar) (bound bucketBound)
              then <[sig bucketBound :=
                       mkTimeSeries (Labels ts) (Samples ts)
                                    (Exemplars ts ++ [exemplar])%list]> m
              else addExemplar m rest exemplar
          | None => addExemplar m rest exemplar
          end
      | None => addExemplar m rest exemplar
      end
  end.

(** [addExemplars] *)
Definition addExemplars (tsMap : TsMap) (exemplars : option (list Exemplar))
    (bucketBounds : option (list bucketBoundsData)) : TsMap :=
  match tsMap, bucketBounds, exemplars with
  | Some m, Some bucketBounds, Some exemplars =>
      let sorted := sort_byBucketBoundsData bucketBounds in
      Some (fold_left (fun m exemplar => addExemplar m sorted exemplar)
                      exemplars m)
  | _, _, _ => tsMap
  end.

(** [createAttributes].  The label map [l] is keyed by label name; the
    returned slice lists its values in map-iteration order.  The
    [log.Println] about an overwritten label is not part of the result. *)
Definition addAttribute (l : gmap string Label) (kv : string * Value)
  : gmap string Label :=
  let finalKey := NormalizeLabel (fst kv) in
  match l !! finalKey with
  | Some existingLabel =>
      <[finalKey := mkLabel (Label_Name existingLabel)
                      (Label_Value existingLabel +:+ ";" +:+ Value_AsString (snd kv))]> l
  | None => <[finalKey := mkLabel finalKey (Value_AsString (snd kv))]> l
  end.

Definition addJobLabel (resource : Resource) (l : gmap string Label)
  : gmap string Label :=
  match Map_Get (Resource_Attributes resource) AttributeServiceName with
  | Some serviceName =>
      let val := Value_AsString serviceName in
      let val :=
        match Map_Get (Resource_Attributes resource) AttributeServiceNamespace with
        | Some serviceNamespace => Value_AsString serviceNamespace +:+ "/" +:+ val
        | None => val
        end in
      <[JobLabel := mkLabel JobLabel val]> l
  | None => l
  end.

Definition addInstanceLabel (resource : Resource) (l : gmap string Label)
  : gmap string Label :=
  match Map_Get (Resource_Attributes resource) AttributeServiceInstanceID with
  | Some instance => <[InstanceLabel := mkLabel InstanceLabel (Value_AsString instance)]> l
  | None => l
  end.

Definition addExternalLabel (key value : string) (l : gmap string Label)
  : gmap string Label :=
  match l !! key with
  | Some _ => l
  | None => <[key := mkLabel key value]> l
  end.

(** [for i := 0; i < len(extras); i += 2]: an unpaired last string is
    ignored. *)
Fixpoint addExtras (l : gmap string Label) (extras : list string)
  : gmap string Label :=
  match extras with
  | extra :: value :: rest =>
      let name := if isInternalLabel extra then extra else NormalizeLabel extra in
      addExtras (<[name := mkLabel name value]> l) rest
  | _ => l
  end.

Definition createAttributes (resource : Resource) (attributes : KeyValues)
    (externalLabels : gmap string string) (extras : list string) : list Label :=
  let l := fold_left addAttribute (Map_Sort attributes) ∅ in
  let l := addJobLabel resource l in
  let l := addInstanceLabel resource l in
  let l := map_fold addExternalLabel l externalLabels in
  let l := addExtras l extras in
  map snd (map_to_list l).

(** [timestamp.FromTime(ts.AsTime())] for a [pcommon.Timestamp]:
    [t.Unix()*1000 + int64(t.Nanosecond())/int64(time.Millisecond)]. *)
Definition timestamp_FromTime (ts : Z) : Z :=
  let ns := int64_of_uint64 ts in
  (ns / 1000000000) * 1000 + (ns mod 1000000000) / 1000000.

(** [convertTimeStamp]: Go's [/] truncates. *)
Definition convertTimeStamp (timestamp : Z) : Z :=
  Z.quot (int64_of_uint64 timestamp) 1000000.

(** [TraceID.IsEmpty], [SpanID.IsEmpty] *)
Definition IsEmpty (id : list Z) : bool := forallb (Z.eqb 0) id.

(** One iteration of the loop of [getPromExemplars]. *)
Definition getPromExemplar (exemplar : pdataExemplar) : Exemplar :=
  let exemplarRunes := 0 in
  let labels := [] in
  let '(exemplarRunes, labels) :=
    if negb (IsEmpty (TraceID exemplar)) then
      let val := HexString (TraceID exemplar) in
      (exemplarRunes + (RuneCountInString traceIDKey + RuneCountInString val),
       labels ++ [mkLabel traceIDKey val])%list
    else (exemplarRunes, labels) in
  let '(exemplarRunes, labels) :=
    if negb (IsEmpty (SpanID exemplar)) then
      let val := HexString (SpanID exemplar) in
      (exemplarRunes + (RuneCountInString spanIDKey + RuneCountInString val),
       labels ++ [mkLabel spanIDKey val])%list
    else (exemplarRunes, labels) in
  let '(exemplarRunes, labelsFromAttributes) :=
    fold_left
      (fun '(runes, ls) '(key, value) =>
         let val := Value_AsString value in
         (runes + (RuneCountInString key + RuneCountInString val),
          ls ++ [mkLabel key val])%list)
      (FilteredAttributes exemplar) (exemplarRunes, []) in
  let labels :=
    if decide (exemplarRunes <= maxExemplarRunes)
    then (labels ++ labelsFromAttributes)%list else labels in
  mkExemplar labels (DoubleValue exemplar)
             (timestamp_FromTime (exemplar_Timestamp exemplar)).

(** [getPromExemplars]: nil when the point has no exemplar. *)
Definition getPromExemplars (pt : HistogramDataPoint) : option (list Exemplar) :=
  match pt_Exemplars pt with
  | [] => None
  | exemplars => Some (map getPromExemplar exemplars)
  end.

(** The bucket loop of [addSingleHistogramDataPoint],
    [for i := 0; i < pt.ExplicitBounds().Len() && i < pt.BucketCounts().Len(); i++],
    over the bounds and counts that are still ahead; the state is
    [tsMap], [cumulativeCount] and [bucketBounds]. *)
Fixpoint bucketLoop (pt : HistogramDataPoint) (resource : Resource)
    (settings : Settings) (baseName datatype : string) (time : Z)
    (bounds : list float64) (counts : list Z)
    (st : TsMap * Z * list bucketBoundsData)
  : TsMap * Z * list bucketBoundsData :=
  match bounds, counts with
  | bound :: bounds', count :: counts' =>
      let '(tsMap, cumulativeCount, bucketBounds) := st in
      let cumulativeCount := uint64_add cumulativeCount count in
      let bucket :=
        mkSample (if NoRecordedValue pt then StaleNaN
                  else float64_of_uint64 cumulativeCount) time in
      let boundStr := FormatFloat bound in
      let labels :=
        createAttributes resource (Attributes pt) (ExternalLabels settings)
          [nameStr; baseName +:+ bucketStr; leStr; boundStr] in
      let '(tsMap, sig) := addSample tsMap (Some bucket) (Some labels) datatype in
      bucketLoop pt resource settings baseName datatype time bounds' counts'
        (tsMap, cumulativeCount,
         (bucketBounds ++ [mkBucketBoundsData sig bound])%list)
  | _, _ => st
  end.

(** [addSingleHistogramDataPoint] *)
Definition addSingleHistogramDataPoint (pt : HistogramDataPoint)
    (resource : Resource) (metric : Metric) (settings : Settings)
    (tsMap : TsMap) : TsMap :=
  let time := convertTimeStamp (Timestamp pt) in
  let baseName := BuildPromCompliantName metric (Namespace settings) in
  let datatype := Metric_Type_String metric in
  let tsMap :=
    if HasSum pt then
      let sum := mkSample (if NoRecordedValue pt then StaleNaN else Sum pt) time in
      let sumlabels :=
        createAttributes resource (Attributes pt) (ExternalLabels settings)
          [nameStr; baseName +:+ sumStr] in
      fst (addSample tsMap (Some sum) (Some sumlabels) datatype)
    else tsMap in
  let count :=
    mkSample (if NoRecordedValue pt then StaleNaN
              else float64_of_uint64 (Count pt)) time in
  let countlabels :=
    createAttributes resource (Attributes pt) (ExternalLabels settings)
      [nameStr; baseName +:+ countStr] in
  let tsMap := fst (addSample tsMap (Some count) (Some countlabels) datatype) in
  let cumulativeCount := 0 in
  let promExemplars := getPromExemplars pt in
  let bucketBounds := [] in
  let '(tsMap, cumulativeCount, bucketBounds) :=
    bucketLoop pt resource settings baseName datatype time
      (ExplicitBounds pt) (BucketCounts pt)
      (tsMap, cumulativeCount, bucketBounds) in
  let infBucket :=
    if NoRecordedValue pt then mkSample StaleNaN time
    else
      let cumulativeCount :=
        match last (BucketCounts pt) with
        | Some c => uint64_add cumulativeCount c
        | None => cumulativeCount
        end in
      mkSample (float64_of_uint64 cumulativeCount) time in
  let infLabels :=
    createAttributes resource (Attributes pt) (ExternalLabels settings)
      [nameStr; baseName +:+ bucketStr; leStr; pInfStr] in
  let '(tsMap, sig) := addSample tsMap (Some infBucket) (Some infLabels) datatype in
  let bucketBounds := (bucketBounds ++ [mkBucketBoundsData sig Inf1])%list in
  addExemplars tsMap promExemplars (Some bucketBounds).

(** *** What the histogram translation is expected to emit

    The samples, each with the signature of the series that receives it,
    stated from the data point alone: the cumulative value of the [i]-th
    bucket is the sum of the bucket counts [0..i], as a [uint64]. *)

Definition sumZ (l : list Z) : Z := foldr Z.add 0 l.

Definition cumulativeBucketCount (counts : list Z) (i : nat) : Z :=
  sumZ (take (S i) counts) mod 2 ^ 64.

Definition totalBucketCount (counts : list Z) : Z := sumZ counts mod 2 ^ 64.

(** A point flagged [NoRecordedValue] reports the stale marker in place of
    every value. *)
Definition recorded (pt : HistogramDataPoint) (v : float64) : float64 :=
  if NoRecordedValue pt then StaleNaN else v.

Definition signatureOf (pt : HistogramDataPoint) (resource : Resource)
    (metric : Metric) (settings : Settings) (extras : list string) : string :=
  fst (timeSeriesSignature (Metric_Type_String metric)
         (createAttributes resource (Attributes pt) (ExternalLabels settings) extras)).

Definition bucketSignature (pt : HistogramDataPoint) (resource : Resource)
    (metric : Metric) (settings : Settings) (le : string) : string :=
  signatureOf pt resource metric settings
    [nameStr; BuildPromCompliantName metric (Namespace settings) +:+ bucketStr;
     leStr; le].

Definition expectedBucketSamples (pt : HistogramDataPoint) (resource : Resource)
    (metric : Metric) (settings : Settings) : list (string * Sample) :=
  imap (fun i bound =>
          (bucketSignature pt resource metric settings (FormatFloat bound),
           mkSample
             (recorded pt
                (float64_of_uint64 (cumulativeBucketCount (BucketCounts pt) i)))
             (convertTimeStamp (Timestamp pt))))
       (ExplicitBounds pt).

Definition expectedInfSample (pt : HistogramDataPoint) (resource : Resource)
    (metric : Metric) (settings : Settings) : string * Sample :=
  (bucketSignature pt resource metric settings pInfStr,
   mkSample (recorded pt (float64_of_uint64 (totalBucketCount (BucketCounts pt))))
            (convertTimeStamp (Timestamp pt))).

Definition expectedSumCountSamples (pt : HistogramDataPoint) (resource : Resource)
    (metric : Metric) (settings : Settings) : list (string * Sample) :=
  let baseName := BuildPromCompliantName metric (Namespace settings) in
  (if HasSum pt
   then [(signatureOf pt resource metric settings [nameStr; baseName +:+ sumStr],
          mkSample (recorded pt (Sum pt)) (convertTimeStamp (Timestamp pt)))]
   else [])
  ++ [(signatureOf pt resource metric settings [nameStr; baseName +:+ countStr],
       mkSample (recorded pt (float64_of_uint64 (Count pt)))
                (convertTimeStamp (Timestamp pt)))].

Definition expectedSamples (pt : HistogramDataPoint) (resource : Resource)
    (metric : Metric) (settings : Settings) : list (string * Sample) :=
  (expectedSumCountSamples pt resource metric settings
   ++ expectedBucketSamples pt resource metric settings
   ++ [expectedInfSample pt resource metric settings])%list.

(** The samples of the series with signature [s]: in a map, and among a
    list of emitted samples. *)
Definition samplesOf (tsMap : TsMap) (s : string) : list Sample :=
  match tsMap with
  | Some m =>
      match m !! s with
      | Some ts => default [] (Samples ts)
      | None => []
      end
  | None => []
  end.

Definition samplesAt (s : string) (emitted : list (string * Sample)) : list Sample :=
  map snd (filter (fun p => fst p = s) emitted).

End Translate.

End prometheusremotewrite.

(** ** The rest of [helper.go]

    Number and summary data points, the target-info metric, metric
    validation and the most recent timestamp of a metric. *)
Module helper.
Import pcommon prometheusremotewrite.

Definition infoType := "info".
Definition targetMetricName := "target_info".

(** [float64(i)] for an [int64] [i]. *)
Class Int64Conversion `{!Float64} : Type := float64_of_int64 : Z -> float64.

(** [func (a ByLabelName) Less(i, j int) bool]: Go compares strings byte by
    byte. *)
Definition ByLabelName_Less (a b : Label) : bool :=
  String.ltb (Label_Name a) (Label_Name b).

#[export] Instance Label_eq_dec : EqDecision Label.
Proof. solve_decision. Defined.

(** What [sort.Sort] promises: a permutation of the slice in which no
    element is less than an earlier one. *)
Definition sortsBy {A} (less : A -> A -> bool) (sort : list A -> list A) : Prop :=
  forall l, sort l ≡ₚ l /\ StronglySorted (fun a b => less b a = false) (sort l).

Section Points.
Context `{!Float64} `{!Externals} `{!Int64Conversion}.

(** What the translation reads from a [pmetric.NumberDataPoint]; the value
    is a oneof, read through [ValueType()], [IntValue()] and
    [DoubleValue()]. *)
Inductive NumberValue : Type :=
| NumberDataPointValueTypeEmpty
| NumberDataPointValueTypeInt (IntValue : Z)
| NumberDataPointValueTypeDouble (DoubleValue : float64).

Record NumberDataPoint : Type := mkNumberDataPoint {
  Number_Attributes : KeyValues;
  Number_Timestamp : Z;            (* uint64 nanoseconds *)
  Number_Value : NumberValue;
  Number_NoRecordedValue : bool;   (* Flags().NoRecordedValue() *)
}.

(** [pmetric.ValueAtQuantile] and what is read from a
    [pmetric.SummaryDataPoint]. *)
Record ValueAtQuantile : Type := mkValueAtQuantile {
  Quantile : float64;
  Quantile_Value : float64;
}.

Record SummaryDataPoint : Type := mkSummaryDataPoint {
  Summary_Attributes : KeyValues;
  Summary_Timestamp : Z;           (* uint64 nanoseconds *)
  Summary_Sum : float64;
  Summary_Count : Z;               (* uint64 *)
  Summary_QuantileValues : list ValueAtQuantile;
  Summary_NoRecordedValue : bool;
}.

(** [addSingleNumberDataPoint].  [sample.Value] starts as the zero value of
    [float64], which is [float64(0)]. *)
Definition addSingleNumberDataPoint (pt : NumberDataPoint) (resource : Resource)
    (metric : Metric) (settings : Settings) (tsMap : TsMap) : TsMap :=
  let name := BuildPromCompliantName metric (Namespace settings) in
  let labels :=
    createAttributes resource (Number_Attributes pt) (ExternalLabels settings)
      [nameStr; name] in
  let value :=
    match Number_Value pt with
    | NumberDataPointValueTypeInt i => float64_of_int64 i
    | NumberDataPointValueTypeDouble d => d
    | NumberDataPointValueTypeEmpty => float64_of_uint64 0
    end in
  let value := if Number_NoRecordedValue pt then StaleNaN else value in
  let sample := mkSample value (convertTimeStamp (Number_Timestamp pt)) in
  fst (addSample tsMap (Some sample) (Some labels) (Metric_Type_String metric)).

(** [addSingleSummaryDataPoint] *)
Definition addSingleSummaryDataPoint (pt : SummaryDataPoint) (resource : Resource)
    (metric : Metric) (settings : Settings) (tsMap : TsMap) : TsMap :=
  let time := convertTimeStamp (Summary_Timestamp pt) in
  let baseName := BuildPromCompliantName metric (Namespace settings) in
  let datatype := Metric_Type_String metric in
  let sum :=
    mkSample (if Summary_NoRecordedValue pt then StaleNaN else Summary_Sum pt) time in
  let sumlabels :=
    createAttributes resource (Summary_Attributes pt) (ExternalLabels settings)
      [nameStr; baseName +:+ sumStr] in
  let tsMap := fst (addSample tsMap (Some sum) (Some sumlabels) datatype) in
  let count :=
    mkSample (if Summary_NoRecordedValue pt then StaleNaN
              else float64_of_uint64 (Summary_Count pt)) time in
  let countlabels :=
    createAttributes resource (Summary_Attributes pt) (ExternalLabels settings)
      [nameStr; baseName +:+ countStr] in
  let tsMap := fst (addSample tsMap (Some count) (Some countlabels) datatype) in
  fold_left
    (fun tsMap qt =>
       let quantile :=
         mkSample (if Summary_NoRecordedValue pt then StaleNaN
                   else Quantile_Value qt) time in
       let percentileStr := FormatFloat (Quantile qt) in
       let qtlabels :=
         createAttributes resource (Summary_Attributes pt) (ExternalLabels settings)
           [nameStr; baseName; quantileStr; percentileStr] in
       fst (addSample tsMap (Some quantile) (Some qtlabels) datatype))
    (Summary_QuantileValues pt) tsMap.

(** [func (m Map) RemoveIf(f func(string, Value) bool)]: the entries [f]
    rejects, in their order. *)
Definition Map_RemoveIf (f : string -> Value -> bool) (m : KeyValues) : KeyValues :=
  List.filter (fun kv => negb (f (fst kv) (snd kv))) m.

(** The predicate [addResourceTargetInfo] hands to [RemoveIf]. *)
Definition usedForJobOrInstance (k : string) (_ : Value) : bool :=
  bool_decide (k = AttributeServiceName)
  || bool_decide (k = AttributeServiceNamespace)
  || bool_decide (k = AttributeServiceInstanceID).

(** [addResourceTargetInfo] *)
Definition addResourceTargetInfo (resource : Resource) (settings : Settings)
    (timestamp : Z) (tsMap : TsMap) : TsMap :=
  if DisableTargetInfo settings then tsMap
  else
    let attributes := Map_RemoveIf usedForJobOrInstance (Resource_Attributes resource) in
    if decide (length attributes = 0%nat) then tsMap
    else
      let name :=
        if decide (0 < String.length (Namespace settings))%nat
        then Namespace settings +:+ "_" +:+ targetMetricName
        else targetMetricName in
      let labels :=
        createAttributes resource attributes (ExternalLabels settings)
          [nameStr; name] in
      let sample := mkSample (float64_of_uint64 1) (convertTimeStamp timestamp) in
      fst (addSample tsMap (Some sample) (Some labels) infoType).

(** [pmetric.AggregationTemporality] *)
Inductive AggregationTemporality : Type :=
| AggregationTemporalityUnspecified
| AggregationTemporalityDelta
| AggregationTemporalityCumulative.

#[export] Instance AggregationTemporality_eq_dec : EqDecision AggregationTemporality.
Proof. solve_decision. Defined.

(** What [validateMetrics] and [mostRecentTimestampInMetric] read from a
    [pmetric.Metric]: its type and the data of that type.  The two types
    the switches do not name carry nothing that is read. *)
Inductive MetricData : Type :=
| MetricTypeEmpty
| MetricTypeGauge (DataPoints : list NumberDataPoint)
| MetricTypeSum (temporality : AggregationTemporality)
    (DataPoints : list NumberDataPoint)
| MetricTypeHistogram (temporality : AggregationTemporality)
    (DataPoints : list HistogramDataPoint)
| MetricTypeExponentialHistogram
| MetricTypeSummary (DataPoints : list SummaryDataPoint).

(** [validateMetrics] *)
Definition validateMetrics (metric : MetricData) : bool :=
  match metric with
  | MetricTypeGauge dps => negb (length dps =? 0)%nat
  | MetricTypeSum temporality dps =>
      negb (length dps =? 0)%nat
      && bool_decide (temporality = AggregationTemporalityCumulative)
  | MetricTypeHistogram temporality dps =>
      negb (length dps =? 0)%nat
      && bool_decide (temporality = AggregationTemporalityCumulative)
  | MetricTypeSummary dps => negb (length dps =? 0)%nat
  | _ => false
  end.

(** [maxTimestamp], on [pcommon.Timestamp] ([uint64]). *)
Definition maxTimestamp (a b : Z) : Z := if decide (a > b) then a else b.

(** [mostRecentTimestampInMetric]: [var ts pcommon.Timestamp] starts at
    zero. *)
Definition mostRecentTimestampInMetric (metric : MetricData) : Z :=
  match metric with
  | MetricTypeGauge dataPoints =>
      fold_left (fun ts dp => maxTimestamp ts (Number_Timestamp dp)) dataPoints 0
  | MetricTypeSum _ dataPoints =>
      fold_left (fun ts dp => maxTimestamp ts (Number_Timestamp dp)) dataPoints 0
  | MetricTypeHistogram _ dataPoints =>
      fold_left (fun ts dp => maxTimestamp ts (Timestamp dp)) dataPoints 0
  | MetricTypeSummary dataPoints =>
      fold_left (fun ts dp => maxTimestamp ts (Summary_Timestamp dp)) dataPoints 0
  | _ => 0
  end.

(** *** Vocabulary of the statements *)

(** The timestamps of the data points of a metric, in order. *)
Definition timestampsOf (metric : MetricData) : list Z :=
  match metric with
  | MetricTypeGauge dps => map Number_Timestamp dps
  | MetricTypeSum _ dps => map Number_Timestamp dps
  | MetricTypeHistogram _ dps => map Timestamp dps
  | MetricTypeSummary dps => map Summary_Timestamp dps
  | _ => []
  end.

(** The samples a summary point is translated to, each with the signature
    of its series: [_sum], [_count], then one per quantile. *)
Definition summarySignature (pt : SummaryDataPoint) (resource : Resource)
    (metric : Metric) (settings : Settings) (extras : list string) : string :=
  fst (timeSeriesSignature (Metric_Type_String metric)
         (createAttributes resource (Summary_Attributes pt)
            (ExternalLabels settings) extras)).

Definition summaryValue (pt : SummaryDataPoint) (v : float64) : float64 :=
  if Summary_NoRecordedValue pt then StaleNaN else v.

Definition expectedSummarySamples (pt : SummaryDataPoint) (resource : Resource)
    (metric : Metric) (settings : Settings) : list (string * Sample) :=
  let time := convertTimeStamp (Summary_Timestamp pt) in
  let baseName := BuildPromCompliantName metric (Namespace settings) in
  [(summarySignature pt resource metric settings [nameStr; baseName +:+ sumStr],
    mkSample (summaryValue pt (Summary_Sum pt)) time);
   (summarySignature pt resource metric settings [nameStr; baseName +:+ countStr],
    mkSample (summaryValue pt (float64_of_uint64 (Summary_Count pt))) time)]
  ++ map (fun qt =>
            (summarySignature pt resource metric settings
               [nameStr; baseName; quantileStr; FormatFloat (Quantile qt)],
             mkSample (summaryValue pt (Quantile_Value qt)) time))
       (Summary_QuantileValues pt).

(** The samples a histogram point of any shape is translated to: a bucket
    sample for each bound that has a count, and the [+Inf] sample, whose
    count adds the last bucket count to the running count of the loop. *)
Definition histogramBucketSamples (pt : HistogramDataPoint) (resource : Resource)
    (metric : Metric) (settings : Settings) : list (string * Sample) :=
  imap (fun i bound =>
          (bucketSignature pt resource metric settings (FormatFloat bound),
           mkSample
             (recorded pt
                (float64_of_uint64 (cumulativeBucketCount (BucketCounts pt) i)))
             (convertTimeStamp (Timestamp pt))))
       (take (length (BucketCounts pt)) (ExplicitBounds pt)).

Definition histogramInfCount (pt : HistogramDataPoint) : Z :=
  let inLoop := sumZ (take (length (ExplicitBounds pt)) (BucketCounts pt)) in
  match last (BucketCounts pt) with
  | Some c => (inLoop + c) mod 2 ^ 64
  | None => 0
  end.

Definition histogramSamples (pt : HistogramDataPoint) (resource : Resource)
    (metric : Metric) (settings : Settings) : list (string * Sample) :=
  (expectedSumCountSamples pt resource metric settings
   ++ histogramBucketSamples pt resource metric settings
   ++ [(bucketSignature pt resource metric settings pInfStr,
        mkSample (recorded pt (float64_of_uint64 (histogramInfCount pt)))
                 (convertTimeStamp (Timestamp pt)))])%list.

(** The runes [getPromExemplars] counts for a list of labels, and the
    labels it builds from the trace and span ids of an exemplar. *)
Definition labelRunes (ls : list Label) : Z :=
  sumZ (map (fun lb => RuneCountInString (Label_Name lb)
                       + RuneCountInString (Label_Value lb)) ls).

Definition idLabels (exemplar : pdataExemplar) : list Label :=
  ((if negb (IsEmpty (TraceID exemplar))
    then [mkLabel traceIDKey (HexString (TraceID exemplar))] else [])
   ++ (if negb (IsEmpty (SpanID exemplar))
       then [mkLabel spanIDKey (HexString (SpanID exemplar))] else []))%list.

Definition attributeLabels (exemplar : pdataExemplar) : list Label :=
  map (fun kv => mkLabel (fst kv) (Value_AsString (snd kv)))
      (FilteredAttributes exemplar).

(** The label map of [createAttributes] before the external labels and the
    extras are added. *)
Definition labelsOfAttributes (resource : Resource) (attributes : KeyValues)
  : gmap string Label :=
  addInstanceLabel resource
    (addJobLabel resource (fold_left addAttribute (Map_Sort attributes) ∅)).

(** The name under which [createAttributes] stores an extra. *)
Definition extraName (extra : string) : string :=
  if isInternalLabel extra then extra else NormalizeLabel extra.

(** Whether [addExemplar] may attach an exemplar of value [v] to the series
    of a bucket. *)
Definition eligible (m : gmap string TimeSeries) (v : float64)
    (bucketBound : bucketBoundsData) : bool :=
  match m !! sig bucketBound with
  | Some ts =>
      match Samples ts with
      | Some _ => float64_le v (bound bucketBound)
      | None => false
      end
  | None => false
  end.

(** What [addExemplars] keeps of every series: the set of series, the
    labels and samples of each, and the exemplars each had, as a prefix. *)
Definition keeps (m m' : gmap string TimeSeries) : Prop :=
  dom m' = dom m
  /\ forall s ts, m !! s = Some ts ->
       exists ts', m' !! s = Some ts'
                   /\ Labels ts' = Labels ts /\ Samples ts' = Samples ts
                   /\ Exemplars ts `prefix_of` Exemplars ts'.

(** The extras of [createAttributes] as name/value pairs, one step of its
    loop over them, and the invariant of its label map: a label is stored
    under its own name. *)
Definition extrasOf (pairs : list (string * string)) : list string :=
  flat_map (fun p => [fst p; snd p]) pairs.

Definition setExtra (l : gmap string Label) (p : string * string) : gmap string Label :=
  <[extraName (fst p) := mkLabel (extraName (fst p)) (snd p)]> l.

Definition keyed (l : gmap string Label) : Prop :=
  forall k lb, l !! k = Some lb -> Label_Name lb = k.

(** The rendered values of the attributes whose key is normalized to the
    label name [n], in their order. *)
Definition collidingValues (n : string) (attributes : KeyValues) : list string :=
  map (fun kv => Value_AsString (snd kv))
      (List.filter (fun kv => bool_decide (NormalizeLabel (fst kv) = n)) attributes).

End Points.

End helper.

(** ** Attribute matching ([filtermatcher], [src/unnamed/part_000]) *)
Module filtermatcher.
Import pcommon.

(** [filterset.MatchType]: the two types the switch names, and any other
    text. *)
Inductive MatchType : Type :=
| Regexp
| Strict
| OtherMatchType (name : string).

(** What the file calls in other packages: the configuration and filter
    sets of [filterset], [filterhelper.NewAttributeValueRaw],
    [pcommon.Value.Equal], [strconv.FormatFloat(f, 'f', -1, 64)] and
    [strconv.FormatInt(i, 10)], and the pieces of the text of the
    "only supports Str" error. *)
Class FilterExternals : Type := mkFilterExternals {
  Config : Type;
  Config_MatchType : Config -> MatchType;
  RawValue : Type;
  NewAttributeValueRaw : RawValue -> Value + error_value;
  FilterSet : Type;
  CreateFilterSet : list string -> Config -> FilterSet + error_value;
  Matches : FilterSet -> string -> bool;
  NewUnrecognizedMatchTypeError : MatchType -> error_value;
  Value_Equal : Value -> Value -> bool;
  FormatFloat : Z -> string;
  FormatInt : Z -> string;
  onlySupportsStr : string -> Value -> string;
}.

Section Matcher.
Context `{!FilterExternals}.

(** [filterconfig.Attribute]: a key and a value that may be nil. *)
Record Attribute : Type := mkAttribute {
  Attribute_Key : string;
  Attribute_Value : option RawValue;
}.

(** [type AttributeMatcher struct] *)
Record AttributeMatcher : Type := mkAttributeMatcher {
  Key : string;
  AttributeValue : option Value;
  StringFilter : option FilterSet;
}.

Definition errUnexpectedAttributeType : error_value :=
  ErrorString "unexpected attribute type".

(** The loop of [NewAttributesMatcher] over the attributes that are still
    ahead; an error ends it. *)
Fixpoint NewAttributesMatcher_loop (config : Config) (attributes : list Attribute)
    (rawAttributes : list AttributeMatcher) : list AttributeMatcher + error_value :=
  match attributes with
  | [] => inl rawAttributes
  | attribute :: attributes' =>
      if decide (Attribute_Key attribute = "") then
        inr (ErrorString "can't have empty key in the list of attributes")
      else
        let entry := mkAttributeMatcher (Attribute_Key attribute) None None in
        match Attribute_Value attribute with
        | Some raw =>
            match NewAttributeValueRaw raw with
            | inr err => inr err
            | inl val =>
                match Config_MatchType config with
                | Regexp =>
                    match val with
                    | ValueStr s =>
                        match CreateFilterSet [s] config with
                        | inr err => inr err
                        | inl filter =>
                            NewAttributesMatcher_loop config attributes'
                              (rawAttributes
                               ++ [mkAttributeMatcher (Attribute_Key attribute)
                                     None (Some filter)])%list
                        end
                    | _ =>
                        inr (ErrorString
                               (onlySupportsStr (Attribute_Key attribute) val))
                    end
                | Strict =>
                    NewAttributesMatcher_loop config attributes'
                      (rawAttributes
                       ++ [mkAttributeMatcher (Attribute_Key attribute)
                             (Some val) None])%list
                | other => inr (NewUnrecognizedMatchTypeError other)
                end
            end
        | None =>
            NewAttributesMatcher_loop config attributes'
              (rawAttributes ++ [entry])%list
        end
  end.

(** [NewAttributesMatcher] *)
Definition NewAttributesMatcher (config : Config) (attributes : list Attribute)
  : list AttributeMatcher + error_value :=
  NewAttributesMatcher_loop config attributes [].

(** [strconv.FormatBool] *)
Definition FormatBool (b : bool) : string := if b then "true" else "false".

(** [attributeStringValue] *)
Definition attributeStringValue (attr : Value) : string + error_value :=
  match attr with
  | ValueStr s => inl s
  | ValueBool b => inl (FormatBool b)
  | ValueDouble bits => inl (FormatFloat bits)
  | ValueInt i => inl (FormatInt i)
  | _ => inr errUnexpectedAttributeType
  end.

(** The body of the loop of [Match]: whether one property holds. *)
Definition propertyMatches (attrs : KeyValues) (property : AttributeMatcher) : bool :=
  match Map_Get attrs (Key property) with
  | None => false
  | Some attr =>
      match StringFilter property with
      | Some filter =>
          match attributeStringValue attr with
          | inl value => Matches filter value
          | inr _ => false
          end
      | None =>
          match AttributeValue property with
          | Some expected => Value_Equal attr expected
          | None => true
          end
      end
  end.

(** [func (ma AttributesMatcher) Match(attrs pcommon.Map) bool]: the loop
    returns [false] at the first property that does not hold. *)
Definition Match (ma : list AttributeMatcher) (attrs : KeyValues) : bool :=
  if decide (length ma = 0%nat) then true
  else if decide (length attrs = 0%nat) then false
  else forallb (propertyMatches attrs) ma.

End Matcher.

End filtermatcher.


(** ** Fixtures

    A concrete resource context and stand-ins for the package's map
    helpers, so that examples are closed terms. *)
Module fixtures.
Import Ottl pcommon ottlcommon.

Record resourceContext : Type := mkResourceContext {
  ctx_resource : Resource;
}.

#[export] Instance resourceContext_GetResource : ResourceContext resourceContext :=
  ctx_resource.

(** Stand-ins: a read returns the first entry with the key, a write
    stores string values only. *)
#[export] Instance helpers : Helpers := {|
  GetMapValue := fun σ m k =>
    match Map_Get (readMap σ m) k with
    | Some v => AnyValue v
    | None => AnyNil
    end;
  SetMapValue := fun m k val σ =>
    match val with
    | AnyString s =>
        writeMap m (filter (fun kv => fst kv ≠ k) (readMap σ m) ++ [(k, ValueStr s)])%list σ
    | _ => σ
    end;
  fmt_v := fun path => String.concat "." (map Name path);
|}.

(** A store with one resource at address [1] and a free-standing map at
    address [7]. *)
Definition store0 : Store :=
  mkStore {[ 1%positive := mkResourceData [("host", ValueStr "a")] 3 ]}
          {[ 7%positive := [("env", ValueStr "prod"); ("zone", ValueInt 2)] ]}.

Definition ctx0 : resourceContext := mkResourceContext 1%positive.

(** Stand-ins for the parser library's conversions: a float keeps its
    text, an integer is read in decimal with an optional sign, a string
    loses its quotes. *)
Fixpoint decimal (acc : Z) (s : string) : option Z :=
  match s with
  | EmptyString => Some acc
  | String c s' =>
      let n := Z.of_nat (nat_of_ascii c) in
      if ((48 <=? n) && (n <=? 57))%Z then decimal (10 * acc + (n - 48)) s'
      else None
  end.

Definition parseDecimal (s : string) : Z + error_value :=
  let digits :=
    match s with
    | String "-" s' => (-1, s')
    | String "+" s' => (1, s')
    | _ => (1, s)
    end in
  match snd digits with
  | EmptyString => inr (ErrorString "invalid syntax")
  | _ =>
      match decimal 0 (snd digits) with
      | Some n => inl (fst digits * n)
      | None => inr (ErrorString "invalid syntax")
      end
  end.

#[export] Instance conversions : Conversions := {|
  Ottl.float64 := string;
  ParseFloat := fun s => inl s;
  ParseInt := parseDecimal;
  StringValue := fun s => inl (substring 1 (String.length s - 2) s);
|}.

(** The rules of [buildLexer] with the [Bytes] rule moved behind [Float]
    and [Int]. *)
Definition bytesAfterNumbers : list (TokenKind * regex) :=
  match buildLexer with
  | bytes :: float :: int :: others => float :: int :: bytes :: others
  | rules => rules
  end.

(** Insertion sort, for the two [sort.Sort] calls. *)
Fixpoint insert_by {A} (ltb : A -> A -> bool) (x : A) (l : list A) : list A :=
  match l with
  | [] => [x]
  | y :: l' => if ltb y x then y :: insert_by ltb x l' else x :: l
  end.

Definition sort_by {A} (ltb : A -> A -> bool) (l : list A) : list A :=
  foldr (insert_by ltb) [] l.

(** [float64] as Rocq's binary64 floats.  The conversion from [uint64]
    rounds to nearest even; the stale marker is a NaN; the decimal
    rendering covers the bounds the examples use. *)
#[export] Instance binary64 : prometheusremotewrite.Float64 := {|
  prometheusremotewrite.float64 := float;
  prometheusremotewrite.float64_of_uint64 :=
    fun x => SF2Prim (binary_normalize 53 1024 x 0 false);
  prometheusremotewrite.StaleNaN := nan;
  prometheusremotewrite.Inf1 := infinity;
  prometheusremotewrite.float64_le := PrimFloat.leb;
  prometheusremotewrite.FormatFloat := fun f =>
    if PrimFloat.eqb f 1.5%float then "1.5"
    else if PrimFloat.eqb f 2%float then "2"
    else if PrimFloat.eqb f 4%float then "4"
    else if PrimFloat.eqb f 1%float then "1"
    else "?";
|}.

(** Stand-ins for the calls outside the file: names and labels are taken
    as they are, a metric is its name and is a histogram, only string
    values render, attributes are taken as already sorted. *)
#[export] Instance externals : prometheusremotewrite.Externals := {|
  prometheusremotewrite.NormalizeLabel := fun name => name;
  prometheusremotewrite.Metric := string;
  prometheusremotewrite.BuildPromCompliantName := fun metric namespace =>
    if decide (namespace = "") then metric else namespace +:+ "_" +:+ metric;
  prometheusremotewrite.Metric_Type_String := fun _ => "Histogram";
  prometheusremotewrite.Value_AsString := fun v =>
    match v with ValueStr s => s | _ => "" end;
  prometheusremotewrite.Map_Sort := fun kvs => kvs;
  prometheusremotewrite.RuneCountInString := fun s => Z.of_nat (String.length s);
  prometheusremotewrite.HexString := fun _ => "";
  prometheusremotewrite.sort_ByLabelName :=
    sort_by (fun a b => String.ltb (prometheusremotewrite.Label_Name a)
                                   (prometheusremotewrite.Label_Name b));
  prometheusremotewrite.sort_byBucketBoundsData :=
    sort_by (fun a b => PrimFloat.ltb (prometheusremotewrite.bound a)
                                      (prometheusremotewrite.bound b));
|}.

(** The histogram of the cross-check: bounds [1.5, 2, 4], per-bucket
    counts [4, 2, 3, 7], taken at 5 ms. *)
Definition histogram (noRecordedValue : bool)
  : prometheusremotewrite.HistogramDataPoint :=
  prometheusremotewrite.mkHistogramDataPoint
    [] 5000000 true 30.5%float 16 noRecordedValue
    [1.5%float; 2%float; 4%float] [4; 2; 3; 7] [].

(** Two counts whose sum leaves [uint64]. *)
Definition overflowing : prometheusremotewrite.HistogramDataPoint :=
  prometheusremotewrite.mkHistogramDataPoint
    [] 5000000 false 0%float 1 false
    [1%float] [2 ^ 63; 2 ^ 63] [].

Definition resource0 : prometheusremotewrite.Resource :=
  prometheusremotewrite.mkResource [].

Definition settings0 : prometheusremotewrite.Settings :=
  prometheusremotewrite.mkSettings "" ∅ false.

End fixtures.

(** A resource with a service name and namespace, and a gauge with one
    point. *)
Module fixtures_points.
Import pcommon prometheusremotewrite helper fixtures.

Definition resource1 : Resource :=
  mkResource [("service.name", ValueStr "checkout");
              ("service.namespace", ValueStr "shop")].

Definition gauge : MetricData :=
  MetricTypeGauge [mkNumberDataPoint [] 5000000 (NumberDataPointValueTypeInt 7) false].

End fixtures_points.

(** Case analysis on every [decide] in the goal or in a hypothesis. *)
Ltac cases_on_decide :=
  repeat match goal with
         | |- context [decide ?P] => destruct (decide P)
         | H : context [decide ?P] |- _ => destruct (decide P)
         end.

Module OttlFacts.
Import Ottl.

Lemma compareOpTable_lookup (s : string) :
  compareOpTable !! s =
    if decide (s = "==") then Some EQ
    else if decide (s = "!=") then Some NE
    else if decide (s = "<") then Some LT
    else if decide (s = "<=") then Some LTE
    else if decide (s = ">") then Some GT
    else if decide (s = ">=") then Some GTE
    else None.
Proof.
  unfold compareOpTable.
  repeat (case_decide; [subst; by simplify_map_eq |]).
  by simplify_map_eq.
Qed.

(** The operator table as the list of its entries. *)
Lemma compareOpTable_entries (s : string) (op : compareOp) :
  compareOpTable !! s = Some op
  <-> In (s, op) [("==", EQ); ("!=", NE); ("<", LT); ("<=", LTE);
                  (">", GT); (">=", GTE)].
Proof.
  rewrite compareOpTable_lookup. split.
  - repeat case_decide; intros [= <-]; subst; simpl; tauto.
  - simpl. intros Hin.
    repeat (destruct Hin as [Hin | Hin]; [injection Hin as <- <-; reflexivity |]).
    contradiction.
Qed.

(** C4: [Capture] maps the operator text through a fixed one-to-one table:
    exactly ["=="], ["!="], ["<"], ["<="], [">"], [">="] are mapped, to
    [EQ], [NE], [LT], [LTE], [GT], [GTE]; for any other text it returns an
    error and leaves the receiver as it was. *)
Theorem compareOp_Capture_table (c : compareOp) (v0 : string) (rest : list string) :
  compareOp_Capture c (v0 :: rest) =
    Return
      (if decide (v0 = "==") then (EQ, None)
       else if decide (v0 = "!=") then (NE, None)
       else if decide (v0 = "<") then (LT, None)
       else if decide (v0 = "<=") then (LTE, None)
       else if decide (v0 = ">") then (GT, None)
       else if decide (v0 = ">=") then (GTE, None)
       else (c, Some (ErrorString ("'" +:+ v0 +:+ "' is not a valid operator"))))
  /\ (forall s1 s2 op,
        compareOpTable !! s1 = Some op -> compareOpTable !! s2 = Some op -> s1 = s2)
  /\ (forall s op,
        compareOpTable !! s = Some op
        <-> In (s, op) [("==", EQ); ("!=", NE); ("<", LT); ("<=", LTE);
                        (">", GT); (">=", GTE)])
  /\ NoDup [EQ; NE; LT; LTE; GT; GTE].
Proof.
  split; [| split; [| split]].
  - unfold compareOp_Capture, index0. rewrite compareOpTable_lookup.
    by cases_on_decide.
  - intros s1 s2 op H1 H2.
    rewrite compareOpTable_lookup in H1, H2.
    unfold EQ, NE, LT, LTE, GT, GTE in *.
    cases_on_decide; congruence.
  - apply compareOpTable_entries.
  - apply (bool_decide_unpack (NoDup [EQ; NE; LT; LTE; GT; GTE])). by vm_compute.
Qed.

Example compareOp_Capture_examples :
  compareOp_Capture EQ [">="] = Return (GTE, None)
  /\ compareOp_Capture LT ["=>"]
     = Return (LT, Some (ErrorString "'=>' is not a valid operator"))
  /\ compareOp_Capture LT ["= ="]
     = Return (LT, Some (ErrorString "'= =' is not a valid operator")).
Proof. repeat split. Qed.

End OttlFacts.

(** ** Resource context: path resolution and accessors *)
Module ResourceFacts.
Import Ottl pcommon ottlcommon.

Lemma readMap_writeMap_eq (σ : Store) (m : Map) (kvs : KeyValues) :
  readMap (writeMap m kvs σ) m = kvs.
Proof.
  destruct m as [r | l]; unfold readMap, writeMap, resourceAt; simpl.
  - by rewrite lookup_insert_eq.
  - by rewrite lookup_insert_eq.
Qed.

Lemma readMap_writeMap_ne (σ : Store) (m m' : Map) (kvs : KeyValues) :
  m ≠ m' -> readMap (writeMap m kvs σ) m' = readMap σ m'.
Proof.
  intros Hne.
  destruct m as [r | l], m' as [r' | l']; unfold readMap, writeMap, resourceAt; simpl;
    try reflexivity.
  - rewrite lookup_insert_ne; [done | congruence].
  - rewrite lookup_insert_ne; [done | congruence].
Qed.

Lemma dropped_writeMap (σ : Store) (m : Map) (kvs : KeyValues) (r : Resource) :
  Resource_DroppedAttributesCount (writeMap m kvs σ) r
  = Resource_DroppedAttributesCount σ r.
Proof.
  destruct m as [r0 | l]; unfold Resource_DroppedAttributesCount, writeMap, resourceAt;
    simpl; [| done].
  destruct (decide (r0 = r)) as [-> | Hne].
  - by rewrite lookup_insert_eq.
  - by rewrite lookup_insert_ne.
Qed.

Section Resolution.
Context {K : Type} `{!ResourceContext K} `{!Helpers}.

Lemma resolve_cons (f : Field) (rest : list Field) :
  ResourcePathGetSetter (K := K) (f :: rest) =
    if decide (Name f = "attributes") then
      match MapKey f with
      | None => (Some accessResourceAttributes, None)
      | Some mapKey => (Some (accessResourceAttributesKey mapKey), None)
      end
    else if decide (Name f = "dropped_attributes_count") then
      (Some accessResourceDroppedAttributesCount, None)
    else
      (None, Some (ErrorString
                     ("invalid resource path expression " +:+ fmt_v (f :: rest)))).
Proof. reflexivity. Qed.

(** C3: resolving a non-empty path against the resource context succeeds
    exactly when the first field is named [attributes] or
    [dropped_attributes_count]: [attributes] without a map key yields the
    accessor of the whole attributes map, [attributes["k"]] the accessor of
    the entry [k], [dropped_attributes_count] the scalar accessor; any other
    first name yields no GetSetter and an error whose text contains
    "invalid resource path expression". *)
Theorem resource_path_resolution (f : Field) (rest : list Field) :
  let r := ResourcePathGetSetter (K := K) (f :: rest) in
  ((exists gs, r = (Some gs, None))
     <-> (Name f = "attributes" \/ Name f = "dropped_attributes_count"))
  /\ (Name f = "attributes" -> MapKey f = None ->
      r = (Some accessResourceAttributes, None))
  /\ (forall k, Name f = "attributes" -> MapKey f = Some k ->
      r = (Some (accessResourceAttributesKey k), None))
  /\ (Name f = "dropped_attributes_count" ->
      r = (Some accessResourceDroppedAttributesCount, None))
  /\ (Name f <> "attributes" -> Name f <> "dropped_attributes_count" ->
      exists msg, r = (None, Some (ErrorString msg))
                  /\ contains "invalid resource path expression" msg)
  /\ (forall (ctx : K) σ,
        Getter accessResourceAttributes ctx σ
          = AnyMap (Resource_Attributes (GetResource ctx))
        /\ (forall k, Getter (accessResourceAttributesKey k) ctx σ
                      = GetMapValue σ (Resource_Attributes (GetResource ctx)) k)
        /\ Getter accessResourceDroppedAttributesCount ctx σ
          = AnyInt64 (Resource_DroppedAttributesCount σ (GetResource ctx))).
Proof.
  cbv zeta. rewrite resolve_cons.
  assert (Hget : forall (ctx : K) σ,
        Getter accessResourceAttributes ctx σ
          = AnyMap (Resource_Attributes (GetResource ctx))
        /\ (forall k, Getter (accessResourceAttributesKey k) ctx σ
                      = GetMapValue σ (Resource_Attributes (GetResource ctx)) k)
        /\ Getter accessResourceDroppedAttributesCount ctx σ
          = AnyInt64 (Resource_DroppedAttributesCount σ (GetResource ctx)))
    by (intros; repeat split).
  destruct (decide (Name f = "attributes")) as [Ha | Ha].
  - split; [| split; [| split; [| split; [| split]]]]; try exact Hget.
    + split; [tauto |]. intros _. destruct (MapKey f); eauto.
    + intros _ Hk. by rewrite Hk.
    + intros k _ Hk. by rewrite Hk.
    + intros Hd. rewrite Hd in Ha. discriminate.
    + tauto.
  - destruct (decide (Name f = "dropped_attributes_count")) as [Hd | Hd].
    + split; [| split; [| split; [| split; [| split]]]]; try exact Hget;
        try tauto.
      split; [tauto | eauto].
    + split; [| split; [| split; [| split; [| split]]]]; try exact Hget;
        try tauto.
      * split; [| tauto]. intros [gs Hgs]. discriminate.
      * intros _ _. eexists. split; [reflexivity |].
        by exists "", (" " +:+ fmt_v (f :: rest)).
Qed.

(** C2, as the code has it: resolution reads only the first field.  It
    fails, with no GetSetter and an "invalid resource path expression"
    error, exactly when that field is named neither [attributes] nor
    [dropped_attributes_count]; a map key on [dropped_attributes_count]
    and the fields after the first are ignored. *)
Theorem resolution_reads_first_field_only (f : Field) (rest : list Field) :
  fst (ResourcePathGetSetter (K := K) (f :: rest))
    = fst (ResourcePathGetSetter (K := K) [f])
  /\ (forall mapKey,
        ResourcePathGetSetter (K := K)
          (mkField "dropped_attributes_count" mapKey :: rest)
        = (Some accessResourceDroppedAttributesCount, None))
  /\ (fst (ResourcePathGetSetter (K := K) (f :: rest)) = None
        <-> Name f <> "attributes" /\ Name f <> "dropped_attributes_count")
  /\ (fst (ResourcePathGetSetter (K := K) (f :: rest)) = None ->
      exists msg,
        snd (ResourcePathGetSetter (K := K) (f :: rest)) = Some (ErrorString msg)
        /\ contains "invalid resource path expression" msg).
Proof.
  rewrite !resolve_cons.
  split; [| split; [| split]].
  - destruct (decide (Name f = "attributes")); [by destruct (MapKey f) |].
    by destruct (decide (Name f = "dropped_attributes_count")).
  - intros mapKey. reflexivity.
  - destruct (decide (Name f = "attributes")) as [Ha | Ha].
    + destruct (MapKey f); simpl; split; (discriminate || tauto).
    + destruct (decide (Name f = "dropped_attributes_count")); simpl;
        split; (discriminate || tauto).
  - destruct (decide (Name f = "attributes")) as [Ha | Ha].
    + destruct (MapKey f); discriminate.
    + destruct (decide (Name f = "dropped_attributes_count")); [discriminate |].
      intros _. eexists. split; [reflexivity |].
      by exists "", (" " +:+ fmt_v (f :: rest)).
Qed.

(** C7: [Set] on the whole-map [attributes] path with a map value copies
    the entries into the record's own attributes map.  The handle [Get]
    returns is the same before and after, it now reads the given map's
    entries, no other map and no dropped-attributes count changes, and the
    record does not alias the given map: a later write to that map leaves
    the record's attributes as copied. *)
Theorem attributes_Set_copies_into_record (ctx : K) (attrs : Map) (σ : Store) :
  let dest := Resource_Attributes (GetResource ctx) in
  let σ' := Setter accessResourceAttributes ctx (AnyMap attrs) σ in
  σ' = Map_CopyTo attrs dest σ
  /\ Getter accessResourceAttributes ctx σ' = AnyMap dest
  /\ Getter accessResourceAttributes ctx σ = AnyMap dest
  /\ readMap σ' dest = readMap σ attrs
  /\ readMap σ' attrs = readMap σ attrs
  /\ (forall m, m <> dest -> readMap σ' m = readMap σ m)
  /\ (forall r, Resource_DroppedAttributesCount σ' r
                = Resource_DroppedAttributesCount σ r)
  /\ (forall kvs, attrs <> dest ->
        readMap (writeMap attrs kvs σ') dest = readMap σ attrs).
Proof.
  cbv zeta.
  change (Setter accessResourceAttributes ctx (AnyMap attrs) σ)
    with (writeMap (Resource_Attributes (GetResource ctx)) (readMap σ attrs) σ).
  unfold Map_CopyTo.
  split; [reflexivity |]. split; [reflexivity |]. split; [reflexivity |].
  repeat split.
  - apply readMap_writeMap_eq.
  - destruct (decide (Resource_Attributes (GetResource ctx) = attrs)) as [<- | Hne].
    + apply readMap_writeMap_eq.
    + by apply readMap_writeMap_ne.
  - intros m Hm. apply readMap_writeMap_ne. congruence.
  - intros r. apply dropped_writeMap.
  - intros kvs Hne. rewrite readMap_writeMap_ne by done.
    apply readMap_writeMap_eq.
Qed.

(** C10: for a Setter that resource path resolution returns for the
    whole resource, the attributes map or the dropped-attributes count,
    [Set] with a value of another dynamic type leaves the store as it
    was; a Setter returns nothing, so no error is reported. *)
Theorem Set_wrong_dynamic_type_is_noop
    (path : list Field) (gs : StandardGetSetter K) (ctx : K) (val : any)
    (σ : Store) :
  ResourcePathGetSetter path = (Some gs, None) ->
  dynamicTypeMismatch path val = true ->
  Setter gs ctx val σ = σ.
Proof.
  unfold ResourcePathGetSetter, dynamicTypeMismatch.
  destruct path as [| f rest].
  - intros [= <-] Hm. destruct val; simpl in *; congruence.
  - repeat case_decide.
    + destruct (MapKey f); intros [= <-] Hm; [discriminate |].
      destruct val; simpl in *; congruence.
    + intros [= <-] Hm. destruct val; simpl in *; congruence.
    + discriminate.
Qed.

End Resolution.

Import fixtures.

(** C2, counterexample: a map key on [dropped_attributes_count] and a
    trailing field after [attributes] both resolve, without error. *)
Lemma resolution_accepts_partial_match :
  ResourcePathGetSetter (K := fixtures.resourceContext)
    [mkField "dropped_attributes_count" (Some "k")]
  = (Some accessResourceDroppedAttributesCount, None)
  /\ ResourcePathGetSetter (K := fixtures.resourceContext)
       [mkField "attributes" None; mkField "foo" None]
     = (Some accessResourceAttributes, None).
Proof. split; reflexivity. Qed.

Lemma Set_wrong_dynamic_type_is_noop_witness :
  Setter (K := fixtures.resourceContext) accessResourceDroppedAttributesCount
    fixtures.ctx0 (AnyString "3") fixtures.store0 = fixtures.store0.
Proof.
  apply (Set_wrong_dynamic_type_is_noop
           [mkField "dropped_attributes_count" None]); reflexivity.
Defined.

(** The same Setter with an [int64] does write (truncated to [uint32]), and
    a Go [int] is not an [int64]. *)
Example dropped_Set_int64 :
  Resource_DroppedAttributesCount
    (Setter (K := fixtures.resourceContext) accessResourceDroppedAttributesCount
       fixtures.ctx0 (AnyInt64 (2 ^ 32 + 5)) fixtures.store0) 1%positive = 5
  /\ Setter (K := fixtures.resourceContext) accessResourceDroppedAttributesCount
       fixtures.ctx0 (AnyInt 5) fixtures.store0 = fixtures.store0.
Proof. split; reflexivity. Qed.

(** Copying the free-standing map at [7] into the resource at [1]. *)
Example attributes_Set_example :
  readMap
    (Setter (K := fixtures.resourceContext) accessResourceAttributes
       fixtures.ctx0 (AnyMap (MapAt 7%positive)) fixtures.store0)
    (ResourceAttributes 1%positive)
  = [("env", ValueStr "prod"); ("zone", ValueInt 2)].
Proof. reflexivity. Qed.

End ResourceFacts.

(** ** Histogram translation *)
Module RemoteWriteFacts.
Import pcommon prometheusremotewrite.

Section Histogram.
Context `{!Float64} `{!Externals}.

Lemma samplesAt_app (s : string) (l1 l2 : list (string * Sample)) :
  samplesAt s (l1 ++ l2) = (samplesAt s l1 ++ samplesAt s l2)%list.
Proof. unfold samplesAt. by rewrite filter_app, map_app. Qed.

Lemma samplesAt_cons (s sig0 : string) (smp : Sample) (l : list (string * Sample)) :
  samplesAt s ((sig0, smp) :: l)
  = ((if decide (sig0 = s) then [smp] else []) ++ samplesAt s l)%list.
Proof.
  unfold samplesAt. rewrite filter_cons. simpl.
  by destruct (decide (sig0 = s)).
Qed.

(** [addSample] on a non-nil map appends the sample to the series of the
    labels' signature, creating the series when it is missing. *)
Lemma addSample_samples (m : gmap string TimeSeries) (smp : Sample)
    (labels : list Label) (datatype : string) :
  exists m',
    addSample (Some m) (Some smp) (Some labels) datatype
      = (Some m', fst (timeSeriesSignature datatype labels))
    /\ forall s,
        samplesOf (Some m') s
        = (samplesOf (Some m) s
           ++ if decide (fst (timeSeriesSignature datatype labels) = s)
              then [smp] else [])%list.
Proof.
  unfold addSample.
  destruct (timeSeriesSignature datatype labels) as [sig0 labels'] eqn:Hsig. simpl.
  destruct (m !! sig0) as [ts |] eqn:Hts.
  - eexists. split; [reflexivity |]. intros s. unfold samplesOf.
    destruct (decide (sig0 = s)) as [<- | Hne].
    + rewrite lookup_insert_eq, Hts. reflexivity.
    + rewrite lookup_insert_ne by done. by rewrite app_nil_r.
  - eexists. split; [reflexivity |]. intros s. unfold samplesOf.
    destruct (decide (sig0 = s)) as [<- | Hne].
    + rewrite lookup_insert_eq, Hts. reflexivity.
    + rewrite lookup_insert_ne by done. by rewrite app_nil_r.
Qed.

(** Exemplars are attached without touching any series' samples. *)
Lemma addExemplar_samples (bucketBounds : list bucketBoundsData)
    (m : gmap string TimeSeries) (exemplar : Exemplar) (s : string) :
  samplesOf (Some (addExemplar m bucketBounds exemplar)) s = samplesOf (Some m) s.
Proof.
  induction bucketBounds as [| b rest IH]; simpl; [reflexivity |].
  destruct (m !! sig b) as [ts |] eqn:Hts; [| exact IH].
  destruct (Samples ts) as [smps |] eqn:Hsmps; [| exact IH].
  destruct (float64_le (Exemplar_Value exemplar) (bound b)); [| exact IH].
  unfold samplesOf. destruct (decide (sig b = s)) as [<- | Hne].
  - rewrite lookup_insert_eq, Hts. simpl. by rewrite Hsmps.
  - by rewrite lookup_insert_ne.
Qed.

Lemma addExemplars_samples (tsMap : TsMap) (exemplars : option (list Exemplar))
    (bucketBounds : option (list bucketBoundsData)) (s : string) :
  samplesOf (addExemplars tsMap exemplars bucketBounds) s = samplesOf tsMap s.
Proof.
  unfold addExemplars.
  destruct tsMap as [m |], bucketBounds as [bbs |], exemplars as [exs |];
    try reflexivity.
  cbv zeta. generalize (sort_byBucketBoundsData bbs) as sorted. intros sorted.
  revert m. induction exs as [| e exs IH]; intros m; [reflexivity |].
  cbn [fold_left]. rewrite IH. apply addExemplar_samples.
Qed.

Lemma sumZ_cons (x : Z) (l : list Z) : sumZ (x :: l) = x + sumZ l.
Proof. reflexivity. Qed.

Lemma sumZ_app (l1 l2 : list Z) : sumZ (l1 ++ l2) = sumZ l1 + sumZ l2.
Proof. unfold sumZ. induction l1 as [| x l1 IH]; simpl; lia. Qed.

(** The bucket loop, started with running count [c], emits for the [i]-th
    remaining bound the sample of value [c] plus the counts [0..i]. *)
Lemma bucketLoop_samples (pt : HistogramDataPoint) (resource : Resource)
    (metric : Metric) (settings : Settings) (time : Z)
    (bounds : list float64) :
  forall (counts : list Z) (m : gmap string TimeSeries) (c : Z)
         (bbs : list bucketBoundsData),
    (length bounds <= length counts)%nat ->
    0 <= c < 2 ^ 64 ->
    exists m' bbs',
      bucketLoop pt resource settings
        (BuildPromCompliantName metric (Namespace settings))
        (Metric_Type_String metric) time bounds counts (Some m, c, bbs)
      = (Some m', (c + sumZ (take (length bounds) counts)) mod 2 ^ 64, bbs')
      /\ forall s,
          samplesOf (Some m') s
          = (samplesOf (Some m) s
             ++ samplesAt s
                  (imap (fun i bound =>
                           (bucketSignature pt resource metric settings
                              (FormatFloat bound),
                            mkSample
                              (recorded pt
                                 (float64_of_uint64
                                    ((c + sumZ (take (S i) counts)) mod 2 ^ 64)))
                              time))
                        bounds))%list.
Proof.
  induction bounds as [| b bounds IH]; intros counts m c bbs Hlen Hc.
  - exists m, bbs. split.
    + simpl. rewrite Z.add_0_r, Z.mod_small by lia. reflexivity.
    + intros s. simpl. unfold samplesAt. simpl. by rewrite app_nil_r.
  - destruct counts as [| x counts]; [simpl in Hlen; lia |].
    simpl in Hlen.
    cbn [bucketLoop].
    fold (recorded pt (float64_of_uint64 (uint64_add c x))).
    destruct (addSample_samples m
                (mkSample (recorded pt (float64_of_uint64 (uint64_add c x))) time)
                (createAttributes resource (Attributes pt) (ExternalLabels settings)
                   [nameStr;
                    BuildPromCompliantName metric (Namespace settings) +:+ bucketStr;
                    leStr; FormatFloat b])
                (Metric_Type_String metric)) as (m1 & Hadd & Hm1).
    rewrite Hadd.
    destruct (IH counts m1 (uint64_add c x)
                (bbs ++ [mkBucketBoundsData
                           (fst (timeSeriesSignature (Metric_Type_String metric)
                                   (createAttributes resource (Attributes pt)
                                      (ExternalLabels settings)
                                      [nameStr;
                                       BuildPromCompliantName metric (Namespace settings)
                                         +:+ bucketStr;
                                       leStr; FormatFloat b]))) b])%list)
      as (m' & bbs' & Hloop & Hm').
    { lia. }
    { unfold uint64_add. apply Z.mod_pos_bound. lia. }
    exists m', bbs'. split.
    + rewrite Hloop. f_equal. f_equal.
      change (take (length (b :: bounds)) (x :: counts))
        with (x :: take (length bounds) counts).
      rewrite sumZ_cons. unfold uint64_add.
      rewrite Zplus_mod_idemp_l. by rewrite Z.add_assoc.
    + intros s. rewrite Hm', Hm1. rewrite imap_cons, samplesAt_cons.
      rewrite <- app_assoc. f_equal. f_equal.
      * replace ((c + sumZ (take 1 (x :: counts))) mod 2 ^ 64)
          with (uint64_add c x); [reflexivity |].
        unfold uint64_add. cbn. by rewrite Z.add_0_r.
      * f_equal. apply imap_ext. intros i bd _. unfold compose. cbn beta.
        f_equal. f_equal. f_equal. f_equal.
        change (take (S (S i)) (x :: counts)) with (x :: take (S i) counts).
        rewrite sumZ_cons. unfold uint64_add.
        rewrite Zplus_mod_idemp_l. by rewrite Z.add_assoc.
Qed.

Lemma last_snoc_length (counts : list Z) (n : nat) :
  length counts = S n ->
  exists x, last counts = Some x /\ counts = (take n counts ++ [x])%list.
Proof.
  intros Hlen.
  destruct (decide (counts = [])) as [-> | Hne]; [discriminate |].
  destruct (exists_last Hne) as (front & x & ->).
  rewrite length_app in Hlen. simpl in Hlen.
  exists x. split; [apply last_snoc |].
  rewrite take_app_length' by lia. reflexivity.
Qed.

(** The samples a histogram point with one more bucket count than bounds
    adds to every series. *)
Lemma addSingleHistogramDataPoint_samples (pt : HistogramDataPoint)
    (resource : Resource) (metric : Metric) (settings : Settings)
    (m : gmap string TimeSeries) (s : string) :
  length (BucketCounts pt) = S (length (ExplicitBounds pt)) ->
  samplesOf (addSingleHistogramDataPoint pt resource metric settings (Some m)) s
  = (samplesOf (Some m) s
     ++ samplesAt s (expectedSamples pt resource metric settings))%list.
Proof.
  intros Hlen.
  unfold addSingleHistogramDataPoint, expectedSamples, expectedSumCountSamples.
  cbv zeta.
  set (time := convertTimeStamp (Timestamp pt)).
  set (baseName := BuildPromCompliantName metric (Namespace settings)).
  set (datatype := Metric_Type_String metric).
  fold (recorded pt (Sum pt)).
  fold (recorded pt (float64_of_uint64 (Count pt))).
  (* _sum and _count *)
  assert (exists mb,
    fst (addSample
           (if HasSum pt
            then fst (addSample (Some m) (Some (mkSample (recorded pt (Sum pt)) time))
                        (Some (createAttributes resource (Attributes pt)
                                 (ExternalLabels settings)
                                 [nameStr; baseName +:+ sumStr])) datatype)
            else Some m)
           (Some (mkSample (recorded pt (float64_of_uint64 (Count pt))) time))
           (Some (createAttributes resource (Attributes pt)
                    (ExternalLabels settings) [nameStr; baseName +:+ countStr]))
           datatype) = Some mb
    /\ forall s,
        samplesOf (Some mb) s
        = (samplesOf (Some m) s
           ++ samplesAt s
                ((if HasSum pt
                  then [(signatureOf pt resource metric settings
                           [nameStr; baseName +:+ sumStr],
                         mkSample (recorded pt (Sum pt)) time)]
                  else [])
                 ++ [(signatureOf pt resource metric settings
                        [nameStr; baseName +:+ countStr],
                      mkSample (recorded pt (float64_of_uint64 (Count pt))) time)]))%list)
    as (mb & Hb & Hmb).
  { destruct (HasSum pt).
    - destruct (addSample_samples m (mkSample (recorded pt (Sum pt)) time)
                  (createAttributes resource (Attributes pt)
                     (ExternalLabels settings) [nameStr; baseName +:+ sumStr])
                  datatype) as (ma & Ha & Hma).
      rewrite Ha. cbn [fst].
      destruct (addSample_samples ma
                  (mkSample (recorded pt (float64_of_uint64 (Count pt))) time)
                  (createAttributes resource (Attributes pt)
                     (ExternalLabels settings) [nameStr; baseName +:+ countStr])
                  datatype) as (mb & Hb & Hmb).
      rewrite Hb. exists mb. split; [reflexivity |].
      intros s'. rewrite Hmb, Hma.
      cbn [app]. rewrite !samplesAt_cons. unfold samplesAt at 1. cbn.
      rewrite app_nil_r, <- app_assoc. reflexivity.
    - destruct (addSample_samples m
                  (mkSample (recorded pt (float64_of_uint64 (Count pt))) time)
                  (createAttributes resource (Attributes pt)
                     (ExternalLabels settings) [nameStr; baseName +:+ countStr])
                  datatype) as (mb & Hb & Hmb).
      rewrite Hb. exists mb. split; [reflexivity |].
      intros s'. rewrite Hmb.
      cbn [app]. rewrite !samplesAt_cons. unfold samplesAt at 1. cbn.
      rewrite app_nil_r. reflexivity. }
  rewrite Hb.
  (* the buckets *)
  destruct (bucketLoop_samples pt resource metric settings time
              (ExplicitBounds pt) (BucketCounts pt) mb 0 [])
    as (mc & bbs & Hloop & Hmc); [lia | lia |].
  fold baseName datatype in Hloop.
  rewrite Hloop.
  (* +Inf *)
  destruct (last_snoc_length (BucketCounts pt) (length (ExplicitBounds pt)) Hlen)
    as (x & Hlast & Hcounts).
  rewrite Hlast.
  assert (Hinf :
    (if NoRecordedValue pt then mkSample StaleNaN time
     else mkSample
            (float64_of_uint64
               (uint64_add
                  ((0 + sumZ (take (length (ExplicitBounds pt)) (BucketCounts pt)))
                   mod 2 ^ 64) x)) time)
    = mkSample (recorded pt (float64_of_uint64 (totalBucketCount (BucketCounts pt))))
               time).
  { unfold recorded. destruct (NoRecordedValue pt); [reflexivity |].
    f_equal. f_equal. unfold totalBucketCount, uint64_add.
    rewrite Hcounts at 2. rewrite sumZ_app, sumZ_cons.
    rewrite Zplus_mod_idemp_l. f_equal. unfold sumZ at 3. simpl. lia. }
  rewrite Hinf.
  destruct (addSample_samples mc
              (mkSample
                 (recorded pt (float64_of_uint64 (totalBucketCount (BucketCounts pt))))
                 time)
              (createAttributes resource (Attributes pt) (ExternalLabels settings)
                 [nameStr; baseName +:+ bucketStr; leStr; pInfStr])
              datatype) as (md & Hd & Hmd).
  rewrite Hd.
  rewrite addExemplars_samples.
  rewrite Hmd, Hmc, Hmb.
  rewrite !samplesAt_app, <- !app_assoc.
  f_equal. f_equal. f_equal.
  unfold expectedInfSample. rewrite samplesAt_cons.
  unfold samplesAt at 2. cbn [filter map list_filter]. rewrite app_nil_r.
  reflexivity.
Qed.

Lemma samplesAt_elem (s : string) (smp : Sample) (emitted : list (string * Sample)) :
  (s, smp) ∈ emitted -> smp ∈ samplesAt s emitted.
Proof.
  intros Hin. unfold samplesAt.
  apply (list_elem_of_fmap_2 snd _ (s, smp)).
  apply list_elem_of_filter. split; [reflexivity | exact Hin].
Qed.

(** C1, as the code has it: for a histogram point with exactly one more
    bucket count than explicit bounds, translated into a non-nil map, the
    samples appended to each series are the expected ones and no others.
    For the [i]-th explicit bound the series of its [le] label receives a
    sample whose value is the [uint64] sum (so modulo [2^64]) of the bucket
    counts [0..i] converted to [float64], and the [le="+Inf"] series one
    whose value is the [uint64] sum of all bucket counts; a point flagged
    [NoRecordedValue] carries the stale marker in place of each value. *)
Theorem histogram_cumulative_bucket_samples (pt : HistogramDataPoint)
    (resource : Resource) (metric : Metric) (settings : Settings)
    (m : gmap string TimeSeries) :
  length (BucketCounts pt) = S (length (ExplicitBounds pt)) ->
  let out := addSingleHistogramDataPoint pt resource metric settings (Some m) in
  let time := convertTimeStamp (Timestamp pt) in
  (forall s,
      samplesOf out s
      = (samplesOf (Some m) s
         ++ samplesAt s (expectedSamples pt resource metric settings))%list)
  /\ (forall i bound,
        ExplicitBounds pt !! i = Some bound ->
        mkSample
          (if NoRecordedValue pt then StaleNaN
           else float64_of_uint64 (sumZ (take (S i) (BucketCounts pt)) mod 2 ^ 64))
          time
        ∈ samplesOf out
            (bucketSignature pt resource metric settings (FormatFloat bound)))
  /\ mkSample
       (if NoRecordedValue pt then StaleNaN
        else float64_of_uint64 (sumZ (BucketCounts pt) mod 2 ^ 64))
       time
     ∈ samplesOf out (bucketSignature pt resource metric settings pInfStr).
Proof.
  intros Hlen. cbv zeta.
  split; [| split].
  - intros s. by apply addSingleHistogramDataPoint_samples.
  - intros i bd Hi.
    rewrite addSingleHistogramDataPoint_samples by done.
    apply elem_of_app. right. apply samplesAt_elem.
    unfold expectedSamples. apply elem_of_app. right. apply elem_of_app. left.
    unfold expectedBucketSamples.
    apply elem_of_lookup_imap. exists i, bd. split; [reflexivity | exact Hi].
  - rewrite addSingleHistogramDataPoint_samples by done.
    apply elem_of_app. right. apply samplesAt_elem.
    unfold expectedSamples. apply elem_of_app. right. apply elem_of_app. right.
    apply list_elem_of_singleton. reflexivity.
Qed.

(** Counts that are not negative and whose sum fits [uint64] give the plain
    sums. *)
Lemma cumulativeBucketCount_no_overflow (counts : list Z) (i : nat) :
  Forall (fun c => 0 <= c) counts ->
  sumZ counts < 2 ^ 64 ->
  cumulativeBucketCount counts i = sumZ (take (S i) counts)
  /\ totalBucketCount counts = sumZ counts.
Proof.
  intros Hpos Hsum.
  assert (Hnn : forall l : list Z, Forall (fun c => 0 <= c) l -> 0 <= sumZ l).
  { intros l Hl. induction Hl as [| x l Hx Hl IH]; [done |].
    rewrite sumZ_cons. lia. }
  assert (Htake : sumZ (take (S i) counts) <= sumZ counts).
  { rewrite <- (take_drop (S i) counts) at 2. rewrite sumZ_app.
    specialize (Hnn (drop (S i) counts) (Forall_drop _ _ _ Hpos)). lia. }
  unfold cumulativeBucketCount, totalBucketCount.
  specialize (Hnn (take (S i) counts) (Forall_take _ _ _ Hpos)) as Hnn1.
  specialize (Hnn counts Hpos) as Hnn2.
  split; apply Z.mod_small; lia.
Qed.

End Histogram.

Import fixtures.

(** C1, witness: the cross-check histogram, translated into an empty map. *)
Lemma histogram_cumulative_bucket_samples_witness :
  mkSample (float64_of_uint64 (sumZ [4; 2; 3; 7] mod 2 ^ 64)) 5
  ∈ samplesOf
      (addSingleHistogramDataPoint (histogram false) resource0 "latency"
         settings0 (Some ∅))
      (bucketSignature (histogram false) resource0 "latency" settings0 pInfStr).
Proof.
  exact (proj2 (proj2 (histogram_cumulative_bucket_samples
                         (histogram false) resource0 "latency" settings0 ∅
                         eq_refl))).
Defined.

(** The cross-check of the specification, run on the code: bounds
    [1.5, 2, 4] with per-bucket counts [4, 2, 3, 7] give the bucket values
    [4, 6, 9] and [16] for [+Inf], the total count. *)
Example histogram_cross_check :
  map (fun le =>
         map Sample_Value
           (samplesOf
              (addSingleHistogramDataPoint (histogram false) resource0 "latency"
                 settings0 (Some ∅))
              (bucketSignature (histogram false) resource0 "latency" settings0 le)))
      ["1.5"; "2"; "4"; "+Inf"]
  = [[4%float]; [6%float]; [9%float]; [16%float]]
  /\ map (fun p => Sample_Value (snd p))
       (expectedBucketSamples (histogram false) resource0 "latency" settings0)
     = [4%float; 6%float; 9%float].
Proof. split; vm_compute; reflexivity. Qed.

(** C1, counterexample: the same histogram flagged [NoRecordedValue] gets
    the stale marker, not [4, 6, 9, 16], in every bucket; and two counts of
    [2^63] wrap the [+Inf] bucket to [0]. *)
Lemma histogram_stale_or_wrapping :
  (length (BucketCounts (histogram true))
   = S (length (ExplicitBounds (histogram true)))
   /\ map (fun le =>
            map Sample_Value
              (samplesOf
                 (addSingleHistogramDataPoint (histogram true) resource0 "latency"
                    settings0 (Some ∅))
                 (bucketSignature (histogram true) resource0 "latency" settings0 le)))
         ["1.5"; "2"; "4"; "+Inf"]
      = [[StaleNaN]; [StaleNaN]; [StaleNaN]; [StaleNaN]]
   /\ StaleNaN <> float64_of_uint64 16)
  /\ (length (BucketCounts overflowing) = S (length (ExplicitBounds overflowing))
      /\ map Sample_Value
           (samplesOf
              (addSingleHistogramDataPoint overflowing resource0 "latency"
                 settings0 (Some ∅))
              (bucketSignature overflowing resource0 "latency" settings0 pInfStr))
         = [float64_of_uint64 0]
      /\ sumZ (BucketCounts overflowing) = 2 ^ 64
      /\ float64_of_uint64 0 <> float64_of_uint64 (2 ^ 64)).
Proof.
  split; [split; [reflexivity | split] | split; [reflexivity | split; [| split]]].
  - vm_compute. reflexivity.
  - intros Heq. apply (f_equal PrimFloat.is_nan) in Heq.
    vm_compute in Heq. discriminate.
  - vm_compute. reflexivity.
  - reflexivity.
  - intros Heq. apply (f_equal PrimFloat.is_zero) in Heq.
    vm_compute in Heq. discriminate.
Qed.

End RemoteWriteFacts.

(** ** The lexer *)
Module LexerFacts.
Import Ottl.

Lemma length_append (a b : string) :
  String.length (a +:+ b) = (String.length a + String.length b)%nat.
Proof. induction a as [| c a IH]; simpl; [reflexivity | by rewrite IH]. Qed.

Lemma substring_append (a b : string) :
  substring 0 (String.length (a +:+ b) - String.length b) (a +:+ b) = a.
Proof.
  rewrite length_append.
  replace (String.length a + String.length b - String.length b)%nat
    with (String.length a) by lia.
  induction a as [| c a IH]; simpl.
  - by destruct b.
  - by rewrite IH.
Qed.

Lemma star_loop_S (step : option ascii -> string -> cont -> option string)
    (k : cont) (fuel : nat) (prev : option ascii) (s : string) :
  star_loop step k (S fuel) prev s
  = match step prev s
            (fun prev' s' =>
               if (String.length s' <? String.length s)%nat
               then star_loop step k fuel prev' s'
               else None)
    with
    | Some rest => Some rest
    | None => k prev s
    end.
Proof. reflexivity. Qed.

Lemma match_re_Class (negated : bool) (ranges : list (ascii * ascii))
    (prev : option ascii) (c : ascii) (s : string) (k : cont) :
  match_re (Class negated ranges) prev (String c s) k
  = if in_class negated ranges c then k (Some c) s else None.
Proof. reflexivity. Qed.

(** A greedy [Star] over a character class, followed by nothing else in
    the pattern, takes the whole run of characters of the class. *)
Lemma star_class_run (negated : bool) (ranges : list (ascii * ascii))
    (run rest : string) :
  all_chars (in_class negated ranges) run = true ->
  match head_char rest with
  | Some c => in_class negated ranges c = false
  | None => True
  end ->
  forall fuel prev,
    (String.length (run +:+ rest) <= fuel)%nat ->
    star_loop (match_re (Class negated ranges)) (fun _ r => Some r) fuel prev
      (run +:+ rest) = Some rest.
Proof.
  intros Hrun Hrest.
  induction run as [| c run IH]; intros fuel prev Hfuel.
  - change (EmptyString +:+ rest) with rest.
    destruct fuel as [| fuel]; [reflexivity |].
    rewrite star_loop_S. destruct rest as [| c rest]; [reflexivity |].
    rewrite match_re_Class. cbn [head_char] in Hrest. by rewrite Hrest.
  - cbn [all_chars] in Hrun. apply andb_true_iff in Hrun as [Hc Hrun].
    change (String c run +:+ rest) with (String c (run +:+ rest)) in *.
    cbn [String.length] in Hfuel. destruct fuel as [| fuel]; [lia |].
    rewrite star_loop_S, match_re_Class, Hc. cbn [String.length].
    replace (String.length (run +:+ rest) <? S (String.length (run +:+ rest)))%nat
      with true by (symmetry; apply Nat.ltb_lt; lia).
    rewrite (IH Hrun) by lia. reflexivity.
Qed.

(** The [Bytes] pattern on ["0x"], a non-empty run of hex digits, and a
    rest that does not go on with a hex digit. *)
Lemma match_prefix_Bytes (digits rest : string) :
  digits <> EmptyString ->
  all_chars is_hexDigit digits = true ->
  match head_char rest with
  | Some c => is_hexDigit c = false
  | None => True
  end ->
  match_prefix (Then (Lit "0x") (Plus (Class false hexDigits)))
    ("0x" +:+ digits +:+ rest)
  = Some ("0x" +:+ digits, rest).
Proof.
  intros Hne Hdigits Hrest.
  destruct digits as [| c digits]; [done |].
  simpl in Hdigits. apply andb_true_iff in Hdigits as [Hc Hdigits].
  unfold match_prefix.
  assert (Hm : match_re (Then (Lit "0x") (Plus (Class false hexDigits))) None
                 ("0x" +:+ String c digits +:+ rest) (fun _ r => Some r)
               = Some rest).
  { change (match_re (Then (Lit "0x") (Plus (Class false hexDigits))) None
              ("0x" +:+ String c digits +:+ rest) (fun _ r => Some r))
      with (match_re (Class false hexDigits) (Some "x"%char)
              (String c (digits +:+ rest))
              (fun prev' s' =>
                 star_loop (match_re (Class false hexDigits)) (fun _ r => Some r)
                   (String.length s') prev' s')).
    rewrite match_re_Class. unfold is_hexDigit in Hc. rewrite Hc.
    apply star_class_run; [exact Hdigits | exact Hrest | lia]. }
  rewrite Hm. f_equal. f_equal.
  change ("0x" +:+ String c digits +:+ rest)
    with (("0x" +:+ String c digits) +:+ rest).
  apply substring_append.
Qed.

(** More fuel than the input is long does not change what the lexer
    returns. *)
Lemma lex_loop_fuel (rules : list (TokenKind * regex)) (fuel1 : nat) :
  forall (fuel2 : nat) (s : string),
    (String.length s <= fuel1)%nat -> (String.length s <= fuel2)%nat ->
    lex_loop rules fuel1 s = lex_loop rules fuel2 s.
Proof.
  induction fuel1 as [| fuel1 IH]; intros fuel2 s H1 H2.
  - destruct s; [by destruct fuel2 | simpl in H1; lia].
  - destruct s as [| c s]; [by destruct fuel2 |].
    destruct fuel2 as [| fuel2]; [simpl in H2; lia |].
    cbn [lex_loop].
    destruct (first_match rules (String c s)) as [[tok rest] |]; [| reflexivity].
    destruct (String.length rest <? String.length (String c s))%nat eqn:Hlt;
      [| reflexivity].
    apply Nat.ltb_lt in Hlt. simpl in H1, H2, Hlt.
    rewrite (IH fuel2 rest) by lia. reflexivity.
Qed.

Lemma lex_loop_step (rules : list (TokenKind * regex)) (fuel : nat) (s : string)
    (tok : Token) (rest : string) :
  first_match rules s = Some (tok, rest) ->
  (String.length rest < String.length s)%nat ->
  lex_loop rules (S fuel) s
  = match lex_loop rules fuel rest with
    | Tokens ts => Tokens (if elided (kind tok) then ts else tok :: ts)
    | LexError remaining => LexError remaining
    end.
Proof.
  intros Hfirst Hlt.
  destruct s as [| c s]; [simpl in Hlt; lia |].
  cbn [lex_loop]. rewrite Hfirst.
  by replace (String.length rest <? String.length (String c s))%nat
    with true by (symmetry; by apply Nat.ltb_lt).
Qed.

(** C6: [Bytes] is the first rule of the lexer, before [Float] and [Int],
    so on ["0x"] followed by one or more hex digits the lexer's next token
    is a single [Bytes] token that covers the whole literal, and lexing goes
    on behind it. *)
Theorem lexer_Bytes_before_numbers (digits rest : string) :
  digits <> EmptyString ->
  all_chars is_hexDigit digits = true ->
  match head_char rest with
  | Some c => is_hexDigit c = false
  | None => True
  end ->
  map fst (take 3 buildLexer) = [Bytes; Float; Int]
  /\ first_match buildLexer ("0x" +:+ digits +:+ rest)
     = Some (mkToken Bytes ("0x" +:+ digits), rest)
  /\ lex ("0x" +:+ digits +:+ rest)
     = match lex rest with
       | Tokens ts => Tokens (mkToken Bytes ("0x" +:+ digits) :: ts)
       | LexError remaining => LexError remaining
       end.
Proof.
  intros Hne Hdigits Hrest.
  assert (Hfirst : first_match buildLexer ("0x" +:+ digits +:+ rest)
                   = Some (mkToken Bytes ("0x" +:+ digits), rest)).
  { unfold buildLexer. cbn [first_match].
    by rewrite match_prefix_Bytes. }
  split; [reflexivity | split; [exact Hfirst |]].
  unfold lex, lex_with.
  change (String.length ("0x" +:+ digits +:+ rest))
    with (S (String.length (String "x" (digits +:+ rest)))).
  rewrite (lex_loop_step buildLexer
             (String.length (String "x" (digits +:+ rest)))
             ("0x" +:+ digits +:+ rest) _ _ Hfirst).
  - cbn [elided kind].
    rewrite (lex_loop_fuel buildLexer
               (String.length (String "x" (digits +:+ rest)))
               (String.length rest) rest); [reflexivity | | lia].
    cbn [String.length]. rewrite length_append. lia.
  - change ("0x" +:+ digits +:+ rest)
      with (String "0" (String "x" (digits +:+ rest))).
    cbn [String.length]. rewrite length_append. lia.
Qed.

Lemma lexer_Bytes_before_numbers_witness :
  lex "0x1F)" = Tokens [mkToken Bytes "0x1F"; mkToken RParen ")"].
Proof.
  exact (proj2 (proj2 (lexer_Bytes_before_numbers "1F" ")"
                         ltac:(discriminate) eq_refl eq_refl))).
Defined.

(** With the [Bytes] rule behind [Int] the same literal is split. *)
Example lexer_order_matters :
  lex "0x1F" = Tokens [mkToken Bytes "0x1F"]
  /\ lex_with fixtures.bytesAfterNumbers "0x1F"
     = Tokens [mkToken Int "0"; mkToken Lowercase "x1"; mkToken Uppercase "F"].
Proof. split; vm_compute; reflexivity. Qed.

End LexerFacts.

(** ** The parser *)
Module ParserFacts.
Import Ottl ParserProps.

Section Parser.
Context {conv : Conversions}.

(** *** When a combinator matches *)

Lemma bind_Match {A B} (p : parser A) (k : A -> parser B) ts b rest :
  bind p k ts = Match b rest
  <-> exists a mid, p ts = Match a mid /\ k a mid = Match b rest.
Proof.
  unfold bind. split.
  - destruct (p ts) as [a mid | |]; [eauto | discriminate | discriminate].
  - intros (a & mid & -> & Hk). exact Hk.
Qed.

Lemma ret_Match {A} (a b : A) ts rest :
  ret a ts = Match b rest <-> a = b /\ ts = rest.
Proof. unfold ret. split; [intros [= -> ->] | intros [-> ->]]; done. Qed.

Lemma orElse_Match {A} (p q : parser A) ts a rest :
  orElse p q ts = Match a rest
  <-> p ts = Match a rest \/ (p ts = NoMatch /\ q ts = Match a rest).
Proof.
  unfold orElse. destruct (p ts) as [a' mid | |]; split.
  - intros H. by left.
  - intros [H | [H _]]; [exact H | discriminate].
  - intros H. by right.
  - intros [H | [_ H]]; [discriminate | exact H].
  - discriminate.
  - intros [H | [H _]]; discriminate.
Qed.

Lemma optional_Match {A} (p : parser A) ts o rest :
  optional p ts = Match o rest
  <-> (exists a, o = Some a /\ p ts = Match a rest)
      \/ (o = None /\ p ts = NoMatch /\ rest = ts).
Proof.
  unfold optional. destruct (p ts) as [a' mid | |]; split.
  - intros [= <- <-]. eauto.
  - intros [(a & -> & [= -> ->]) | (_ & ? & _)]; [done | discriminate].
  - intros [= <- <-]. eauto.
  - intros [(a & _ & ?) | (-> & _ & ->)]; [discriminate | done].
  - discriminate.
  - intros [(a & _ & ?) | (_ & ? & _)]; discriminate.
Qed.

Lemma many_S_Match {A} (fuel : nat) (p : parser A) ts l rest :
  many (S fuel) p ts = Match l rest
  <-> (exists a mid l', p ts = Match a mid /\ many fuel p mid = Match l' rest
                        /\ l = a :: l')
      \/ (p ts = NoMatch /\ l = [] /\ rest = ts).
Proof.
  cbn [many]. destruct (p ts) as [a mid | |].
  - destruct (many fuel p mid) as [l' rest' | |] eqn:Hm; split.
    + intros [= <- <-]. left. exists a, mid, l'. done.
    + intros [(a' & mid' & l'' & [= <- <-] & Hm' & ->) | (? & _)];
        [| discriminate].
      rewrite Hm in Hm'. by injection Hm' as <- <-.
    + discriminate.
    + intros [(a' & mid' & l'' & [= <- <-] & Hm' & _) | (? & _)];
        [rewrite Hm in Hm' |]; discriminate.
    + discriminate.
    + intros [(a' & mid' & l'' & [= <- <-] & Hm' & _) | (? & _)];
        [rewrite Hm in Hm' |]; discriminate.
  - split.
    + intros [= <- <-]. by right.
    + intros [(a' & mid' & l' & ? & _) | (_ & -> & ->)]; [discriminate | done].
  - split; [discriminate |].
    intros [(a' & mid' & l' & ? & _) | (? & _)]; discriminate.
Qed.

Lemma many_O {A} (p : parser A) ts : many 0 p ts = NoMatch.
Proof. reflexivity. Qed.

Lemma token_Match (k : TokenKind) ts x rest :
  token k ts = Match x rest
  <-> exists tok, ts = tok :: rest /\ kind tok = k /\ x = text tok.
Proof.
  unfold token, isKind. destruct ts as [| tok ts'].
  - split; [discriminate | intros (tok & ? & _); discriminate].
  - case_bool_decide as Hk; split.
    + intros [= <- <-]. eauto.
    + intros (tok' & [= <- <-] & _ & ->). reflexivity.
    + discriminate.
    + intros (tok' & [= <- <-] & ? & _). contradiction.
Qed.

Lemma literal_Match (k : TokenKind) (s : string) ts x rest :
  literal k s ts = Match x rest
  <-> exists tok, ts = tok :: rest /\ kind tok = k /\ text tok = s /\ x = s.
Proof.
  unfold literal, isLit, isKind. destruct ts as [| tok ts'].
  - split; [discriminate | intros (tok & ? & _); discriminate].
  - case_bool_decide as Hk; cbn [andb].
    + destruct (String.eqb_spec (text tok) s) as [Hs | Hs]; split.
      * intros [= <- <-]. eauto 6.
      * intros (tok' & [= <- <-] & _ & _ & ->). by rewrite Hs.
      * discriminate.
      * intros (tok' & [= <- <-] & _ & ? & _). contradiction.
    + split; [discriminate |].
      intros (tok' & [= <- <-] & ? & _). contradiction.
Qed.

Lemma converted_Match {A} (c : A + error_value) ts a rest :
  converted c ts = Match a rest <-> c = inl a /\ ts = rest.
Proof.
  unfold converted. destruct c; split;
    try (intros [= -> ->]); try (intros [[= ->] ->]); try discriminate; done.
Qed.

Lemma captured_Match {A} (c : go (A * error)) ts a rest :
  captured c ts = Match a rest <-> c = Return (a, None) /\ ts = rest.
Proof.
  unfold captured. destruct c as [[a' [e |]] | m]; split;
    try (intros [= -> ->]); try (intros [[= ->] ->]); try discriminate; done.
Qed.

(** Takes apart every hypothesis that says a combinator matched. *)
Ltac parse_inv :=
  repeat match goal with
         | H : bind _ _ _ = Match _ _ |- _ =>
             apply bind_Match in H as (? & ? & ? & ?)
         | H : ret _ _ = Match _ _ |- _ =>
             apply ret_Match in H as [? ?]; subst
         | H : token _ _ = Match _ _ |- _ =>
             apply token_Match in H as (? & ? & ? & ?); subst
         | H : literal _ _ _ = Match _ _ |- _ =>
             apply literal_Match in H as (? & ? & ? & ? & ?); subst
         | H : converted _ _ = Match _ _ |- _ =>
             apply converted_Match in H as [? ?]; subst
         | H : captured _ _ = Match _ _ |- _ =>
             apply captured_Match in H as [? ?]; subst
         | H : optional _ _ = Match _ _ |- _ =>
             apply optional_Match in H as [(? & ? & ?) | (? & ? & ?)]; subst
         | H : orElse _ _ _ = Match _ _ |- _ =>
             apply orElse_Match in H as [? | [? ?]]
         end.

(** *** Soundness of the combinators *)

Lemma sound_weaken {A} (P Q : A -> Prop) (p : parser A) :
  (forall a, P a -> Q a) -> sound P p -> sound Q p.
Proof. intros HPQ Hp ts a rest Hm. destruct (Hp ts a rest Hm). eauto. Qed.

Lemma sound_ret {A} (P : A -> Prop) (a : A) : P a -> sound P (ret a).
Proof.
  intros Ha ts b rest [<- ->]%ret_Match. split; [done |].
  exists []. split; [reflexivity | constructor].
Qed.

Lemma sound_bind {A B} (Q : A -> Prop) (P : B -> Prop) (p : parser A)
    (k : A -> parser B) :
  sound Q p -> (forall a, Q a -> sound P (k a)) -> sound P (bind p k).
Proof.
  intros Hp Hk ts b rest (a & mid & Hpa & Hka)%bind_Match.
  destruct (Hp _ _ _ Hpa) as (Ha & taken1 & -> & Hgood1).
  destruct (Hk a Ha _ _ _ Hka) as (Hb & taken2 & -> & Hgood2).
  split; [exact Hb |].
  exists (taken1 ++ taken2)%list. split; [by rewrite app_assoc |].
  by apply Forall_app.
Qed.

Lemma sound_orElse {A} (P : A -> Prop) (p q : parser A) :
  sound P p -> sound P q -> sound P (orElse p q).
Proof. intros Hp Hq ts a rest [Hm | [_ Hm]]%orElse_Match; eauto. Qed.

Lemma sound_optional {A} (P : A -> Prop) (p : parser A) :
  sound P p ->
  sound (fun o => match o with Some a => P a | None => True end) (optional p).
Proof.
  intros Hp ts o rest [(a & -> & Hm) | (-> & _ & ->)]%optional_Match.
  - exact (Hp _ _ _ Hm).
  - split; [done |]. exists []. split; [reflexivity | constructor].
Qed.

Lemma sound_many {A} (P : A -> Prop) (p : parser A) (fuel : nat) :
  sound P p -> sound (Forall P) (many fuel p).
Proof.
  intros Hp. induction fuel as [| fuel IH]; intros ts l rest Hm.
  - discriminate.
  - apply many_S_Match in Hm
      as [(a & mid & l' & Hpa & Hrec & ->) | (_ & -> & ->)].
    + destruct (Hp _ _ _ Hpa) as (Ha & taken1 & -> & Hgood1).
      destruct (IH _ _ _ Hrec) as (Hl & taken2 & -> & Hgood2).
      split; [by constructor |].
      exists (taken1 ++ taken2)%list. split; [by rewrite app_assoc |].
      by apply Forall_app.
    + split; [constructor |]. exists []. split; [reflexivity | constructor].
Qed.

Lemma sound_token (k : TokenKind) :
  k <> Bytes -> sound (fun _ => True) (token k).
Proof.
  intros Hk ts x rest (tok & -> & Hkind & ->)%token_Match.
  split; [done |]. exists [tok]. split; [reflexivity |].
  constructor; [| constructor].
  unfold decodable, isKind. rewrite bool_decide_eq_false_2; [done | congruence].
Qed.

Lemma sound_literal (k : TokenKind) (s : string) :
  k <> Bytes -> sound (fun _ => True) (literal k s).
Proof.
  intros Hk ts x rest (tok & -> & Hkind & _ & ->)%literal_Match.
  split; [done |]. exists [tok]. split; [reflexivity |].
  constructor; [| constructor].
  unfold decodable, isKind. rewrite bool_decide_eq_false_2; [done | congruence].
Qed.

Lemma sound_converted {A} (P : A -> Prop) (c : A + error_value) :
  (forall a, c = inl a -> P a) -> sound P (converted c).
Proof.
  intros Hc ts a rest [-> ->]%converted_Match. split; [by apply Hc |].
  exists []. split; [reflexivity | constructor].
Qed.

Lemma sound_captured {A} (P : A -> Prop) (c : go (A * error)) :
  (forall a, c = Return (a, None) -> P a) -> sound P (captured c).
Proof.
  intros Hc ts a rest [-> ->]%captured_Match. split; [by apply Hc |].
  exists []. split; [reflexivity | constructor].
Qed.

(** A [Bytes] token is taken only together with its [Capture]. *)
Lemma sound_Bytes {A} (P : A -> Prop) (k : byteSlice -> parser A) :
  (forall b, sound P (k b)) ->
  sound P (bind (token Bytes)
             (fun raw => bind (captured (byteSlice_Capture [] [raw])) k)).
Proof.
  intros Hk ts a rest Hm. parse_inv.
  match goal with Hka : k _ _ = Match _ _ |- _ =>
    destruct (Hk _ _ _ _ Hka) as (Ha & taken & -> & Hgood) end.
  split; [exact Ha |].
  match goal with tok : Token |- _ => exists (tok :: taken) end.
  split; [reflexivity |]. constructor; [| exact Hgood].
  unfold decodable.
  match goal with Hc : byteSlice_Capture _ _ = _ |- _ => rewrite Hc end.
  apply orb_true_r.
Qed.

Lemma sound_bounded {A} (P : A -> Prop) (p : parser A) :
  sound P p -> bounded p.
Proof.
  intros Hp ts a rest Hm. destruct (Hp _ _ _ Hm) as (_ & taken & -> & _).
  rewrite length_app. lia.
Qed.

Lemma forallb_Forall {A} (f : A -> bool) (l : list A) :
  Forall (fun x => f x = true) l -> forallb f l = true.
Proof. induction 1 as [| x l Hx _ IH]; simpl; [done | by rewrite Hx, IH]. Qed.

(** *** Soundness of the grammar *)

Lemma sound_parseMapKey : sound (fun _ => True) parseMapKey.
Proof.
  unfold parseMapKey.
  apply (sound_bind (fun _ => True)); [by apply sound_literal | intros _ _].
  apply (sound_bind (fun _ => True)); [by apply sound_token | intros raw _].
  apply (sound_bind (fun _ => True)); [by apply sound_literal | intros _ _].
  by apply sound_converted.
Qed.

Lemma sound_parseField : sound (fun _ => True) parseField.
Proof.
  unfold parseField.
  apply (sound_bind (fun _ => True)); [by apply sound_token | intros name _].
  apply (sound_bind (fun _ => True)).
  - eapply sound_weaken; [| apply sound_optional, sound_parseMapKey]. done.
  - intros mapKey _. by apply sound_ret.
Qed.

Lemma sound_parsePath (fuel : nat) : sound (fun _ => True) (parsePath fuel).
Proof.
  unfold parsePath.
  apply (sound_bind (fun _ => True)); [apply sound_parseField | intros f _].
  apply (sound_bind (fun _ => True)).
  - eapply sound_weaken; [| apply (sound_many (fun _ => True))]; [done |].
    apply (sound_bind (fun _ => True)); [by apply sound_literal | intros _ _].
    apply sound_parseField.
  - intros fs _. by apply sound_ret.
Qed.

Lemma nameTokens_taken (ts : list Token) :
  exists taken,
    ts = (taken ++ snd (nameTokens ts))%list
    /\ Forall (fun tok => isName tok = true) taken.
Proof.
  induction ts as [| tok ts (taken & IH & Hnames)]; cbn [nameTokens].
  - exists []. split; [reflexivity | constructor].
  - destruct (isName tok) eqn:Hname; cbn [snd].
    + exists (tok :: taken). split; [cbn [app]; by rewrite <- IH | by constructor].
    + exists []. split; [reflexivity | constructor].
Qed.

Lemma isName_decodable (tok : Token) : isName tok = true -> decodable tok = true.
Proof.
  unfold isName, decodable, isKind. intros Hname.
  rewrite bool_decide_eq_false_2; [done |].
  intros Hk. rewrite Hk in Hname.
  by rewrite !bool_decide_eq_false_2 in Hname.
Qed.

Lemma sound_parseFunction : sound (fun _ => True) parseFunction.
Proof.
  intros ts name rest Hm. unfold parseFunction in Hm.
  destruct ts as [| tok ts']; [discriminate |].
  destruct (isName tok); [| discriminate].
  injection Hm as <- <-. split; [done |].
  destruct (nameTokens_taken (tok :: ts')) as (taken & Heq & Hnames).
  exists taken. split; [exact Heq |].
  eapply Forall_impl; [exact Hnames |]. apply isName_decodable.
Qed.

Lemma sound_parseArguments (P : value -> Prop) (parseValue : parser value)
    (fuel : nat) :
  sound P parseValue -> sound (Forall P) (parseArguments parseValue fuel).
Proof.
  intros Hv. unfold parseArguments.
  apply (sound_bind
           (fun o => match o with Some vs => Forall P vs | None => True end)).
  - apply sound_optional.
    apply (sound_bind P); [exact Hv | intros v Pv].
    apply (sound_bind (Forall P)).
    + apply sound_many.
      apply (sound_bind (fun _ => True)); [by apply sound_literal | by intros _ _].
    + intros vs Pvs. apply sound_ret. by constructor.
  - intros [vs |] Hvs; apply sound_ret; [exact Hvs | constructor].
Qed.

Lemma sound_parseInvocation (P : value -> Prop) (parseValue : parser value)
    (fuel : nat) :
  sound P parseValue ->
  sound (fun i => Forall P (Arguments i)) (parseInvocation parseValue fuel).
Proof.
  intros Hv. unfold parseInvocation.
  apply (sound_bind (fun _ => True)); [apply sound_parseFunction | intros fn _].
  apply (sound_bind (fun _ => True)); [by apply sound_literal | intros _ _].
  apply (sound_bind (Forall P)); [by apply sound_parseArguments | intros args Hargs].
  apply (sound_bind (fun _ => True)); [by apply sound_literal | intros _ _].
  by apply sound_ret.
Qed.

Lemma sound_parseLeaf (fuel : nat) :
  sound (fun v => value_ok v = true) (parseLeaf fuel).
Proof.
  unfold parseLeaf.
  repeat apply sound_orElse.
  - apply sound_Bytes. intros b. by apply sound_ret.
  - apply (sound_bind (fun _ => True)); [by apply sound_token | intros raw _].
    apply (sound_bind (fun _ => True)); [by apply sound_converted | intros x _].
    by apply sound_ret.
  - apply (sound_bind (fun _ => True)); [by apply sound_token | intros raw _].
    apply (sound_bind (fun _ => True)); [by apply sound_converted | intros x _].
    by apply sound_ret.
  - apply (sound_bind (fun _ => True)); [by apply sound_token | intros raw _].
    apply (sound_bind (fun _ => True)); [by apply sound_converted | intros x _].
    by apply sound_ret.
  - apply (sound_bind (fun _ => True)); [by apply sound_token | intros raw _].
    apply (sound_bind (fun _ => True)); [by apply sound_captured | intros x _].
    by apply sound_ret.
  - apply (sound_bind (fun _ => True)); [by apply sound_literal | intros raw _].
    apply (sound_bind (fun _ => True)); [by apply sound_captured | intros x _].
    by apply sound_ret.
  - apply (sound_bind (fun _ => True)); [by apply sound_token | intros raw _].
    by apply sound_ret.
  - apply (sound_bind (fun _ => True)); [apply sound_parsePath | intros x _].
    by apply sound_ret.
Qed.

Lemma sound_parseValue (fuel : nat) :
  sound (fun v => value_ok v = true) (parseValue fuel).
Proof.
  induction fuel as [| fuel IH]; [intros ts v rest Hm; discriminate |].
  cbn [parseValue]. apply sound_orElse; [| apply sound_parseLeaf].
  apply (sound_bind (fun i => Forall (fun v => value_ok v = true) (Arguments i))).
  - by apply sound_parseInvocation.
  - intros i Hi. apply sound_ret.
    cbn [value_ok value_variants value_Invocation populated].
    by rewrite forallb_Forall.
Qed.

Lemma sound_parseComparison (fuel : nat) :
  sound (fun c => comparison_ok c = true) (parseComparison fuel).
Proof.
  unfold parseComparison.
  apply (sound_bind (fun v => value_ok v = true));
    [apply sound_parseValue | intros left Hleft].
  apply (sound_bind (fun _ => True)); [by apply sound_token | intros raw _].
  apply (sound_bind (fun _ => True)); [by apply sound_captured | intros op _].
  apply (sound_bind (fun v => value_ok v = true));
    [apply sound_parseValue | intros right Hright].
  apply sound_ret. unfold comparison_ok. cbn. by rewrite Hleft, Hright.
Qed.

Lemma sound_parseTerm (parseBooleanValue : parser booleanValue) (fuel : nat) :
  sound (fun b => booleanValue_ok b = true) parseBooleanValue ->
  sound (fun t => term_ok t = true) (parseTerm parseBooleanValue fuel).
Proof.
  intros Hb. unfold parseTerm.
  apply (sound_bind (fun b => booleanValue_ok b = true)); [exact Hb | intros left Hleft].
  apply (sound_bind (Forall (fun r => booleanValue_ok (opAnd_Value r) = true))).
  - apply sound_many. unfold parseOpAndBooleanValue.
    apply (sound_bind (fun _ => True)); [by apply sound_token | intros op _].
    apply (sound_bind (fun b => booleanValue_ok b = true)); [exact Hb | intros v Hv].
    by apply sound_ret.
  - intros right Hright. apply sound_ret.
    cbn [term_ok term_Left term_Right]. rewrite Hleft.
    by rewrite (forallb_Forall (fun r => booleanValue_ok (opAnd_Value r))).
Qed.

Lemma sound_parseBooleanExpressionWith (parseBooleanValue : parser booleanValue)
    (fuel : nat) :
  sound (fun b => booleanValue_ok b = true) parseBooleanValue ->
  sound (fun e => booleanExpression_ok e = true)
    (parseBooleanExpressionWith parseBooleanValue fuel).
Proof.
  intros Hb. unfold parseBooleanExpressionWith.
  apply (sound_bind (fun t => term_ok t = true));
    [by apply sound_parseTerm | intros left Hleft].
  apply (sound_bind (Forall (fun r => term_ok (opOr_Term r) = true))).
  - apply sound_many. unfold parseOpOrTerm.
    apply (sound_bind (fun _ => True)); [by apply sound_token | intros op _].
    apply (sound_bind (fun t => term_ok t = true));
      [by apply sound_parseTerm | intros t Ht].
    by apply sound_ret.
  - intros right Hright. apply sound_ret.
    cbn [booleanExpression_ok booleanExpression_Left booleanExpression_Right].
    rewrite Hleft.
    by rewrite (forallb_Forall (fun r => term_ok (opOr_Term r))).
Qed.

Lemma sound_parseBooleanValueFuel (fuel : nat) :
  sound (fun b => booleanValue_ok b = true) (parseBooleanValueFuel fuel).
Proof.
  induction fuel as [| fuel IH]; [intros ts v rest Hm; discriminate |].
  cbn [parseBooleanValueFuel]. repeat apply sound_orElse.
  - apply (sound_bind (fun c => comparison_ok c = true));
      [apply sound_parseComparison | intros c Hc].
    apply sound_ret.
    cbn [booleanValue_ok booleanValue_variants Comparison ConstExpr SubExpr populated].
    by rewrite Hc.
  - apply (sound_bind (fun _ => True)); [by apply sound_token | intros raw _].
    apply (sound_bind (fun _ => True)); [by apply sound_captured | intros b _].
    by apply sound_ret.
  - apply (sound_bind (fun _ => True)); [by apply sound_literal | intros _ _].
    apply (sound_bind (fun e => booleanExpression_ok e = true));
      [by apply sound_parseBooleanExpressionWith | intros e He].
    apply (sound_bind (fun _ => True)); [by apply sound_literal | intros _ _].
    apply sound_ret.
    cbn [booleanValue_ok booleanValue_variants Comparison ConstExpr SubExpr populated].
    by rewrite He.
Qed.

Lemma sound_parseParsedStatement :
  sound (fun st => parsedStatement_ok st = true) parseParsedStatement.
Proof.
  intros ts st rest Hm. unfold parseParsedStatement in Hm. cbv zeta in Hm.
  revert Hm. generalize (S (length ts)) as fuel. intros fuel. revert ts st rest.
  change (sound (fun st => parsedStatement_ok st = true)
            (bind (parseInvocation (parseValue fuel) fuel)
               (fun i =>
                  bind (optional
                          (bind (literal Lowercase "where")
                             (fun _ =>
                                parseBooleanExpressionWith
                                  (parseBooleanValueFuel fuel) fuel)))
                    (fun whereClause => ret (mkParsedStatement i whereClause))))).
  apply (sound_bind (fun i => Forall (fun v => value_ok v = true) (Arguments i))).
  - apply sound_parseInvocation, sound_parseValue.
  - intros i Hi.
    apply (sound_bind
             (fun o => match o with
                       | Some e => booleanExpression_ok e = true
                       | None => True
                       end)).
    + apply sound_optional.
      apply (sound_bind (fun _ => True)); [by apply sound_literal | intros _ _].
      apply sound_parseBooleanExpressionWith, sound_parseBooleanValueFuel.
    + intros whereClause Hw. apply sound_ret.
      unfold parsedStatement_ok, invocation_ok. cbn [Invocation WhereClause].
      rewrite forallb_Forall by exact Hi.
      destruct whereClause; [exact Hw | reflexivity].
Qed.

(** *** Fuel

    Two amounts of fuel above the number of tokens give the same parse. *)

Lemma advances_token (k : TokenKind) : advances (token k).
Proof. intros ts x rest (tok & -> & _)%token_Match. simpl. lia. Qed.

Lemma advances_literal (k : TokenKind) (s : string) : advances (literal k s).
Proof. intros ts x rest (tok & -> & _)%literal_Match. simpl. lia. Qed.

Lemma advances_bind {A B} (p : parser A) (k : A -> parser B) :
  advances p -> (forall a, bounded (k a)) -> advances (bind p k).
Proof.
  intros Hp Hk ts b rest (a & mid & Hpa & Hka)%bind_Match.
  specialize (Hp _ _ _ Hpa). specialize (Hk _ _ _ _ Hka). lia.
Qed.

Lemma advances_parseFunction : advances parseFunction.
Proof.
  intros ts name rest Hm. unfold parseFunction in Hm.
  destruct ts as [| tok ts']; [discriminate |].
  destruct (isName tok) eqn:Hname; [| discriminate].
  injection Hm as <- <-. cbn [nameTokens]. rewrite Hname. cbn [snd].
  destruct (nameTokens_taken ts') as (taken & Heq & _).
  rewrite Heq at 2. simpl. rewrite length_app. lia.
Qed.

Lemma agree_refl {A} (n : nat) (p : parser A) : agree n p p.
Proof. by intros ts _. Qed.

Lemma agree_weaken {A} (n m : nat) (p q : parser A) :
  (m <= n)%nat -> agree n p q -> agree m p q.
Proof. intros Hmn Hpq ts Hts. apply Hpq. lia. Qed.

Lemma agree_bind {A B} (n : nat) (p q : parser A) (k k' : A -> parser B) :
  agree n p q -> bounded p -> (forall a, agree n (k a) (k' a)) ->
  agree n (bind p k) (bind q k').
Proof.
  intros Hpq Hp Hk ts Hts. unfold bind. rewrite <- (Hpq ts Hts).
  destruct (p ts) as [a mid | |] eqn:Hpa; [| reflexivity | reflexivity].
  apply Hk. specialize (Hp _ _ _ Hpa). lia.
Qed.

Lemma agree_bind_advances {A B} (n : nat) (p q : parser A) (k k' : A -> parser B) :
  agree n p q -> advances p ->
  (forall a m, (m < n)%nat -> agree m (k a) (k' a)) ->
  agree n (bind p k) (bind q k').
Proof.
  intros Hpq Hp Hk ts Hts. unfold bind. rewrite <- (Hpq ts Hts).
  destruct (p ts) as [a mid | |] eqn:Hpa; [| reflexivity | reflexivity].
  specialize (Hp _ _ _ Hpa).
  apply (Hk a (length mid)); lia.
Qed.

Lemma agree_orElse {A} (n : nat) (p q p' q' : parser A) :
  agree n p q -> agree n p' q' -> agree n (orElse p p') (orElse q q').
Proof.
  intros Hpq Hpq' ts Hts. unfold orElse.
  rewrite <- (Hpq ts Hts), <- (Hpq' ts Hts). reflexivity.
Qed.

Lemma agree_optional {A} (n : nat) (p q : parser A) :
  agree n p q -> agree n (optional p) (optional q).
Proof. intros Hpq ts Hts. unfold optional. by rewrite <- (Hpq ts Hts). Qed.

Lemma agree_many {A} (p q : parser A) (fuel1 : nat) :
  advances p ->
  forall (fuel2 n : nat),
    agree n p q -> (n < fuel1)%nat -> (n < fuel2)%nat ->
    agree n (many fuel1 p) (many fuel2 q).
Proof.
  intros Hp. induction fuel1 as [| fuel1 IH]; intros fuel2 n Hpq H1 H2 ts Hts;
    [lia |].
  destruct fuel2 as [| fuel2]; [lia |].
  cbn [many]. rewrite <- (Hpq ts Hts).
  destruct (p ts) as [a mid | |] eqn:Hpa; [| reflexivity | reflexivity].
  specialize (Hp _ _ _ Hpa).
  rewrite (IH fuel2 (length mid)); [reflexivity | | lia | lia | lia].
  eapply agree_weaken; [| exact Hpq]. lia.
Qed.

Lemma agree_parsePath (n fuel1 fuel2 : nat) :
  (n <= fuel1)%nat -> (n <= fuel2)%nat ->
  agree n (parsePath fuel1) (parsePath fuel2).
Proof.
  intros H1 H2. unfold parsePath.
  apply agree_bind_advances; [apply agree_refl | |].
  - unfold parseField. apply advances_bind; [apply advances_token |].
    intros name. eapply sound_bounded.
    apply (sound_bind (fun _ => True)).
    + eapply sound_weaken; [| apply sound_optional, sound_parseMapKey]. done.
    + intros mapKey _. by apply (sound_ret (fun _ => True)).
  - intros f m Hm. apply agree_bind.
    + apply agree_many; [| apply agree_refl | lia | lia].
      apply advances_bind; [apply advances_literal |].
      intros _. eapply sound_bounded, sound_parseField.
    + eapply sound_bounded. apply (sound_many (fun _ => True)).
      apply (sound_bind (fun _ => True)); [by apply sound_literal | intros _ _].
      apply sound_parseField.
    + intros fs. apply agree_refl.
Qed.

Lemma agree_parseLeaf (n fuel1 fuel2 : nat) :
  (n <= fuel1)%nat -> (n <= fuel2)%nat ->
  agree n (parseLeaf fuel1) (parseLeaf fuel2).
Proof.
  intros H1 H2. unfold parseLeaf.
  repeat (apply agree_orElse; [apply agree_refl |]).
  apply agree_bind; [by apply agree_parsePath | | intros p; apply agree_refl].
  eapply sound_bounded, sound_parsePath.
Qed.

Lemma agree_parseArguments (n fuel1 fuel2 : nat) (pv1 pv2 : parser value) :
  agree n pv1 pv2 -> bounded pv1 -> (n < fuel1)%nat -> (n < fuel2)%nat ->
  agree n (parseArguments pv1 fuel1) (parseArguments pv2 fuel2).
Proof.
  intros Hpv Hb H1 H2. unfold parseArguments.
  assert (Hadv : advances (bind (literal Punct ",") (fun _ => pv1))).
  { apply advances_bind; [apply advances_literal | by intros _]. }
  assert (Hsep : agree n (bind (literal Punct ",") (fun _ => pv1))
                   (bind (literal Punct ",") (fun _ => pv2))).
  { apply agree_bind_advances; [apply agree_refl | apply advances_literal |].
    intros _ m Hm. eapply agree_weaken; [| exact Hpv]. lia. }
  apply agree_bind.
  - apply agree_optional. apply agree_bind; [exact Hpv | exact Hb |].
    intros v. apply agree_bind; [by apply agree_many | | intros vs; apply agree_refl].
    intros ts l rest Hm. revert ts l rest Hm.
    generalize fuel1 as fuel. induction fuel as [| fuel IH]; intros ts l rest Hm;
      [discriminate |].
    apply many_S_Match in Hm as [(a & mid & l' & Ha & Hrec & ->) | (_ & -> & ->)];
      [| lia].
    specialize (Hadv _ _ _ Ha). specialize (IH _ _ _ Hrec). lia.
  - intros ts o rest Hm.
    apply optional_Match in Hm as [(a & -> & Hm) | (-> & _ & ->)]; [| lia].
    apply bind_Match in Hm as (v & mid & Hv & Hm).
    apply bind_Match in Hm as (vs & mid' & Hvs & [<- ->]%ret_Match).
    specialize (Hb _ _ _ Hv).
    assert (length rest <= length mid)%nat; [| lia].
    revert Hvs. generalize fuel1 as fuel. clear -Hadv.
    intros fuel. revert mid vs rest.
    induction fuel as [| fuel IH]; intros mid vs rest Hm; [discriminate |].
    apply many_S_Match in Hm as [(a & mid0 & l' & Ha & Hrec & ->) | (_ & -> & ->)];
      [| lia].
    specialize (Hadv _ _ _ Ha). specialize (IH _ _ _ Hrec). lia.
  - intros o. apply agree_refl.
Qed.

Lemma bounded_many {A} (p : parser A) (fuel : nat) :
  advances p -> bounded (many fuel p).
Proof.
  intros Hp. induction fuel as [| fuel IH]; intros ts l rest Hm; [discriminate |].
  apply many_S_Match in Hm as [(a & mid & l' & Ha & Hrec & ->) | (_ & -> & ->)];
    [| lia].
  specialize (Hp _ _ _ Ha). specialize (IH _ _ _ Hrec). lia.
Qed.

Lemma agree_parseInvocation (n fuel1 fuel2 : nat) (pv1 pv2 : parser value) :
  (forall m, (m < n)%nat -> agree m pv1 pv2) -> bounded pv1 ->
  (n <= fuel1)%nat -> (n <= fuel2)%nat ->
  agree n (parseInvocation pv1 fuel1) (parseInvocation pv2 fuel2).
Proof.
  intros Hpv Hb H1 H2. unfold parseInvocation.
  apply agree_bind_advances;
    [apply agree_refl | apply advances_parseFunction |].
  intros fn m Hm.
  apply agree_bind;
    [apply agree_refl | eapply sound_bounded; by apply sound_literal |].
  intros _. apply agree_bind.
  - apply agree_parseArguments; [by apply Hpv | exact Hb | lia | lia].
  - unfold parseArguments. intros ts l rest (o & mid & Ho & [<- ->]%ret_Match)%bind_Match.
    apply optional_Match in Ho as [(a & -> & Ho) | (-> & _ & ->)]; [| lia].
    apply bind_Match in Ho as (v & mid' & Hv & Ho).
    apply bind_Match in Ho as (vs & mid'' & Hvs & [<- ->]%ret_Match).
    pose proof (Hb _ _ _ Hv) as Hlen.
    apply bounded_many in Hvs; [lia |].
    apply advances_bind; [apply advances_literal | by intros _].
  - intros args. apply agree_refl.
Qed.

Lemma agree_parseValue (n : nat) :
  forall fuel1 fuel2,
    (n < fuel1)%nat -> (n < fuel2)%nat ->
    agree n (parseValue fuel1) (parseValue fuel2).
Proof.
  induction n as [n IH] using lt_wf_ind. intros fuel1 fuel2 H1 H2.
  destruct fuel1 as [| fuel1]; [lia |]. destruct fuel2 as [| fuel2]; [lia |].
  cbn [parseValue]. apply agree_orElse; [| apply agree_parseLeaf; lia].
  apply agree_bind.
  - apply agree_parseInvocation; [| | lia | lia].
    + intros m Hm. apply IH; lia.
    + eapply sound_bounded, sound_parseValue.
  - eapply sound_bounded, (sound_parseInvocation (fun _ => True)).
    eapply sound_weaken; [| apply sound_parseValue]. done.
  - intros i. apply agree_refl.
Qed.

Lemma agree_parseComparison (n fuel1 fuel2 : nat) :
  (n < fuel1)%nat -> (n < fuel2)%nat ->
  agree n (parseComparison fuel1) (parseComparison fuel2).
Proof.
  intros H1 H2. unfold parseComparison.
  apply agree_bind;
    [by apply agree_parseValue | eapply sound_bounded, sound_parseValue |].
  intros left.
  apply agree_bind;
    [apply agree_refl | eapply sound_bounded; by apply sound_token |].
  intros raw.
  apply agree_bind;
    [apply agree_refl
    | eapply sound_bounded; by apply (sound_captured (fun _ => True)) |].
  intros op.
  apply agree_bind;
    [by apply agree_parseValue | eapply sound_bounded, sound_parseValue |].
  intros right. apply agree_refl.
Qed.

Lemma agree_parseTerm (n fuel1 fuel2 : nat) (pb1 pb2 : parser booleanValue) :
  agree n pb1 pb2 -> bounded pb1 -> (n < fuel1)%nat -> (n < fuel2)%nat ->
  agree n (parseTerm pb1 fuel1) (parseTerm pb2 fuel2).
Proof.
  intros Hpb Hb H1 H2. unfold parseTerm.
  assert (Hadv : advances (parseOpAndBooleanValue pb1)).
  { unfold parseOpAndBooleanValue. apply advances_bind; [apply advances_token |].
    intros op ts r rest (v & mid & Hv & [<- ->]%ret_Match)%bind_Match.
    exact (Hb _ _ _ Hv). }
  apply agree_bind; [exact Hpb | exact Hb |]. intros left.
  apply agree_bind; [| by apply bounded_many | intros right; apply agree_refl].
  apply agree_many; [exact Hadv | | lia | lia].
  unfold parseOpAndBooleanValue.
  apply agree_bind_advances; [apply agree_refl | apply advances_token |].
  intros op m Hm. apply agree_bind; [| exact Hb | intros v; apply agree_refl].
  eapply agree_weaken; [| exact Hpb]. lia.
Qed.

Lemma bounded_parseTerm (fuel : nat) (pb : parser booleanValue) :
  bounded pb -> bounded (parseTerm pb fuel).
Proof.
  intros Hb ts t rest Hm. unfold parseTerm in Hm.
  apply bind_Match in Hm as (left & mid & Hleft & Hm).
  apply bind_Match in Hm as (right & mid' & Hright & [<- ->]%ret_Match).
  pose proof (Hb _ _ _ Hleft) as Hlen.
  apply bounded_many in Hright; [lia |].
  unfold parseOpAndBooleanValue. apply advances_bind; [apply advances_token |].
  intros op ts' r rest' (v & mid0 & Hv & [<- ->]%ret_Match)%bind_Match.
  exact (Hb _ _ _ Hv).
Qed.

Lemma agree_parseBooleanExpressionWith (n fuel1 fuel2 : nat)
    (pb1 pb2 : parser booleanValue) :
  agree n pb1 pb2 -> bounded pb1 -> (n < fuel1)%nat -> (n < fuel2)%nat ->
  agree n (parseBooleanExpressionWith pb1 fuel1)
          (parseBooleanExpressionWith pb2 fuel2).
Proof.
  intros Hpb Hb H1 H2. unfold parseBooleanExpressionWith.
  assert (Hadv : advances (parseOpOrTerm pb1 fuel1)).
  { unfold parseOpOrTerm. apply advances_bind; [apply advances_token |].
    intros op ts r rest (t & mid & Ht & [<- ->]%ret_Match)%bind_Match.
    exact (bounded_parseTerm _ _ Hb _ _ _ Ht). }
  apply agree_bind; [by apply agree_parseTerm | by apply bounded_parseTerm |].
  intros left.
  apply agree_bind; [| by apply bounded_many | intros right; apply agree_refl].
  apply agree_many; [exact Hadv | | lia | lia].
  unfold parseOpOrTerm.
  apply agree_bind_advances; [apply agree_refl | apply advances_token |].
  intros op m Hm. apply agree_bind.
  - apply agree_parseTerm; [| exact Hb | lia | lia].
    eapply agree_weaken; [| exact Hpb]. lia.
  - by apply bounded_parseTerm.
  - intros t. apply agree_refl.
Qed.

Lemma agree_parseBooleanValueFuel (n : nat) :
  forall fuel1 fuel2,
    (n < fuel1)%nat -> (n < fuel2)%nat ->
    agree n (parseBooleanValueFuel fuel1) (parseBooleanValueFuel fuel2).
Proof.
  induction n as [n IH] using lt_wf_ind. intros fuel1 fuel2 H1 H2.
  destruct fuel1 as [| fuel1]; [lia |]. destruct fuel2 as [| fuel2]; [lia |].
  cbn [parseBooleanValueFuel].
  apply agree_orElse; [| apply agree_orElse; [apply agree_refl |]].
  - apply agree_bind; [by apply agree_parseComparison | | intros c; apply agree_refl].
    eapply sound_bounded, sound_parseComparison.
  - apply agree_bind_advances; [apply agree_refl | apply advances_literal |].
    intros _ m Hm. apply agree_bind.
    + apply agree_parseBooleanExpressionWith; [| | lia | lia].
      * apply IH; lia.
      * eapply sound_bounded, sound_parseBooleanValueFuel.
    + eapply sound_bounded, sound_parseBooleanExpressionWith,
        sound_parseBooleanValueFuel.
    + intros e. apply agree_refl.
Qed.

(** The parsers of the nonterminals give what any fuel above the number
    of tokens gives. *)
Lemma parseValue_fuel (fuel : nat) (ts : list Token) :
  (length ts < fuel)%nat -> parseValue fuel ts = parseValue (S (length ts)) ts.
Proof. intros Hf. apply (agree_parseValue (length ts)); lia. Qed.

Lemma parseBooleanValue_fuel (fuel : nat) (ts : list Token) :
  (length ts < fuel)%nat -> parseBooleanValueFuel fuel ts = parseBooleanValue ts.
Proof. intros Hf. apply (agree_parseBooleanValueFuel (length ts)); lia. Qed.

Lemma parseBooleanExpression_fuel (fuel : nat) (ts : list Token) :
  (length ts < fuel)%nat ->
  parseBooleanExpressionWith (parseBooleanValueFuel fuel) fuel ts
  = parseBooleanExpression ts.
Proof.
  intros Hf. apply (agree_parseBooleanExpressionWith (length ts)); [| | lia | lia | lia].
  - apply agree_parseBooleanValueFuel; lia.
  - eapply sound_bounded, sound_parseBooleanValueFuel.
Qed.

(** *** Extending the input behind a match *)

Lemma follows_app_cons (allowed : Token -> bool) (tok : Token)
    (ts more : list Token) :
  follows allowed ((tok :: ts) ++ more) = allowed tok.
Proof. reflexivity. Qed.

Lemma follows_impl (S S' : Token -> bool) (ts : list Token) :
  (forall tok, S tok = true -> S' tok = true) ->
  follows S ts = true -> follows S' ts = true.
Proof. intros HS. destruct ts as [| tok ts]; [done | apply HS]. Qed.

Lemma extends_impl {A} (S S' : Token -> bool) (p : parser A) :
  (forall tok, S' tok = true -> S tok = true) -> extends S p -> extends S' p.
Proof.
  intros HS Hp ts a rest more Hm Hf. apply Hp; [exact Hm |].
  by apply (follows_impl S').
Qed.

Lemma extends_ret {A} (S : Token -> bool) (a : A) : extends S (ret a).
Proof. by intros ts b rest more [-> ->]%ret_Match _. Qed.

Lemma extends_token (S : Token -> bool) (k : TokenKind) : extends S (token k).
Proof.
  intros ts x rest more (tok & -> & Hk & ->)%token_Match _.
  apply token_Match. eauto.
Qed.

Lemma extends_literal (S : Token -> bool) (k : TokenKind) (s : string) :
  extends S (literal k s).
Proof.
  intros ts x rest more (tok & -> & Hk & Hs & ->)%literal_Match _.
  apply literal_Match. exists tok. eauto.
Qed.

Lemma extends_converted {A} (S : Token -> bool) (c : A + error_value) :
  extends S (converted c).
Proof.
  intros ts a rest more [-> ->]%converted_Match _. by apply converted_Match.
Qed.

Lemma extends_captured {A} (S : Token -> bool) (c : go (A * error)) :
  extends S (captured c).
Proof.
  intros ts a rest more [-> ->]%captured_Match _. by apply captured_Match.
Qed.

(** A sequence extends when its parts do and what the second part took
    is allowed behind the first. *)
Lemma extends_bind {A B} (Sp S : Token -> bool) (p : parser A)
    (k : A -> parser B) :
  extends Sp p -> (forall a, extends S (k a)) ->
  (forall a mid b rest more,
      k a mid = Match b rest -> follows S (rest ++ more) = true ->
      follows Sp (mid ++ more) = true) ->
  extends S (bind p k).
Proof.
  intros Hp Hk Hbridge ts b rest more (a & mid & Hpa & Hka)%bind_Match Hf.
  apply bind_Match. exists a, (mid ++ more)%list. split.
  - apply Hp; [exact Hpa |]. by apply (Hbridge a mid b rest more).
  - by apply Hk.
Qed.

Lemma extends_bind_free {A B} (S : Token -> bool) (p : parser A)
    (k : A -> parser B) :
  extends (fun _ => true) p -> (forall a, extends S (k a)) -> extends S (bind p k).
Proof.
  intros Hp Hk. apply (extends_bind (fun _ => true)); [exact Hp | exact Hk |].
  intros a mid b rest more _ _. by destruct (mid ++ more)%list.
Qed.

Lemma refuses_token (k : TokenKind) :
  refuses (fun tok => negb (isKind k tok)) (token k).
Proof.
  intros [| tok ts] Hf; [reflexivity |]. cbn in Hf. unfold token.
  by destruct (isKind k tok).
Qed.

Lemma refuses_literal (k : TokenKind) (s : string) :
  refuses (fun tok => negb (isLit k s tok)) (literal k s).
Proof.
  intros [| tok ts] Hf; [reflexivity |]. cbn in Hf. unfold literal.
  by destruct (isLit k s tok).
Qed.

Lemma refuses_bind {A B} (S : Token -> bool) (p : parser A) (k : A -> parser B) :
  refuses S p -> refuses S (bind p k).
Proof. intros Hp ts Hf. unfold bind. by rewrite (Hp ts Hf). Qed.

Lemma refuses_impl {A} (S S' : Token -> bool) (p : parser A) :
  (forall tok, S' tok = true -> S tok = true) -> refuses S p -> refuses S' p.
Proof. intros HS Hp ts Hf. apply Hp. by apply (follows_impl S'). Qed.

Lemma separated_token {B} (k : TokenKind) (c : string -> parser B) :
  separated (isKind k) (bind (token k) c).
Proof.
  intros ts b rest (x & mid & (tok & -> & Hk & ->)%token_Match & _)%bind_Match.
  exists tok, mid. split; [reflexivity |]. unfold isKind. by apply bool_decide_eq_true_2.
Qed.

Lemma separated_literal {B} (k : TokenKind) (s : string) (c : string -> parser B) :
  separated (isLit k s) (bind (literal k s) c).
Proof.
  intros ts b rest
    (x & mid & (tok & -> & Hk & Hs & ->)%literal_Match & _)%bind_Match.
  exists tok, mid. split; [reflexivity |]. unfold isLit, isKind.
  rewrite bool_decide_eq_true_2 by done. rewrite Hs. apply String.eqb_refl.
Qed.

(** A repetition of groups extends: behind a group comes a separator or
    what is allowed behind the repetition. *)
Lemma extends_many {A} (sep Sel S : Token -> bool) (p : parser A) (fuel : nat) :
  extends Sel p -> separated sep p ->
  refuses (fun tok => negb (sep tok)) p ->
  (forall tok, sep tok = true -> Sel tok = true) ->
  (forall tok, S tok = true -> Sel tok = true) ->
  (forall tok, S tok = true -> sep tok = false) ->
  extends S (many fuel p).
Proof.
  intros Hp Hsep Href HsepSel HSSel HSsep.
  induction fuel as [| fuel IH]; intros ts l rest more Hm Hf; [discriminate |].
  apply many_S_Match in Hm as [(a & mid & l' & Hpa & Hrec & ->) | (Hno & -> & ->)];
    apply many_S_Match.
  - left. exists a, (mid ++ more)%list, l'. split; [| split; [| reflexivity]].
    + apply Hp; [exact Hpa |].
      destruct fuel as [| fuel]; [discriminate |].
      apply many_S_Match in Hrec
        as [(a' & mid' & l'' & Hpa' & _ & _) | (_ & _ & ->)].
      * destruct (Hsep _ _ _ Hpa') as (tok & ts' & -> & Htok).
        cbn. by apply HsepSel.
      * by apply (follows_impl S).
    + by apply IH.
  - right. split; [| done]. apply Href.
    destruct (ts ++ more)%list as [| tok l]; [reflexivity |].
    cbn in *. by rewrite HSsep.
Qed.

(** A first element and then a repetition of separated groups. *)
Lemma extends_first_many {A B C} (sep Sel S : Token -> bool) (p0 : parser A)
    (p : parser B) (fuel : nat) (f : A -> list B -> C) :
  extends Sel p0 -> extends Sel p -> separated sep p ->
  refuses (fun tok => negb (sep tok)) p ->
  (forall tok, sep tok = true -> Sel tok = true) ->
  (forall tok, S tok = true -> Sel tok = true) ->
  (forall tok, S tok = true -> sep tok = false) ->
  extends S (bind p0 (fun a => bind (many fuel p) (fun l => ret (f a l)))).
Proof.
  intros Hp0 Hp Hsep Href HsepSel HSSel HSsep.
  apply (extends_bind Sel); [exact Hp0 | |].
  - intros a. apply (extends_bind S);
      [by apply (extends_many sep Sel) | intros l; apply extends_ret |].
    by intros l mid c rest more [_ ->]%ret_Match Hf.
  - intros a mid c rest more (l & mid' & Hm & [_ ->]%ret_Match)%bind_Match Hf.
    destruct fuel as [| fuel]; [discriminate |].
    apply many_S_Match in Hm as [(b & mid'' & l' & Hpb & _ & _) | (_ & _ & ->)].
    + destruct (Hsep _ _ _ Hpb) as (tok & ts' & -> & Htok).
      cbn. by apply HsepSel.
    + by apply (follows_impl S).
Qed.

Lemma extends_optional {A} (S : Token -> bool) (p : parser A) :
  extends S p -> refuses S p -> extends S (optional p).
Proof.
  intros Hp Href ts o rest more
    [(a & -> & Hm) | (-> & Hno & ->)]%optional_Match Hf; apply optional_Match.
  - left. exists a. split; [reflexivity | by apply Hp].
  - right. split; [reflexivity | split; [by apply Href | reflexivity]].
Qed.

Lemma extends_orElse {A} (S : Token -> bool) (p q : parser A) :
  headed p -> q [] = NoMatch -> extends S p -> extends S q ->
  extends S (orElse p q).
Proof.
  intros Hhead Hnil Hp Hq ts a rest more [Hm | [Hno Hm]]%orElse_Match Hf;
    apply orElse_Match.
  - left. by apply Hp.
  - right. destruct ts as [| tok ts]; [congruence |].
    split; [exact (Hhead tok ts (ts ++ more)%list Hno) | by apply Hq].
Qed.

Lemma headed_token {B} (k : TokenKind) (c : string -> parser B) :
  (forall raw ts, c raw ts <> NoMatch) -> headed (bind (token k) c).
Proof.
  intros Hc tok ts ts'. unfold bind, token.
  destruct (isKind k tok); [| done].
  intros Hno. by destruct (Hc (text tok) ts).
Qed.

Lemma headed_literal {B} (k : TokenKind) (s : string) (c : string -> parser B) :
  (forall raw ts, c raw ts <> NoMatch) -> headed (bind (literal k s) c).
Proof.
  intros Hc tok ts ts'. unfold bind, literal.
  destruct (isLit k s tok); [| done].
  intros Hno. by destruct (Hc (text tok) ts).
Qed.

Lemma captured_ret_matches {A B} (c : go (A * error)) (f : A -> B) ts :
  bind (captured c) (fun a => ret (f a)) ts <> NoMatch.
Proof. unfold bind, captured, ret. by destruct c as [[a [e |]] | m]. Qed.

Lemma converted_ret_matches {A B} (c : A + error_value) (f : A -> B) ts :
  bind (converted c) (fun a => ret (f a)) ts <> NoMatch.
Proof. unfold bind, converted, ret. by destruct c. Qed.

(** Facts about the kinds and texts of tokens. *)
Lemma isKind_true (k : TokenKind) (tok : Token) : isKind k tok = true <-> kind tok = k.
Proof. unfold isKind. apply bool_decide_eq_true. Qed.

Lemma isKind_other (k k' : TokenKind) (tok : Token) :
  kind tok = k -> k <> k' -> isKind k' tok = false.
Proof. intros Hk Hne. unfold isKind. apply bool_decide_eq_false_2. congruence. Qed.

Lemma isLit_kind (k : TokenKind) (s : string) (tok : Token) :
  isLit k s tok = true -> kind tok = k /\ text tok = s.
Proof.
  unfold isLit. intros [Hk Hs]%andb_true_iff.
  split; [by apply isKind_true | by apply String.eqb_eq].
Qed.

Lemma isLit_other_text (k k' : TokenKind) (s s' : string) (tok : Token) :
  isLit k s tok = true -> s <> s' -> isLit k' s' tok = false.
Proof.
  intros [_ Hs]%isLit_kind Hne. unfold isLit.
  apply andb_false_iff. right. apply String.eqb_neq. congruence.
Qed.

Lemma isLit_other_kind (k k' : TokenKind) (s : string) (tok : Token) :
  kind tok = k -> k <> k' -> isLit k' s tok = false.
Proof. intros Hk Hne. unfold isLit. by rewrite (isKind_other k k'). Qed.

Lemma isName_kind (tok : Token) :
  isName tok = true <-> kind tok = Uppercase \/ kind tok = Lowercase.
Proof. unfold isName. rewrite orb_true_iff, !isKind_true. tauto. Qed.

Lemma isName_other (k : TokenKind) (tok : Token) :
  kind tok = k -> k <> Uppercase -> k <> Lowercase -> isName tok = false.
Proof.
  intros Hk H1 H2. unfold isName.
  by rewrite (isKind_other k Uppercase), (isKind_other k Lowercase).
Qed.

(** *** Extending behind the nonterminals of values *)

Lemma extends_parseMapKey (S : Token -> bool) : extends S parseMapKey.
Proof.
  unfold parseMapKey.
  apply extends_bind_free; [apply extends_literal | intros _].
  apply extends_bind_free; [apply extends_token | intros raw].
  apply extends_bind_free; [apply extends_literal | intros _].
  apply extends_converted.
Qed.

Lemma extends_parseField : extends afterField parseField.
Proof.
  unfold parseField.
  apply extends_bind_free; [apply extends_token | intros name].
  apply (extends_bind afterField).
  - apply extends_optional; [apply extends_parseMapKey |].
    unfold parseMapKey. apply refuses_bind, refuses_literal.
  - intros mapKey. apply extends_ret.
  - by intros mapKey mid f rest more [_ ->]%ret_Match Hf.
Qed.

Lemma extends_parsePath (fuel : nat) : extends afterPath (parsePath fuel).
Proof.
  unfold parsePath.
  apply (extends_first_many (isLit Punct ".") afterField afterPath).
  - apply extends_parseField.
  - apply extends_bind_free; [apply extends_literal | intros _].
    apply extends_parseField.
  - apply separated_literal.
  - apply refuses_bind, refuses_literal.
  - intros tok Htok. unfold afterField.
    by rewrite (isLit_other_text Punct Punct "." "[" tok Htok).
  - unfold afterPath, afterField. by intros tok [H1 _]%andb_true_iff.
  - unfold afterPath. intros tok [_ H2]%andb_true_iff.
    by apply negb_true_iff.
Qed.

Lemma nameTokens_app (ts more : list Token) :
  follows afterFunction (snd (nameTokens ts) ++ more) = true ->
  nameTokens (ts ++ more) = (fst (nameTokens ts), (snd (nameTokens ts) ++ more)%list).
Proof.
  induction ts as [| tok ts IH]; intros Hf.
  - cbn in *. destruct more as [| tok more]; [reflexivity |].
    cbn in Hf. unfold afterFunction in Hf. cbn [nameTokens].
    by destruct (isName tok).
  - cbn [nameTokens app] in *. destruct (isName tok) eqn:Hname; cbn [fst snd] in *.
    + by rewrite (IH Hf).
    + reflexivity.
Qed.

Lemma extends_parseFunction : extends afterFunction parseFunction.
Proof.
  intros ts name rest more Hm Hf. unfold parseFunction in *.
  destruct ts as [| tok ts]; [discriminate |].
  destruct (isName tok) eqn:Hname; [| discriminate].
  injection Hm as <- <-.
  change ((tok :: ts) ++ more)%list with (tok :: (ts ++ more))%list.
  rewrite Hname.
  change (tok :: (ts ++ more))%list with ((tok :: ts) ++ more)%list.
  rewrite (nameTokens_app (tok :: ts) more Hf).
  rewrite Hname. cbn [nameTokens]. by rewrite Hname.
Qed.

Lemma afterValue_RParen (tok : Token) : isKind RParen tok = true -> afterValue tok = true.
Proof.
  intros Hk%isKind_true. unfold afterValue.
  rewrite (isName_other RParen), (isKind_other RParen LParen),
    (isKind_other RParen Punct); done.
Qed.

Lemma extends_parseArguments (parseValue : parser value) (fuel : nat) :
  extends afterValue parseValue -> refuses (isKind RParen) parseValue ->
  extends (isKind RParen) (parseArguments parseValue fuel).
Proof.
  intros Hv Href. unfold parseArguments.
  apply (extends_bind (isKind RParen)).
  - apply extends_optional.
    + apply (extends_first_many (isLit Punct ",") afterValue (isKind RParen)).
      * exact Hv.
      * apply extends_bind_free; [apply extends_literal | by intros _].
      * apply separated_literal.
      * apply refuses_bind, refuses_literal.
      * intros tok Htok. unfold afterValue. rewrite Htok. apply orb_true_r.
      * apply afterValue_RParen.
      * intros tok Hk%isKind_true. by apply (isLit_other_kind RParen).
    + by apply refuses_bind.
  - intros o. apply extends_ret.
  - by intros o mid l rest more [_ ->]%ret_Match Hf.
Qed.

Lemma extends_parseInvocation (S : Token -> bool) (parseValue : parser value)
    (fuel : nat) :
  extends afterValue parseValue -> refuses (isKind RParen) parseValue ->
  extends S (parseInvocation parseValue fuel).
Proof.
  intros Hv Href. unfold parseInvocation.
  apply (extends_bind afterFunction); [apply extends_parseFunction | |].
  - intros fn. apply extends_bind_free; [apply extends_literal | intros _].
    apply (extends_bind (isKind RParen));
      [by apply extends_parseArguments | |].
    + intros args. apply extends_bind_free; [apply extends_literal | intros _].
      apply extends_ret.
    + intros args mid i rest more Hm _. parse_inv.
      cbn. by apply isKind_true.
  - intros fn mid i rest more Hm _.
    apply bind_Match in Hm as (x & mid' & (tok & -> & Hk & _)%literal_Match & _).
    cbn. unfold afterFunction. by rewrite (isName_other LParen).
Qed.

Lemma afterValue_cases (tok : Token) :
  afterValue tok = true ->
  (isName tok = false /\ isKind LParen tok = false /\ isKind Punct tok = false)
  \/ isLit Punct "," tok = true.
Proof.
  unfold afterValue. intros [H | H]%orb_true_iff; [left | by right].
  apply andb_true_iff in H as [[H1 H2]%andb_true_iff H3].
  by rewrite !negb_true_iff in *.
Qed.

Lemma afterValue_afterPath (tok : Token) : afterValue tok = true -> afterPath tok = true.
Proof.
  intros [(_ & _ & Hp) | Hc]%afterValue_cases; unfold afterPath, isLit.
  - by rewrite Hp.
  - fold (isLit Punct "[" tok). fold (isLit Punct "." tok).
    by rewrite (isLit_other_text Punct Punct "," "["),
      (isLit_other_text Punct Punct "," ".").
Qed.

Lemma afterValue_notName (tok : Token) :
  afterValue tok = true -> notNameNotLParen tok = true.
Proof.
  unfold notNameNotLParen.
  intros [(Hn & Hl & _) | [Hk _]%isLit_kind]%afterValue_cases.
  - by rewrite Hn, Hl.
  - by rewrite (isName_other Punct), (isKind_other Punct LParen).
Qed.

Lemma Punct_notName (tok : Token) : kind tok = Punct -> notNameNotLParen tok = true.
Proof.
  intros Hk. unfold notNameNotLParen.
  by rewrite (isName_other Punct), (isKind_other Punct LParen).
Qed.

Lemma extends_parseLeaf (fuel : nat) : extends afterValue (parseLeaf fuel).
Proof.
  unfold parseLeaf.
  repeat (apply extends_orElse;
          [first [apply headed_token | apply headed_literal]; intros raw ts;
           first [apply captured_ret_matches | apply converted_ret_matches | done]
          | reflexivity
          | apply extends_bind_free;
            [first [apply extends_token | apply extends_literal] | intros raw];
            first [apply extends_ret
                  | apply extends_bind_free;
                    [first [apply extends_captured | apply extends_converted]
                    | intros x; apply extends_ret]]
          |]).
  apply (extends_bind afterPath); [apply extends_parsePath | |].
  - intros p. apply extends_ret.
  - intros p mid v rest more [_ ->]%ret_Match Hf.
    exact (follows_impl _ _ _ afterValue_afterPath Hf).
Qed.

Lemma startsValue_false (tok : Token) :
  startsValue tok = false ->
  isName tok = false /\ isKind Uppercase tok = false /\ isKind Lowercase tok = false
  /\ isKind Bytes tok = false /\ isKind String_ tok = false
  /\ isKind Float tok = false /\ isKind Int tok = false
  /\ isKind Boolean tok = false.
Proof.
  unfold startsValue, isName. rewrite !orb_false_iff. tauto.
Qed.

Lemma refuses_parseValue (fuel : nat) :
  refuses (fun tok => negb (startsValue tok)) (parseValue fuel).
Proof.
  destruct fuel as [| fuel]; [done |].
  intros [| tok ts] Hf; [reflexivity |].
  cbn in Hf. apply negb_true_iff, startsValue_false in Hf
    as (Hn & Hu & Hl & Hb & Hs & Hfl & Hi & Hbo).
  cbn [parseValue].
  unfold orElse, bind, parseInvocation, bind, parseFunction. rewrite Hn.
  unfold parseLeaf, orElse, bind, token, literal, isLit, parsePath, bind,
    parseField, bind, token.
  by rewrite Hu, Hl, Hb, Hs, Hfl, Hi, Hbo.
Qed.

Lemma refuses_parseValue_RParen (fuel : nat) :
  refuses (isKind RParen) (parseValue fuel).
Proof.
  eapply refuses_impl; [| apply refuses_parseValue].
  intros tok Hk%isKind_true. apply negb_true_iff. unfold startsValue.
  by rewrite (isName_other RParen), !(isKind_other RParen).
Qed.

Lemma nameTokens_stop (ts : list Token) :
  follows afterFunction ts = true -> nameTokens ts = (EmptyString, ts).
Proof.
  destruct ts as [| tok ts]; [reflexivity |]. cbn. unfold afterFunction.
  intros Hn%negb_true_iff. by rewrite Hn.
Qed.

(** A name that is followed by neither a name nor a parenthesis starts no
    invocation. *)
Lemma parseInvocation_NoMatch (parseValue : parser value) (fuel : nat)
    (tok : Token) (ts : list Token) :
  follows notNameNotLParen ts = true ->
  parseInvocation parseValue fuel (tok :: ts) = NoMatch.
Proof.
  intros Hf. unfold parseInvocation, bind, parseFunction.
  destruct (isName tok) eqn:Hname; [| reflexivity].
  cbn [nameTokens]. rewrite Hname.
  rewrite nameTokens_stop.
  - cbn [fst snd]. rewrite (refuses_literal LParen "(" ts); [reflexivity |].
    eapply follows_impl; [| exact Hf].
    intros t [_ Hl]%andb_true_iff. unfold isLit.
    apply negb_true_iff in Hl. by rewrite Hl.
  - eapply follows_impl; [| exact Hf]. by intros t [Hn _]%andb_true_iff.
Qed.

(** What follows the first token of a leaf value. *)
Lemma parseLeaf_next (fuel : nat) ts v rest more :
  parseLeaf fuel ts = Match v rest ->
  follows afterValue (rest ++ more) = true ->
  exists tok ts1, ts = tok :: ts1 /\ follows notNameNotLParen (ts1 ++ more) = true.
Proof.
  intros Hm Hf.
  assert (Hone : follows notNameNotLParen (rest ++ more) = true)
    by exact (follows_impl _ _ _ afterValue_notName Hf).
  unfold parseLeaf in Hm.
  repeat (apply orElse_Match in Hm as [Hm | [_ Hm]];
          [parse_inv; eauto |]).
  apply bind_Match in Hm as (p & mid & Hp & [_ ->]%ret_Match).
  unfold parsePath in Hp.
  apply bind_Match in Hp as (f & mid & Hfield & Hp).
  apply bind_Match in Hp as (fs & mid' & Hmany & [_ ->]%ret_Match).
  unfold parseField in Hfield.
  apply bind_Match in Hfield as (name & mid0 & (tok & -> & _)%token_Match & Hk).
  apply bind_Match in Hk as (mapKey & mid1 & Hkey & [_ ->]%ret_Match).
  exists tok, mid0. split; [reflexivity |].
  apply optional_Match in Hkey as [(k & -> & Hkey) | (-> & _ & ->)].
  - unfold parseMapKey in Hkey.
    apply bind_Match in Hkey as (x & m & (t & -> & Hkind & _)%literal_Match & _).
    cbn. by apply Punct_notName.
  - destruct fuel as [| fuel]; [discriminate |].
    apply many_S_Match in Hmany as [(a & m & l' & Hel & _ & _) | (_ & _ & ->)].
    + apply bind_Match in Hel as (x & m' & (t & -> & Hkind & _)%literal_Match & _).
      cbn. by apply Punct_notName.
    + exact Hone.
Qed.

Lemma extends_parseValue (fuel : nat) : extends afterValue (parseValue fuel).
Proof.
  induction fuel as [| fuel IH]; [intros ts v rest more Hm; discriminate |].
  intros ts v rest more Hm Hf. cbn [parseValue] in *.
  apply orElse_Match in Hm as [Hm | [Hno Hm]]; apply orElse_Match.
  - left. revert Hm Hf. revert ts v rest more.
    change (extends afterValue
              (bind (parseInvocation (parseValue fuel) fuel)
                 (fun i => ret (mkValue (Some i) None None None None None None
                                  None None)))).
    apply extends_bind_free; [| intros i; apply extends_ret].
    apply extends_parseInvocation; [exact IH | apply refuses_parseValue_RParen].
  - right. split; [| by apply extends_parseLeaf].
    destruct (parseLeaf_next _ _ _ _ more Hm Hf) as (tok & ts1 & -> & Hnext).
    unfold bind. cbn [app]. by rewrite parseInvocation_NoMatch.
Qed.

Lemma afterBooleanValue_cases (tok : Token) :
  afterBooleanValue tok = true ->
  kind tok = OpAnd \/ kind tok = OpOr \/ kind tok = RParen.
Proof.
  unfold afterBooleanValue. rewrite !orb_true_iff.
  intros [[H | H] | H]; apply isKind_true in H; tauto.
Qed.

Lemma afterBooleanValue_afterValue (tok : Token) :
  afterBooleanValue tok = true -> afterValue tok = true.
Proof.
  intros [Hk | [Hk | Hk]]%afterBooleanValue_cases; unfold afterValue;
    by rewrite (isName_other _ tok Hk), (isKind_other _ LParen tok Hk),
      (isKind_other _ Punct tok Hk).
Qed.

Lemma extends_parseComparison (fuel : nat) :
  extends afterValue (parseComparison fuel).
Proof.
  unfold parseComparison.
  apply (extends_bind afterValue); [apply extends_parseValue | |].
  - intros left. apply extends_bind_free; [apply extends_token | intros raw].
    apply extends_bind_free; [apply extends_captured | intros op].
    apply (extends_bind afterValue); [apply extends_parseValue | |].
    + intros right. apply extends_ret.
    + by intros right mid c rest more [_ ->]%ret_Match Hf.
  - intros left mid c rest more Hm _.
    apply separated_token in Hm as (tok & ts' & -> & Hk%isKind_true).
    cbn. unfold afterValue.
    by rewrite (isName_other _ tok Hk), (isKind_other _ LParen tok Hk),
      (isKind_other _ Punct tok Hk).
Qed.

Lemma refuses_parseComparison (fuel : nat) :
  refuses (fun tok => negb (startsValue tok)) (parseComparison fuel).
Proof. apply refuses_bind, refuses_parseValue. Qed.

Section Precedence.

Variable parseBooleanValue : parser booleanValue.
Hypothesis extends_parseBooleanValue : extends afterBooleanValue parseBooleanValue.

Lemma extends_parseOpAndBooleanValue :
  extends afterBooleanValue (parseOpAndBooleanValue parseBooleanValue).
Proof.
  unfold parseOpAndBooleanValue.
  apply extends_bind_free; [apply extends_token | intros operator].
  apply (extends_bind afterBooleanValue); [exact extends_parseBooleanValue | |].
  - intros v. apply extends_ret.
  - by intros v mid c rest more [_ ->]%ret_Match Hf.
Qed.

Lemma extends_parseTerm (fuel : nat) :
  extends afterTerm (parseTerm parseBooleanValue fuel).
Proof.
  unfold parseTerm.
  apply (extends_first_many (isKind OpAnd) afterBooleanValue afterTerm).
  - exact extends_parseBooleanValue.
  - apply extends_parseOpAndBooleanValue.
  - apply separated_token.
  - apply refuses_bind, refuses_token.
  - intros tok Hk. unfold afterBooleanValue. by rewrite Hk.
  - intros tok Hk. unfold afterTerm in Hk. unfold afterBooleanValue.
    apply orb_true_iff in Hk as [-> | ->]; by rewrite ?orb_true_r.
  - intros tok Hk. unfold afterTerm in Hk.
    apply orb_true_iff in Hk as [Hk%isKind_true | Hk%isKind_true];
      by rewrite (isKind_other _ OpAnd tok Hk).
Qed.

Lemma extends_parseOpOrTerm (fuel : nat) :
  extends afterTerm (parseOpOrTerm parseBooleanValue fuel).
Proof.
  unfold parseOpOrTerm.
  apply extends_bind_free; [apply extends_token | intros operator].
  apply (extends_bind afterTerm); [apply extends_parseTerm | |].
  - intros t. apply extends_ret.
  - by intros t mid c rest more [_ ->]%ret_Match Hf.
Qed.

Lemma extends_parseBooleanExpressionWith (fuel : nat) :
  extends afterBooleanExpression (parseBooleanExpressionWith parseBooleanValue fuel).
Proof.
  unfold parseBooleanExpressionWith.
  apply (extends_first_many (isKind OpOr) afterTerm afterBooleanExpression).
  - apply extends_parseTerm.
  - apply extends_parseOpOrTerm.
  - apply separated_token.
  - apply refuses_bind, refuses_token.
  - intros tok Hk. unfold afterTerm. by rewrite Hk.
  - intros tok Hk. unfold afterBooleanExpression in Hk. unfold afterTerm.
    by rewrite Hk, orb_true_r.
  - intros tok Hk%isKind_true. by rewrite (isKind_other _ OpOr tok Hk).
Qed.

End Precedence.

(** A boolean literal that no comparison operator follows is no comparison. *)
Lemma parseComparison_Boolean (fuel : nat) (tok : Token) (ts more : list Token) :
  kind tok = Boolean ->
  parseComparison fuel (tok :: ts) = NoMatch ->
  follows afterBooleanValue (ts ++ more) = true ->
  parseComparison fuel (tok :: ts ++ more) = NoMatch.
Proof.
  intros Hk Hno Hf. unfold parseComparison, bind in *.
  destruct fuel as [| fuel]; [reflexivity |].
  cbn [parseValue] in *.
  unfold orElse, bind, parseInvocation, bind, parseFunction in *.
  rewrite (isName_other _ tok Hk) in * by done.
  unfold parseLeaf, orElse, bind, token in *.
  rewrite (isKind_other _ Bytes tok Hk), (isKind_other _ String_ tok Hk),
    (isKind_other _ Float tok Hk), (isKind_other _ Int tok Hk) in * by done.
  rewrite (proj2 (isKind_true Boolean tok) Hk) in *.
  unfold captured, ret in *.
  destruct (boolean_Capture false [text tok]) as [[b [err |]] | msg];
    [done | | done].
  destruct (ts ++ more)%list as [| t l] eqn:Happ; [reflexivity |].
  cbn in Hf. apply afterBooleanValue_cases in Hf.
  rewrite (isKind_other (kind t) OpComparison t); [reflexivity | reflexivity |].
  destruct Hf as [-> | [-> | ->]]; done.
Qed.

Lemma extends_parseBooleanValueFuel (fuel : nat) :
  extends afterBooleanValue (parseBooleanValueFuel fuel).
Proof.
  induction fuel as [| fuel IH]; [intros ts v rest more Hm; discriminate |].
  intros ts v rest more Hm Hf. cbn [parseBooleanValueFuel] in *.
  apply orElse_Match in Hm as [Hm | [Hno Hm]]; apply orElse_Match.
  { left. revert ts v rest more Hm Hf.
    change (extends afterBooleanValue
              (bind (parseComparison (S fuel))
                 (fun c => ret (mkBooleanValue (Some c) None None)))).
    apply (extends_bind afterBooleanValue).
    - eapply extends_impl; [| apply extends_parseComparison].
      apply afterBooleanValue_afterValue.
    - intros c. apply extends_ret.
    - by intros c mid b rest more [_ ->]%ret_Match Hf. }
  right.
  apply orElse_Match in Hm as [Hm | [Hno' Hm]].
  - pose proof Hm as Hsep.
    apply separated_token in Hsep as (tok & ts' & -> & Hk%isKind_true).
    assert (Hrest : rest = ts').
    { apply bind_Match in Hm as (raw & mid & (t & [= <- <-] & _)%token_Match & Hm).
      apply bind_Match in Hm as (b & mid' & Hcap & [_ ->]%ret_Match).
      unfold captured in Hcap.
      by destruct (boolean_Capture false [raw]) as [[? [? |]] | ?];
        [| injection Hcap as _ <- |]. }
    split.
    + unfold bind in Hno |- *. cbn [app].
      destruct (parseComparison (S fuel) (tok :: ts')) as [c r | |] eqn:Hc;
        [discriminate | | discriminate].
      rewrite (parseComparison_Boolean (S fuel) tok ts' more Hk Hc); [done |].
      by rewrite <- Hrest.
    + clear Hrest. apply orElse_Match. left. revert Hm Hf. generalize (tok :: ts').
      intros ts Hm Hf. revert ts v rest more Hm Hf.
      change (extends afterBooleanValue
                (bind (token Boolean)
                   (fun raw => bind (captured (boolean_Capture false [raw]))
                      (fun b => ret (mkBooleanValue None (Some b) None))))).
      apply extends_bind_free; [apply extends_token | intros raw].
      apply extends_bind_free; [apply extends_captured | intros b].
      apply extends_ret.
  - pose proof Hm as Hsep.
    apply separated_literal in Hsep as (tok & ts' & -> & [Hk _]%isLit_kind).
    assert (Hstart : negb (startsValue tok) = true).
    { apply negb_true_iff. unfold startsValue.
      by rewrite (isName_other _ tok Hk), !(isKind_other _ _ tok Hk). }
    split.
    + unfold bind. cbn [app].
      by rewrite (refuses_parseComparison (S fuel) (tok :: ts' ++ more)).
    + apply orElse_Match. right. split.
      * unfold bind, token. cbn [app]. by rewrite (isKind_other _ Boolean tok Hk).
      * revert Hm Hf. generalize (tok :: ts').
        intros ts Hm Hf. revert ts v rest more Hm Hf.
        change (extends afterBooleanValue
                  (bind (literal LParen "(")
                     (fun _ => bind (parseBooleanExpressionWith
                                       (parseBooleanValueFuel fuel) fuel)
                        (fun e => bind (literal RParen ")")
                           (fun _ => ret (mkBooleanValue None None (Some e))))))).
        apply extends_bind_free; [apply extends_literal | intros _].
        apply (extends_bind afterBooleanExpression).
        -- by apply extends_parseBooleanExpressionWith.
        -- intros e. apply extends_bind_free; [apply extends_literal | intros _].
           apply extends_ret.
        -- intros e mid b rest more Hm _.
           apply separated_literal in Hm as (t & l & -> & [Ht _]%isLit_kind).
           by apply isKind_true.
Qed.

Lemma bind_intro {A B} (p : parser A) (k : A -> parser B) ts a mid :
  p ts = Match a mid -> bind p k ts = k a mid.
Proof. intros Hp. unfold bind. by rewrite Hp. Qed.

Lemma many_cons {A} (fuel : nat) (p : parser A) ts a mid l rest :
  p ts = Match a mid -> many fuel p mid = Match l rest ->
  many (S fuel) p ts = Match (a :: l) rest.
Proof. intros Hp Hm. cbn [many]. by rewrite Hp, Hm. Qed.

Lemma many_nil {A} (fuel : nat) (p : parser A) ts :
  p ts = NoMatch -> many (S fuel) p ts = Match [] ts.
Proof. intros Hp. cbn [many]. by rewrite Hp. Qed.

Lemma token_other {B} (k : TokenKind) (c : string -> parser B) (ts : list Token) :
  follows (fun tok => negb (isKind k tok)) ts = true ->
  bind (token k) c ts = NoMatch.
Proof. intros Hf. exact (refuses_bind _ _ c (refuses_token k) ts Hf). Qed.

(** C5: [or] binds looser than [and].  A booleanExpression is a term and a
    list of ([or], term) pairs, a term is a booleanValue and a list of
    ([and], booleanValue) pairs; for all token sequences that parse as the
    boolean values [A], [B] and [C], the input [A and B or C] parses as the
    expression whose left term is [A and B] and whose only [or] pair
    holds the term [C]: it groups as [(A and B) or C]. *)
Theorem or_binds_looser_than_and (tA tB tC : list Token) (A B C : booleanValue)
    (andTok orTok : Token) :
  kind andTok = OpAnd -> kind orTok = OpOr ->
  parseBooleanValue tA = Match A [] ->
  parseBooleanValue tB = Match B [] ->
  parseBooleanValue tC = Match C [] ->
  parseBooleanExpression (tA ++ andTok :: tB ++ orTok :: tC)%list
  = Match (mkBooleanExpression
             (mkTerm A [mkOpAndBooleanValue (text andTok) B])
             [mkOpOrTerm (text orTok) (mkTerm C [])]) [].
Proof.
  intros Hand Hor HA HB HC. unfold parseBooleanExpression.
  remember (length (tA ++ andTok :: tB ++ orTok :: tC)%list) as len eqn:Hlen.
  rewrite length_app in Hlen. cbn [length] in Hlen.
  rewrite length_app in Hlen. cbn [length] in Hlen.
  destruct len as [| [| n]]; [lia | lia |].
  set (pb := parseBooleanValueFuel (S (S (S n)))).
  assert (HandOk : afterBooleanValue andTok = true).
  { unfold afterBooleanValue. by rewrite (proj2 (isKind_true OpAnd andTok) Hand). }
  assert (HorOk : afterBooleanValue orTok = true).
  { unfold afterBooleanValue.
    by rewrite (proj2 (isKind_true OpOr orTok) Hor), orb_true_r. }
  assert (HA' : pb (tA ++ andTok :: tB ++ orTok :: tC)%list
                = Match A (andTok :: tB ++ orTok :: tC)%list).
  { apply (extends_parseBooleanValueFuel _ tA A [] _); [| exact HandOk].
    unfold pb. rewrite parseBooleanValue_fuel; [exact HA | lia]. }
  assert (HB' : pb (tB ++ orTok :: tC)%list = Match B (orTok :: tC)).
  { apply (extends_parseBooleanValueFuel _ tB B [] _); [| exact HorOk].
    unfold pb. rewrite parseBooleanValue_fuel; [exact HB | lia]. }
  assert (HC' : pb tC = Match C []).
  { unfold pb. rewrite parseBooleanValue_fuel; [exact HC | lia]. }
  assert (Hstop : forall fuel, many (S fuel) (parseOpAndBooleanValue pb) []
                               = Match [] []) by (intros fuel; by apply many_nil).
  unfold parseBooleanExpressionWith.
  rewrite (bind_intro _ _ _ (mkTerm A [mkOpAndBooleanValue (text andTok) B])
             (orTok :: tC)).
  - rewrite (bind_intro _ _ _ [mkOpOrTerm (text orTok) (mkTerm C [])] []);
      [reflexivity |].
    apply (many_cons _ _ _ _ []).
    + unfold parseOpOrTerm.
      rewrite (bind_intro _ _ _ (text orTok) tC)
        by (apply token_Match; eauto).
      rewrite (bind_intro _ _ _ (mkTerm C []) []); [reflexivity |].
      unfold parseTerm. rewrite (bind_intro _ _ _ C []) by exact HC'.
      by rewrite (bind_intro _ _ _ [] []) by apply Hstop.
    + by apply many_nil.
  - unfold parseTerm. rewrite (bind_intro _ _ _ _ _ HA').
    rewrite (bind_intro _ _ _ [mkOpAndBooleanValue (text andTok) B]
               (orTok :: tC)); [reflexivity |].
    apply (many_cons _ _ _ _ (orTok :: tC)).
    + unfold parseOpAndBooleanValue.
      rewrite (bind_intro _ _ _ (text andTok) (tB ++ orTok :: tC)%list)
        by (apply token_Match; eauto).
      by rewrite (bind_intro _ _ _ _ _ HB').
    + apply many_nil, token_other. cbn.
      by rewrite (isKind_other _ OpAnd orTok Hor).
Qed.

End Parser.

Import fixtures.

Lemma or_binds_looser_than_and_witness :
  parseBooleanExpression
    [mkToken Boolean "true"; mkToken OpAnd "and"; mkToken Boolean "false";
     mkToken OpOr "or"; mkToken Boolean "true"]
  = Match (mkBooleanExpression
             (mkTerm (mkBooleanValue None (Some true) None)
                [mkOpAndBooleanValue "and" (mkBooleanValue None (Some false) None)])
             [mkOpOrTerm "or" (mkTerm (mkBooleanValue None (Some true) None) [])])
      [].
Proof.
  apply (or_binds_looser_than_and
           [mkToken Boolean "true"] [mkToken Boolean "false"]
           [mkToken Boolean "true"] _ _ _
           (mkToken OpAnd "and") (mkToken OpOr "or")); reflexivity.
Defined.

(** The same on a statement: the [where] clause of
    [drop() where a == 1 and b == 2 or c == 3] has the term [a == 1 and b == 2]
    on the left and one [or] pair with the term [c == 3]. *)
Example precedence_on_text :
  exists i A B C,
    parseStatement "drop() where a == 1 and b == 2 or c == 3"
    = inl (mkParsedStatement i
             (Some (mkBooleanExpression
                      (mkTerm A [mkOpAndBooleanValue "and" B])
                      [mkOpOrTerm "or" (mkTerm C [])])))
    /\ (exists c, Comparison A = Some c /\ Op c = EQ)
    /\ (exists c, Comparison B = Some c /\ Op c = EQ)
    /\ (exists c, Comparison C = Some c /\ Op c = EQ).
Proof.
  do 4 eexists. split; [vm_compute; reflexivity |].
  repeat split; eexists; split; reflexivity.
Qed.

End ParserFacts.

(** ** The translation of [helper.go]: series, signatures, labels and
    data points *)
Module HelperFacts.
Import pcommon prometheusremotewrite helper.

Section Series.
Context `{!Float64} `{!Externals}.

(** X1: [addSample] with a non-nil map, sample and label slice returns
    the signature of the labels and appends the sample to the series of that
    signature, leaving the samples of every other series as they were; with
    a nil map, sample or label slice it returns the empty signature and the
    map it was given. *)
Theorem addSample_appends_one_sample (tsMap : TsMap) (sample : option Sample)
    (labels : option (list Label)) (datatype : string) :
  match tsMap, sample, labels with
  | Some _, Some smp, Some ls =>
      let sig := fst (timeSeriesSignature datatype ls) in
      snd (addSample tsMap sample labels datatype) = sig
      /\ forall s,
          samplesOf (fst (addSample tsMap sample labels datatype)) s
          = (samplesOf tsMap s ++ if decide (sig = s) then [smp] else [])%list
  | _, _, _ => addSample tsMap sample labels datatype = (tsMap, "")
  end.
Proof.
  destruct tsMap as [m |], sample as [smp |], labels as [ls |];
    try (by destruct sample); try reflexivity.
  destruct (RemoteWriteFacts.addSample_samples m smp ls datatype) as (m' & Hadd & Hm').
  cbv zeta. rewrite Hadd. split; [reflexivity |]. exact Hm'.
Qed.

(** X2: [addSample] adds no series but the one of its signature, keeps
    the labels and the exemplars of every series that was there, and
    creates a missing series with the sorted labels, the one sample and no
    exemplar. *)
Theorem addSample_keeps_series (m : gmap string TimeSeries) (smp : Sample)
    (ls : list Label) (datatype : string) :
  let sig := fst (timeSeriesSignature datatype ls) in
  exists m',
    fst (addSample (Some m) (Some smp) (Some ls) datatype) = Some m'
    /\ dom m' = dom m ∪ {[sig]}
    /\ (forall s ts, m !! s = Some ts ->
          exists ts', m' !! s = Some ts'
                      /\ Labels ts' = Labels ts /\ Exemplars ts' = Exemplars ts)
    /\ (m !! sig = None ->
        m' !! sig = Some (mkTimeSeries (sort_ByLabelName ls) (Some [smp]) [])).
Proof.
  cbv zeta. unfold addSample, timeSeriesSignature. cbn [fst snd].
  set (sig0 := fold_left _ _ _).
  destruct (m !! sig0) as [ts0 |] eqn:Hts; cbn [fst]; eexists; (split; [reflexivity |]).
  - split; [| split].
    + by rewrite dom_insert_L, (comm_L (∪)).
    + intros s ts Hs. destruct (decide (sig0 = s)) as [<- | Hne].
      * rewrite lookup_insert_eq. eexists. split; [reflexivity |].
        rewrite Hts in Hs. injection Hs as <-. done.
      * rewrite lookup_insert_ne by done. eauto.
    + discriminate.
  - split; [| split].
    + by rewrite dom_insert_L, (comm_L (∪)).
    + intros s ts Hs. destruct (decide (sig0 = s)) as [<- | Hne]; [congruence |].
      rewrite lookup_insert_ne by done. eauto.
    + intros _. by rewrite lookup_insert_eq.
Qed.

(** One exemplar: shared shape of the result. *)
Lemma addExemplar_find (m : gmap string TimeSeries)
    (bucketBounds : list bucketBoundsData) (exemplar : Exemplar) :
  addExemplar m bucketBounds exemplar
  = match List.find (eligible m (Exemplar_Value exemplar)) bucketBounds with
    | Some b =>
        match m !! sig b with
        | Some ts =>
            <[sig b := mkTimeSeries (Labels ts) (Samples ts)
                         (Exemplars ts ++ [exemplar])%list]> m
        | None => m
        end
    | None => m
    end.
Proof.
  induction bucketBounds as [| b rest IH]; [reflexivity |].
  cbn [addExemplar List.find]. unfold eligible at 1.
  destruct (m !! sig b) as [ts |] eqn:Hts; [| exact IH].
  destruct (Samples ts) as [smps |] eqn:Hsmps; [| exact IH].
  destruct (float64_le (Exemplar_Value exemplar) (bound b)); [| exact IH].
  by rewrite Hts, Hsmps.
Qed.

Lemma find_none_all {A} (f : A -> bool) (l : list A) :
  Forall (fun x => f x = false) l -> List.find f l = None.
Proof.
  induction 1 as [| x l Hx _ IH]; [reflexivity |]. cbn. by rewrite Hx.
Qed.

Lemma find_first {A} (f : A -> bool) (pre post : list A) (x : A) :
  Forall (fun y => f y = false) pre -> f x = true ->
  List.find f (pre ++ x :: post) = Some x.
Proof.
  induction 1 as [| y pre Hy _ IH]; intros Hx; cbn.
  - by rewrite Hx.
  - rewrite Hy. by apply IH.
Qed.

(** X4: [addExemplar] attaches the exemplar to one series at most: to the
    series of the first bucket, in the order given, whose series exists with
    non-nil samples and whose bound is not below the exemplar's value, at
    the end of that series' exemplars.  When no bucket is eligible the map
    is unchanged and the exemplar is dropped. *)
Theorem addExemplar_first_eligible_bucket (m : gmap string TimeSeries)
    (bucketBounds : list bucketBoundsData) (exemplar : Exemplar) :
  let v := Exemplar_Value exemplar in
  (Forall (fun b => eligible m v b = false) bucketBounds ->
   addExemplar m bucketBounds exemplar = m)
  /\ (forall pre b post,
        bucketBounds = (pre ++ b :: post)%list ->
        Forall (fun b' => eligible m v b' = false) pre ->
        eligible m v b = true ->
        exists ts,
          m !! sig b = Some ts
          /\ Samples ts <> None
          /\ float64_le v (bound b) = true
          /\ addExemplar m bucketBounds exemplar
             = <[sig b := mkTimeSeries (Labels ts) (Samples ts)
                            (Exemplars ts ++ [exemplar])%list]> m).
Proof.
  cbv zeta. split.
  - intros Hall. by rewrite addExemplar_find, find_none_all.
  - intros pre b post -> Hpre Hb.
    rewrite addExemplar_find, (find_first _ pre post b Hpre Hb).
    unfold eligible in Hb.
    destruct (m !! sig b) as [ts |]; [| discriminate].
    destruct (Samples ts) as [smps |] eqn:Hs; [| discriminate].
    exists ts. rewrite Hs. done.
Qed.

Lemma keeps_refl (m : gmap string TimeSeries) : keeps m m.
Proof. split; [reflexivity |]. intros s ts Hs. exists ts. done. Qed.

Lemma keeps_trans (m1 m2 m3 : gmap string TimeSeries) :
  keeps m1 m2 -> keeps m2 m3 -> keeps m1 m3.
Proof.
  intros [Hd1 H1] [Hd2 H2]. split; [congruence |].
  intros s ts Hs. destruct (H1 s ts Hs) as (ts' & Hs' & Hl & Hsm & Hex).
  destruct (H2 s ts' Hs') as (ts'' & Hs'' & Hl' & Hsm' & Hex').
  exists ts''. repeat split; [done | congruence | congruence |].
  by etrans.
Qed.

Lemma addExemplar_keeps (m : gmap string TimeSeries)
    (bucketBounds : list bucketBoundsData) (exemplar : Exemplar) :
  keeps m (addExemplar m bucketBounds exemplar).
Proof.
  rewrite addExemplar_find.
  destruct (List.find _ _) as [b |]; [| apply keeps_refl].
  destruct (m !! sig b) as [ts |] eqn:Hts; [| apply keeps_refl].
  split.
  - rewrite dom_insert_L. apply (elem_of_dom_2 (D := gset string)) in Hts.
    apply set_eq. intros x. rewrite elem_of_union, elem_of_singleton.
    split; [intros [-> | Hx]; done | by right].
  - intros s ts' Hs. destruct (decide (sig b = s)) as [<- | Hne].
    + rewrite lookup_insert_eq. eexists. split; [reflexivity |].
      rewrite Hts in Hs. injection Hs as <-. cbn.
      repeat split. by apply prefix_app_r.
    + rewrite lookup_insert_ne by done. exists ts'. done.
Qed.

(** X3: [addExemplars] neither adds nor removes a series, leaves the
    labels and the samples of every series as they were, and only appends to
    the exemplars of a series; a nil map stays nil. *)
Theorem addExemplars_keeps_series (tsMap : TsMap) (exemplars : option (list Exemplar))
    (bucketBounds : option (list bucketBoundsData)) :
  match tsMap, addExemplars tsMap exemplars bucketBounds with
  | Some m, Some m' =>
      dom m' = dom m
      /\ forall s ts, m !! s = Some ts ->
           exists ts', m' !! s = Some ts'
                       /\ Labels ts' = Labels ts /\ Samples ts' = Samples ts
                       /\ Exemplars ts `prefix_of` Exemplars ts'
  | None, None => True
  | _, _ => False
  end.
Proof.
  unfold addExemplars.
  destruct tsMap as [m |]; [| done].
  destruct bucketBounds as [bbs |]; [| apply keeps_refl].
  destruct exemplars as [exs |]; [| apply keeps_refl].
  cbv zeta. generalize (sort_byBucketBoundsData bbs) as sorted. intros sorted.
  change (keeps m (fold_left (fun m0 exemplar => addExemplar m0 sorted exemplar) exs m)).
  revert m. induction exs as [| e exs IH]; intros m; [apply keeps_refl |].
  cbn [fold_left]. eapply keeps_trans; [apply addExemplar_keeps | apply IH].
Qed.

End Series.

(** *** Signatures *)

Lemma ltb_asym (x y : string) : String.ltb x y = true -> String.ltb y x = false.
Proof.
  unfold String.ltb. rewrite (String.compare_antisym y x).
  by destruct (String.compare x y).
Qed.

Lemma ltb_trichotomy (x y : string) :
  String.ltb x y = false -> String.ltb y x = false -> x = y.
Proof.
  unfold String.ltb. rewrite (String.compare_antisym y x).
  destruct (String.compare x y) eqn:Hc; try discriminate.
  intros _ _. by apply String.compare_eq_iff.
Qed.

Lemma ltb_trans (x y z : string) :
  String.ltb x y = true -> String.ltb y z = true -> String.ltb x z = true.
Proof.
  unfold String.ltb.
  destruct (String.compare x y) eqn:Hxy; try discriminate.
  destruct (String.compare y z) eqn:Hyz; try discriminate.
  intros _ _.
  apply OrderedTypeEx.String_as_OT.cmp_lt in Hxy, Hyz.
  pose proof (OrderedTypeEx.String_as_OT.lt_trans _ _ _ Hxy Hyz) as Hxz.
  apply OrderedTypeEx.String_as_OT.cmp_lt in Hxz.
  unfold OrderedTypeEx.String_as_OT.cmp in Hxz. by rewrite Hxz.
Qed.

(** [a <= b <= c] gives [a <= c], with [a <= b] read as "not [b < a]". *)
Lemma not_ltb_trans (a b c : string) :
  String.ltb b a = false -> String.ltb c b = false -> String.ltb c a = false.
Proof.
  intros Hab Hbc. destruct (String.ltb c a) eqn:Hca; [| reflexivity].
  destruct (String.ltb a b) eqn:Hlt.
  - by rewrite (ltb_trans c a b Hca Hlt) in Hbc.
  - rewrite (ltb_trichotomy a b Hlt Hab) in Hca. congruence.
Qed.

Section Signatures.
Context `{!Float64} `{!Externals}.

(** Two sorted lists with the same labels, no two of one name, are the
    same list. *)
Lemma sorted_labels_unique (l1 : list Label) :
  forall l2,
    StronglySorted (fun a b => ByLabelName_Less b a = false) l1 ->
    StronglySorted (fun a b => ByLabelName_Less b a = false) l2 ->
    l1 ≡ₚ l2 -> NoDup (map Label_Name l1) -> l1 = l2.
Proof.
  induction l1 as [| a l1 IH]; intros l2 Hs1 Hs2 Hperm Hnd.
  - by apply Permutation_nil_l in Hperm.
  - destruct l2 as [| b l2]; [by apply Permutation_nil_r in Hperm |].
    apply StronglySorted_inv in Hs1 as [Hs1 Ha].
    apply StronglySorted_inv in Hs2 as [Hs2 Hb].
    cbn [map] in Hnd. apply NoDup_cons in Hnd as [Hfresh Hnd].
    assert (Hab : a = b).
    { destruct (decide (a = b)) as [| Hne]; [done |].
      assert (Hin_a : a ∈ l2).
      { assert (Hin : a ∈ b :: l2) by (rewrite <- Hperm; apply list_elem_of_here).
        apply elem_of_cons in Hin as [| Hin]; done. }
      assert (Hin_b : b ∈ l1).
      { assert (Hin : b ∈ a :: l1) by (rewrite Hperm; apply list_elem_of_here).
        apply elem_of_cons in Hin as [| Hin]; [congruence | done]. }
      rewrite Forall_forall in Ha, Hb.
      pose proof (Ha b Hin_b) as Hba. pose proof (Hb a Hin_a) as Hab.
      unfold ByLabelName_Less in Hba, Hab.
      destruct Hfresh. rewrite (ltb_trichotomy _ _ Hab Hba).
      by apply list_elem_of_fmap_2. }
    subst b. f_equal. apply IH; [done | done | | done].
    by apply (Permutation_cons_inv (a := a)).
Qed.

(** X5: given that [sort.Sort] returns a permutation sorted by
    [ByLabelName.Less], [timeSeriesSignature] does not depend on the order
    of the labels: two orderings of labels with pairwise different names get
    the same signature and the same sorted slice. *)
Theorem timeSeriesSignature_ignores_label_order (datatype : string)
    (labels1 labels2 : list Label) :
  sortsBy ByLabelName_Less sort_ByLabelName ->
  NoDup (map Label_Name labels1) ->
  labels1 ≡ₚ labels2 ->
  timeSeriesSignature datatype labels1 = timeSeriesSignature datatype labels2.
Proof.
  intros Hsort Hnd Hperm. unfold timeSeriesSignature.
  destruct (Hsort labels1) as [Hp1 Hs1]. destruct (Hsort labels2) as [Hp2 Hs2].
  assert (Heq : sort_ByLabelName labels1 = sort_ByLabelName labels2).
  { apply sorted_labels_unique; [done | done | |].
    - by rewrite Hp1, Hp2.
    - by rewrite Hp1. }
  by rewrite Heq.
Qed.

Lemma app_string_assoc (a b c : string) : (a +:+ b) +:+ c = a +:+ (b +:+ c).
Proof.
  induction a as [| x a IH]; [reflexivity |].
  change (String x ((a +:+ b) +:+ c) = String x (a +:+ (b +:+ c))). by rewrite IH.
Qed.

Lemma sort_one (lb : Label) :
  sortsBy ByLabelName_Less sort_ByLabelName -> sort_ByLabelName [lb] = [lb].
Proof. intros Hsort. destruct (Hsort [lb]) as [Hp _]. by apply Permutation_singleton_r. Qed.

Lemma sort_two (la lb : Label) :
  sortsBy ByLabelName_Less sort_ByLabelName ->
  ByLabelName_Less la lb = true ->
  sort_ByLabelName [la; lb] = [la; lb].
Proof.
  intros Hsort Hlt. destruct (Hsort [la; lb]) as [Hp Hs].
  apply sorted_labels_unique; [done | | done |].
  - repeat constructor. by apply ltb_asym.
  - rewrite Hp. cbn. apply NoDup_cons. split; [| apply NoDup_singleton].
    intros Hin%list_elem_of_singleton. unfold ByLabelName_Less in Hlt.
    rewrite Hin in Hlt. by rewrite (ltb_asym _ _ Hlt) in Hlt.
Qed.

(** X6: the signature joins names and values with ["-"] and so does not
    separate every pair of label sets.  For names [a < b], the one label
    [a = "x-b-y"] and the two labels [a = "x"], [b = "y"] have the same
    signature, and [addSample] puts the samples of both label sets into one
    series. *)
Theorem timeSeriesSignature_merges_label_sets (datatype a b x y : string) :
  sortsBy ByLabelName_Less sort_ByLabelName ->
  String.ltb a b = true ->
  let one := [mkLabel a (x +:+ "-" +:+ b +:+ "-" +:+ y)] in
  let two := [mkLabel a x; mkLabel b y] in
  fst (timeSeriesSignature datatype one) = fst (timeSeriesSignature datatype two)
  /\ forall (s1 s2 : Sample),
      let '(tsMap, sig) := addSample (Some ∅) (Some s1) (Some one) datatype in
      samplesOf (fst (addSample tsMap (Some s2) (Some two) datatype)) sig = [s1; s2].
Proof.
  intros Hsort Hlt. cbv zeta.
  assert (Hsig : fst (timeSeriesSignature datatype
                        [mkLabel a (x +:+ "-" +:+ b +:+ "-" +:+ y)])
                 = fst (timeSeriesSignature datatype [mkLabel a x; mkLabel b y])).
  { unfold timeSeriesSignature. cbn [fst].
    rewrite (sort_one _ Hsort), (sort_two (mkLabel a x) (mkLabel b y) Hsort Hlt).
    cbn [fold_left Label_Name Label_Value].
    by rewrite !app_string_assoc. }
  split; [exact Hsig |].
  intros s1 s2.
  destruct (RemoteWriteFacts.addSample_samples ∅ s1
              [mkLabel a (x +:+ "-" +:+ b +:+ "-" +:+ y)] datatype)
    as (m1 & Hadd1 & Hm1).
  rewrite Hadd1.
  destruct (RemoteWriteFacts.addSample_samples m1 s2
              [mkLabel a x; mkLabel b y] datatype) as (m2 & Hadd2 & Hm2).
  rewrite Hadd2. cbn [fst]. rewrite Hm2, Hm1, <- Hsig.
  rewrite !decide_True by done. unfold samplesOf. by rewrite lookup_empty.
Qed.

End Signatures.

(** *** Labels *)
Section Labels.
Context `{!Float64} `{!Externals}.

Lemma keyed_insert (l : gmap string Label) (k v : string) :
  keyed l -> keyed (<[k := mkLabel k v]> l).
Proof.
  intros Hl k' lb. destruct (decide (k = k')) as [<- | Hne].
  - rewrite lookup_insert_eq. by intros [= <-].
  - rewrite lookup_insert_ne by done. apply Hl.
Qed.

Lemma keyed_addAttribute (l : gmap string Label) (kv : string * Value) :
  keyed l -> keyed (addAttribute l kv).
Proof.
  intros Hl. unfold addAttribute.
  destruct (l !! NormalizeLabel (fst kv)) as [existing |] eqn:He.
  - rewrite (Hl _ _ He). by apply keyed_insert.
  - by apply keyed_insert.
Qed.

Lemma keyed_labelsOfAttributes (resource : Resource) (attributes : KeyValues) :
  keyed (labelsOfAttributes resource attributes).
Proof.
  unfold labelsOfAttributes, addInstanceLabel, addJobLabel.
  assert (Hattrs : keyed (fold_left addAttribute (Map_Sort attributes) ∅)).
  { generalize (Map_Sort attributes) as kvs. intros kvs.
    assert (Hgen : forall l, keyed l -> keyed (fold_left addAttribute kvs l)).
    { induction kvs as [| kv kvs IH]; intros l Hl; [exact Hl |].
      cbn. by apply IH, keyed_addAttribute. }
    apply Hgen. intros k lb. by rewrite lookup_empty. }
  destruct (Map_Get _ AttributeServiceInstanceID);
    destruct (Map_Get _ AttributeServiceName);
    repeat apply keyed_insert; exact Hattrs.
Qed.

(** External labels fill the names that are still free. *)
Lemma addExternalLabels_lookup (l : gmap string Label)
    (externalLabels : gmap string string) (k : string) :
  map_fold addExternalLabel l externalLabels !! k
  = match l !! k with
    | Some lb => Some lb
    | None => mkLabel k <$> externalLabels !! k
    end.
Proof.
  revert k.
  apply (map_fold_weak_ind
           (fun r (m : gmap string string) =>
              forall k, r !! k = match l !! k with
                                 | Some lb => Some lb
                                 | None => mkLabel k <$> m !! k
                                 end)).
  - intros k. rewrite lookup_empty. by destruct (l !! k).
  - intros i x m r Hi IH k. unfold addExternalLabel.
    destruct (decide (i = k)) as [<- | Hne].
    + rewrite lookup_insert_eq. specialize (IH i). rewrite Hi in IH.
      destruct (l !! i) as [lb |] eqn:Hl.
      * by rewrite IH.
      * cbn in IH. rewrite IH. by rewrite lookup_insert_eq.
    + rewrite (lookup_insert_ne m) by done. rewrite <- IH.
      destruct (r !! i); [reflexivity | by rewrite lookup_insert_ne].
Qed.

Lemma keyed_addExternalLabels (l : gmap string Label)
    (externalLabels : gmap string string) :
  keyed l -> keyed (map_fold addExternalLabel l externalLabels).
Proof.
  intros Hl k lb. rewrite addExternalLabels_lookup.
  destruct (l !! k) as [lb' |] eqn:Hk.
  - intros [= <-]. by apply Hl.
  - destruct (externalLabels !! k); [| discriminate]. by intros [= <-].
Qed.

Lemma pair_ind {A} (P : list A -> Prop) :
  P [] -> (forall x, P [x]) -> (forall x y l, P l -> P (x :: y :: l)) ->
  forall l, P l.
Proof.
  intros Hnil Hone Htwo.
  assert (Hboth : forall l, P l /\ forall x, P (x :: l)).
  { induction l as [| y l [IH1 IH2]]; [split; [exact Hnil | exact Hone] |].
    split; [apply IH2 |]. intros x. by apply Htwo. }
  intros l. apply Hboth.
Qed.

Lemma addExtras_pairs (pairs : list (string * string)) (rest : list string)
    (l : gmap string Label) :
  addExtras l (extrasOf pairs ++ rest) = addExtras (fold_left setExtra pairs l) rest.
Proof.
  revert l. induction pairs as [| [k v] pairs IH]; intros l; [reflexivity |].
  cbn [extrasOf flat_map app fst snd addExtras fold_left].
  fold (extrasOf pairs). fold (extraName k). apply IH.
Qed.

Lemma addExtras_single (l : gmap string Label) (x : string) : addExtras l [x] = l.
Proof. reflexivity. Qed.

Lemma keyed_addExtras (extras : list string) :
  forall l, keyed l -> keyed (addExtras l extras).
Proof.
  induction extras as [| x | x y extras IH] using pair_ind; intros l Hl;
    [exact Hl | exact Hl |].
  cbn [addExtras]. fold (extraName x). by apply IH, keyed_insert.
Qed.

Lemma createAttributes_unfold (resource : Resource) (attributes : KeyValues)
    (externalLabels : gmap string string) (extras : list string) :
  createAttributes resource attributes externalLabels extras
  = map snd (map_to_list
               (addExtras
                  (map_fold addExternalLabel
                     (labelsOfAttributes resource attributes) externalLabels)
                  extras)).
Proof. reflexivity. Qed.

Lemma keyed_names (l : gmap string Label) :
  keyed l -> map Label_Name (map snd (map_to_list l)) = map fst (map_to_list l).
Proof.
  intros Hl. rewrite map_map. apply map_ext_in. intros [k lb] Hin.
  apply Hl. apply elem_of_map_to_list. by apply list_elem_of_In.
Qed.

Lemma elem_of_labels (l : gmap string Label) (lb : Label) :
  lb ∈ map snd (map_to_list l) <-> exists k, l !! k = Some lb.
Proof.
  rewrite list_elem_of_fmap. split.
  - intros ([k lb'] & -> & Hin). exists k. by apply elem_of_map_to_list.
  - intros [k Hk]. exists (k, lb). split; [reflexivity |].
    by apply elem_of_map_to_list.
Qed.

(** X7: the labels [createAttributes] returns have pairwise different
    names. *)
Theorem createAttributes_no_duplicate_names (resource : Resource)
    (attributes : KeyValues) (externalLabels : gmap string string)
    (extras : list string) :
  NoDup (map Label_Name
           (createAttributes resource attributes externalLabels extras)).
Proof.
  rewrite createAttributes_unfold, keyed_names.
  - apply NoDup_fst_map_to_list.
  - apply keyed_addExtras, keyed_addExternalLabels, keyed_labelsOfAttributes.
Qed.

(** X9: an unpaired last string among the extras of
    [createAttributes] is ignored. *)
Theorem createAttributes_ignores_unpaired_extra (resource : Resource)
    (attributes : KeyValues) (externalLabels : gmap string string)
    (pairs : list (string * string)) (last : string) :
  createAttributes resource attributes externalLabels (extrasOf pairs ++ [last])
  = createAttributes resource attributes externalLabels (extrasOf pairs).
Proof.
  rewrite !createAttributes_unfold.
  rewrite addExtras_pairs, addExtras_single.
  rewrite <- (app_nil_r (extrasOf pairs)). by rewrite addExtras_pairs.
Qed.

(** X10: without extras, the labels of [createAttributes] are the
    labels built from the attributes and the resource, and an external label
    for each external name none of those labels has; an external label never
    replaces a label of the attributes or of the resource. *)
Theorem createAttributes_external_labels_fill_free_names (resource : Resource)
    (attributes : KeyValues) (externalLabels : gmap string string) (lb : Label) :
  lb ∈ createAttributes resource attributes externalLabels []
  <-> (exists k, labelsOfAttributes resource attributes !! k = Some lb)
      \/ (exists k v,
            externalLabels !! k = Some v
            /\ labelsOfAttributes resource attributes !! k = None
            /\ lb = mkLabel k v).
Proof.
  rewrite createAttributes_unfold. cbn [addExtras]. rewrite elem_of_labels.
  split.
  - intros [k Hk]. rewrite addExternalLabels_lookup in Hk.
    destruct (labelsOfAttributes resource attributes !! k) as [lb' |] eqn:Hl.
    + left. exists k. congruence.
    + right. destruct (externalLabels !! k) as [v |] eqn:He; [| discriminate].
      injection Hk as <-. by exists k, v.
  - intros [[k Hk] | (k & v & He & Hl & ->)]; exists k;
      rewrite addExternalLabels_lookup.
    + by rewrite Hk.
    + by rewrite Hl, He.
Qed.

Lemma keyed_setExtras (pairs : list (string * string)) :
  forall l, keyed l -> keyed (fold_left setExtra pairs l).
Proof.
  induction pairs as [| p pairs IH]; intros l Hl; [exact Hl |].
  cbn [fold_left]. by apply IH, keyed_insert.
Qed.

Lemma setExtras_lookup_other (pairs : list (string * string)) (n : string) :
  Forall (fun p => extraName (fst p) <> n) pairs ->
  forall l, fold_left setExtra pairs l !! n = l !! n.
Proof.
  induction 1 as [| p pairs Hp _ IH]; intros l; [reflexivity |].
  cbn [fold_left]. rewrite IH. unfold setExtra. by rewrite lookup_insert_ne.
Qed.

Lemma setExtras_lookup_last (p1 p2 : list (string * string)) (k v : string)
    (l : gmap string Label) :
  Forall (fun p => extraName (fst p) <> extraName k) p2 ->
  fold_left setExtra (p1 ++ (k, v) :: p2) l !! extraName k
  = Some (mkLabel (extraName k) v).
Proof.
  intros Hp2. rewrite fold_left_app. cbn [fold_left].
  rewrite setExtras_lookup_other by done.
  unfold setExtra at 1. cbn [fst snd]. by rewrite lookup_insert_eq.
Qed.

(** The label a name is mapped to decides the label of that name in the
    result. *)
Lemma the_label_of_a_name (l : gmap string Label) (n v : string) :
  keyed l -> l !! n = Some (mkLabel n v) ->
  mkLabel n v ∈ map snd (map_to_list l)
  /\ forall lb, lb ∈ map snd (map_to_list l) -> Label_Name lb = n -> Label_Value lb = v.
Proof.
  intros Hl Hn. split.
  - apply elem_of_labels. by exists n.
  - intros lb [k Hk]%elem_of_labels Hname.
    rewrite (Hl _ _ Hk) in Hname. subst k. rewrite Hn in Hk. by injection Hk as <-.
Qed.

Lemma createAttributes_extra_label (resource : Resource)
    (attributes : KeyValues) (externalLabels : gmap string string)
    (before after : list (string * string)) (name value : string) :
  Forall (fun p => extraName (fst p) <> extraName name) after ->
  mkLabel (extraName name) value
  ∈ createAttributes resource attributes externalLabels
      (extrasOf (before ++ (name, value) :: after))
  /\ forall lb,
      lb ∈ createAttributes resource attributes externalLabels
             (extrasOf (before ++ (name, value) :: after)) ->
      Label_Name lb = extraName name -> Label_Value lb = value.
Proof.
  intros Hafter. rewrite createAttributes_unfold.
  rewrite <- (app_nil_r (extrasOf _)), addExtras_pairs. cbn [addExtras].
  apply the_label_of_a_name.
  - apply keyed_setExtras, keyed_addExternalLabels, keyed_labelsOfAttributes.
  - by apply setExtras_lookup_last.
Qed.

(** X8: an extra name/value pair that no later pair overwrites decides
    the label of its name: the result holds that label with the pair's
    value, whatever the attributes, the resource and the external labels
    say, and no other label of that name.  The name is kept as it is when it
    is an internal [__x__] name and normalized otherwise. *)
Theorem createAttributes_extra_overrides (resource : Resource)
    (attributes : KeyValues) (externalLabels : gmap string string)
    (before after : list (string * string)) (name value : string) :
  Forall (fun p => extraName (fst p) <> extraName name) after ->
  let labels :=
    createAttributes resource attributes externalLabels
      (extrasOf (before ++ (name, value) :: after)) in
  mkLabel (extraName name) value ∈ labels
  /\ forall lb, lb ∈ labels -> Label_Name lb = extraName name ->
                Label_Value lb = value.
Proof. intros Hafter. by apply createAttributes_extra_label. Qed.

Lemma labelsOfAttributes_job (resource : Resource) (attributes : KeyValues)
    (serviceName : Value) :
  Map_Get (Resource_Attributes resource) AttributeServiceName = Some serviceName ->
  labelsOfAttributes resource attributes !! JobLabel
  = Some (mkLabel JobLabel
            match Map_Get (Resource_Attributes resource) AttributeServiceNamespace with
            | Some serviceNamespace =>
                Value_AsString serviceNamespace +:+ "/" +:+ Value_AsString serviceName
            | None => Value_AsString serviceName
            end).
Proof.
  intros Hname. unfold labelsOfAttributes, addInstanceLabel, addJobLabel.
  rewrite Hname.
  destruct (Map_Get _ AttributeServiceInstanceID).
  - rewrite lookup_insert_ne by done. by rewrite lookup_insert_eq.
  - by rewrite lookup_insert_eq.
Qed.

Lemma labelsOfAttributes_instance (resource : Resource) (attributes : KeyValues)
    (instance : Value) :
  Map_Get (Resource_Attributes resource) AttributeServiceInstanceID = Some instance ->
  labelsOfAttributes resource attributes !! InstanceLabel
  = Some (mkLabel InstanceLabel (Value_AsString instance)).
Proof.
  intros Hinst. unfold labelsOfAttributes, addInstanceLabel.
  rewrite Hinst. by rewrite lookup_insert_eq.
Qed.

(** X11: when no extra is named [job] or [instance], a resource with
    [service.name] gives the [job] label the value [namespace/name] (or
    [name] without [service.namespace]), and a resource with
    [service.instance.id] gives the [instance] label that id; these replace
    what an attribute of the data point or an external label of the same
    name would give. *)
Theorem createAttributes_job_and_instance (resource : Resource)
    (attributes : KeyValues) (externalLabels : gmap string string)
    (pairs : list (string * string)) :
  Forall (fun p => extraName (fst p) <> JobLabel
                   /\ extraName (fst p) <> InstanceLabel) pairs ->
  let labels :=
    createAttributes resource attributes externalLabels (extrasOf pairs) in
  (forall serviceName,
      Map_Get (Resource_Attributes resource) AttributeServiceName = Some serviceName ->
      let job :=
        match Map_Get (Resource_Attributes resource) AttributeServiceNamespace with
        | Some serviceNamespace =>
            Value_AsString serviceNamespace +:+ "/" +:+ Value_AsString serviceName
        | None => Value_AsString serviceName
        end in
      mkLabel JobLabel job ∈ labels
      /\ forall lb, lb ∈ labels -> Label_Name lb = JobLabel -> Label_Value lb = job)
  /\ (forall instance,
        Map_Get (Resource_Attributes resource) AttributeServiceInstanceID
        = Some instance ->
        mkLabel InstanceLabel (Value_AsString instance) ∈ labels
        /\ forall lb, lb ∈ labels -> Label_Name lb = InstanceLabel ->
                      Label_Value lb = Value_AsString instance).
Proof.
  intros Hpairs. cbv zeta. rewrite createAttributes_unfold.
  pose proof (keyed_setExtras pairs
                _ (keyed_addExternalLabels _ externalLabels
                     (keyed_labelsOfAttributes resource attributes))) as Hk.
  rewrite <- (app_nil_r (extrasOf pairs)), addExtras_pairs. cbn [addExtras].
  split.
  - intros serviceName Hname. apply the_label_of_a_name; [exact Hk |].
    rewrite setExtras_lookup_other.
    + rewrite addExternalLabels_lookup.
      by rewrite (labelsOfAttributes_job _ _ _ Hname).
    + eapply Forall_impl; [exact Hpairs |]. by intros p [Hj _].
  - intros instance Hinst. apply the_label_of_a_name; [exact Hk |].
    rewrite setExtras_lookup_other.
    + rewrite addExternalLabels_lookup.
      by rewrite (labelsOfAttributes_instance _ _ _ Hinst).
    + eapply Forall_impl; [exact Hpairs |]. by intros p [_ Hi].
Qed.

(** X12: [convertTimeStamp] turns nanoseconds into whole milliseconds,
    rounding down, for timestamps below [2^63]; a timestamp of [2^63] or
    more is read as a negative [int64] and gives a result that is not
    positive. *)
Theorem convertTimeStamp_milliseconds (timestamp : Z) :
  (0 <= timestamp < 2 ^ 63 -> convertTimeStamp timestamp = timestamp / 1000000)
  /\ (2 ^ 63 <= timestamp < 2 ^ 64 ->
      convertTimeStamp timestamp = - ((2 ^ 64 - timestamp) / 1000000)).
Proof.
  unfold convertTimeStamp, int64_of_uint64. split; intros Hts.
  - destruct (decide (timestamp < 2 ^ 63)); [| lia].
    apply Z.quot_div_nonneg; lia.
  - destruct (decide (timestamp < 2 ^ 63)); [lia |].
    replace (timestamp - 2 ^ 64) with (- (2 ^ 64 - timestamp)) by lia.
    rewrite Z.quot_opp_l by lia. f_equal. apply Z.quot_div_nonneg; lia.
Qed.

(** *** Exemplars of a histogram point *)

Lemma labelRunes_app (l1 l2 : list Label) :
  labelRunes (l1 ++ l2) = labelRunes l1 + labelRunes l2.
Proof. unfold labelRunes. by rewrite map_app, RemoteWriteFacts.sumZ_app. Qed.

Lemma labelRunes_cons (lb : Label) (l : list Label) :
  labelRunes (lb :: l)
  = RuneCountInString (Label_Name lb) + RuneCountInString (Label_Value lb)
    + labelRunes l.
Proof. reflexivity. Qed.

Lemma attribute_loop (kvs : KeyValues) :
  forall (runes : Z) (ls : list Label),
    fold_left
      (fun '(runes, ls) '(key, value) =>
         let val := Value_AsString value in
         (runes + (RuneCountInString key + RuneCountInString val),
          ls ++ [mkLabel key val])%list)
      kvs (runes, ls)
    = (runes + labelRunes (map (fun kv => mkLabel (fst kv) (Value_AsString (snd kv))) kvs),
       (ls ++ map (fun kv => mkLabel (fst kv) (Value_AsString (snd kv))) kvs)%list).
Proof.
  induction kvs as [| [key value] kvs IH]; intros runes ls.
  - cbn. unfold labelRunes, sumZ. cbn. by rewrite Z.add_0_r, app_nil_r.
  - cbn [fold_left map fst snd]. rewrite IH.
    change (mkLabel key (Value_AsString value) :: ?l)
      with ([mkLabel key (Value_AsString value)] ++ l)%list.
    rewrite labelRunes_app, <- app_assoc. f_equal.
    unfold labelRunes at 2, sumZ. cbn. lia.
Qed.

Lemma getPromExemplar_labels (exemplar : pdataExemplar) :
  Exemplar_Labels (getPromExemplar exemplar)
  = if decide (labelRunes (idLabels exemplar ++ attributeLabels exemplar)
               <= maxExemplarRunes)
    then (idLabels exemplar ++ attributeLabels exemplar)%list
    else idLabels exemplar.
Proof.
  unfold getPromExemplar, idLabels, attributeLabels.
  destruct (negb (IsEmpty (TraceID exemplar)));
    destruct (negb (IsEmpty (SpanID exemplar)));
    cbv zeta; rewrite attribute_loop; cbn [app Exemplar_Labels];
    rewrite ?labelRunes_cons; cbn [Label_Name Label_Value];
    repeat match goal with
           | |- context [decide ?P] => destruct (decide P)
           end; try reflexivity; lia.
Qed.

Lemma getPromExemplar_value (exemplar : pdataExemplar) :
  Exemplar_Value (getPromExemplar exemplar) = DoubleValue exemplar.
Proof.
  unfold getPromExemplar.
  destruct (negb (IsEmpty (TraceID exemplar)));
    destruct (negb (IsEmpty (SpanID exemplar)));
    cbv zeta; by rewrite attribute_loop.
Qed.

(** X13: [getPromExemplars] returns nil exactly for a point without
    exemplars, and otherwise one exemplar per exemplar of the point, in
    order and with its value.  The labels of each are the trace and span id
    labels followed by the labels of the filtered attributes when all of
    them together count at most 128 runes, and the id labels alone
    otherwise. *)
Theorem getPromExemplars_rune_budget (pt : HistogramDataPoint) :
  (getPromExemplars pt = None <-> pt_Exemplars pt = [])
  /\ forall exemplars,
      getPromExemplars pt = Some exemplars ->
      Forall2
        (fun promExemplar exemplar =>
           Exemplar_Value promExemplar = DoubleValue exemplar
           /\ (Exemplar_Labels promExemplar
               = (idLabels exemplar ++ attributeLabels exemplar)%list
               /\ labelRunes (Exemplar_Labels promExemplar) <= maxExemplarRunes
               \/ Exemplar_Labels promExemplar = idLabels exemplar
                  /\ maxExemplarRunes
                     < labelRunes (idLabels exemplar ++ attributeLabels exemplar)))
        exemplars (pt_Exemplars pt).
Proof.
  unfold getPromExemplars. split.
  - by destruct (pt_Exemplars pt).
  - intros exemplars Hsome.
    assert (Hmap : exemplars = map getPromExemplar (pt_Exemplars pt))
      by (destruct (pt_Exemplars pt); [discriminate | by injection Hsome as <-]).
    rewrite Hmap. clear Hmap Hsome.
    induction (pt_Exemplars pt) as [| x xs IH]; [constructor |].
    cbn [map]. constructor; [| exact IH]. split; [apply getPromExemplar_value |].
    rewrite getPromExemplar_labels.
    destruct (decide (labelRunes (idLabels x ++ attributeLabels x) <= maxExemplarRunes));
      [left | right]; (split; [reflexivity | lia]).
Qed.

End Labels.

(** *** Data points *)
Section Points.
Context `{!Float64} `{!Externals} `{!Int64Conversion}.

Lemma addSample_nil_map (sample : option Sample) (labels : option (list Label))
    (datatype : string) :
  addSample None sample labels datatype = (None, "").
Proof. by destruct sample, labels. Qed.

(** One more sample on a non-nil map. *)
Lemma addSample_then (m : gmap string TimeSeries) (smp : Sample)
    (labels : list Label) (datatype : string) :
  exists m',
    fst (addSample (Some m) (Some smp) (Some labels) datatype) = Some m'
    /\ forall s,
        samplesOf (Some m') s
        = (samplesOf (Some m) s
           ++ samplesAt s [(fst (timeSeriesSignature datatype labels), smp)])%list.
Proof.
  destruct (RemoteWriteFacts.addSample_samples m smp labels datatype)
    as (m' & Hadd & Hm').
  exists m'. rewrite Hadd. split; [reflexivity |].
  intros s. rewrite Hm', RemoteWriteFacts.samplesAt_cons.
  unfold samplesAt at 1. cbn. by rewrite app_nil_r.
Qed.

Lemma bucketLoop_any_shape (pt : HistogramDataPoint) (resource : Resource)
    (metric : Metric) (settings : Settings) (time : Z)
    (bounds : list float64) :
  forall (counts : list Z) (m : gmap string TimeSeries) (c : Z)
         (bbs : list bucketBoundsData),
    0 <= c < 2 ^ 64 ->
    exists m' bbs',
      bucketLoop pt resource settings
        (BuildPromCompliantName metric (Namespace settings))
        (Metric_Type_String metric) time bounds counts (Some m, c, bbs)
      = (Some m', (c + sumZ (take (length bounds) counts)) mod 2 ^ 64, bbs')
      /\ forall s,
          samplesOf (Some m') s
          = (samplesOf (Some m) s
             ++ samplesAt s
                  (imap (fun i bound =>
                           (bucketSignature pt resource metric settings
                              (FormatFloat bound),
                            mkSample
                              (recorded pt
                                 (float64_of_uint64
                                    ((c + sumZ (take (S i) counts)) mod 2 ^ 64)))
                              time))
                        (take (length counts) bounds)))%list.
Proof.
  induction bounds as [| b bounds IH]; intros counts m c bbs Hc.
  - exists m, bbs. split.
    + destruct counts; cbn; rewrite Z.add_0_r, Z.mod_small by lia; reflexivity.
    + intros s. rewrite take_nil. cbn. unfold samplesAt. cbn. by rewrite app_nil_r.
  - destruct counts as [| x counts].
    { exists m, bbs. split.
      - cbn. rewrite Z.add_0_r, Z.mod_small by lia. reflexivity.
      - intros s. cbn. unfold samplesAt. cbn. by rewrite app_nil_r. }
    cbn [bucketLoop].
    fold (recorded pt (float64_of_uint64 (uint64_add c x))).
    destruct (RemoteWriteFacts.addSample_samples m
                (mkSample (recorded pt (float64_of_uint64 (uint64_add c x))) time)
                (createAttributes resource (Attributes pt) (ExternalLabels settings)
                   [nameStr;
                    BuildPromCompliantName metric (Namespace settings) +:+ bucketStr;
                    leStr; FormatFloat b])
                (Metric_Type_String metric)) as (m1 & Hadd & Hm1).
    rewrite Hadd.
    destruct (IH counts m1 (uint64_add c x)
                (bbs ++ [mkBucketBoundsData
                           (fst (timeSeriesSignature (Metric_Type_String metric)
                                   (createAttributes resource (Attributes pt)
                                      (ExternalLabels settings)
                                      [nameStr;
                                       BuildPromCompliantName metric (Namespace settings)
                                         +:+ bucketStr;
                                       leStr; FormatFloat b]))) b])%list)
      as (m' & bbs' & Hloop & Hm').
    { unfold uint64_add. apply Z.mod_pos_bound. lia. }
    exists m', bbs'. split.
    + rewrite Hloop. f_equal. f_equal.
      change (take (length (b :: bounds)) (x :: counts))
        with (x :: take (length bounds) counts).
      rewrite RemoteWriteFacts.sumZ_cons. unfold uint64_add.
      rewrite Zplus_mod_idemp_l. by rewrite Z.add_assoc.
    + intros s. rewrite Hm', Hm1.
      change (take (length (x :: counts)) (b :: bounds))
        with (b :: take (length counts) bounds).
      rewrite imap_cons, RemoteWriteFacts.samplesAt_cons.
      rewrite <- app_assoc. f_equal. f_equal.
      * replace ((c + sumZ (take 1 (x :: counts))) mod 2 ^ 64)
          with (uint64_add c x); [reflexivity |].
        unfold uint64_add. cbn. by rewrite Z.add_0_r.
      * f_equal. apply imap_ext. intros i bd _. unfold compose. cbn beta.
        f_equal. f_equal. f_equal. f_equal.
        change (take (S (S i)) (x :: counts)) with (x :: take (S i) counts).
        rewrite RemoteWriteFacts.sumZ_cons. unfold uint64_add.
        rewrite Zplus_mod_idemp_l. by rewrite Z.add_assoc.
Qed.

Lemma bucketLoop_nil_map (pt : HistogramDataPoint) (resource : Resource)
    (settings : Settings) (baseName datatype : string) (time : Z)
    (bounds : list float64) :
  forall counts c bbs,
    fst (fst (bucketLoop pt resource settings baseName datatype time bounds counts
                (None, c, bbs))) = None.
Proof.
  induction bounds as [| b bounds IH]; intros counts c bbs; [reflexivity |].
  destruct counts as [| x counts]; [reflexivity |].
  cbn [bucketLoop]. apply IH.
Qed.

Lemma sum_and_count_samples (pt : HistogramDataPoint) (resource : Resource)
    (metric : Metric) (settings : Settings) (m : gmap string TimeSeries) :
  let time := convertTimeStamp (Timestamp pt) in
  let baseName := BuildPromCompliantName metric (Namespace settings) in
  let datatype := Metric_Type_String metric in
  exists mb,
    fst (addSample
           (if HasSum pt
            then fst (addSample (Some m) (Some (mkSample (recorded pt (Sum pt)) time))
                        (Some (createAttributes resource (Attributes pt)
                                 (ExternalLabels settings)
                                 [nameStr; baseName +:+ sumStr])) datatype)
            else Some m)
           (Some (mkSample (recorded pt (float64_of_uint64 (Count pt))) time))
           (Some (createAttributes resource (Attributes pt)
                    (ExternalLabels settings) [nameStr; baseName +:+ countStr]))
           datatype) = Some mb
    /\ forall s,
        samplesOf (Some mb) s
        = (samplesOf (Some m) s
           ++ samplesAt s (expectedSumCountSamples pt resource metric settings))%list.
Proof.
  cbv zeta. unfold expectedSumCountSamples, signatureOf.
  destruct (HasSum pt).
  - destruct (addSample_then m
                (mkSample (recorded pt (Sum pt)) (convertTimeStamp (Timestamp pt)))
                (createAttributes resource (Attributes pt) (ExternalLabels settings)
                   [nameStr;
                    BuildPromCompliantName metric (Namespace settings) +:+ sumStr])
                (Metric_Type_String metric)) as (ma & Ha & Hma).
    rewrite Ha.
    destruct (addSample_then ma
                (mkSample (recorded pt (float64_of_uint64 (Count pt)))
                   (convertTimeStamp (Timestamp pt)))
                (createAttributes resource (Attributes pt) (ExternalLabels settings)
                   [nameStr;
                    BuildPromCompliantName metric (Namespace settings) +:+ countStr])
                (Metric_Type_String metric)) as (mb & Hb & Hmb).
    exists mb. split; [exact Hb |].
    intros s. rewrite Hmb, Hma, RemoteWriteFacts.samplesAt_app, <- app_assoc.
    reflexivity.
  - destruct (addSample_then m
                (mkSample (recorded pt (float64_of_uint64 (Count pt)))
                   (convertTimeStamp (Timestamp pt)))
                (createAttributes resource (Attributes pt) (ExternalLabels settings)
                   [nameStr;
                    BuildPromCompliantName metric (Namespace settings) +:+ countStr])
                (Metric_Type_String metric)) as (mb & Hb & Hmb).
    exists mb. split; [exact Hb |]. intros s. by rewrite Hmb.
Qed.

Lemma histogram_samples_any_shape (pt : HistogramDataPoint) (resource : Resource)
    (metric : Metric) (settings : Settings) (m : gmap string TimeSeries)
    (s : string) :
  samplesOf (addSingleHistogramDataPoint pt resource metric settings (Some m)) s
  = (samplesOf (Some m) s
     ++ samplesAt s (histogramSamples pt resource metric settings))%list.
Proof.
  unfold addSingleHistogramDataPoint, histogramSamples. cbv zeta.
  fold (recorded pt (Sum pt)).
  fold (recorded pt (float64_of_uint64 (Count pt))).
  destruct (sum_and_count_samples pt resource metric settings m) as (mb & Hb & Hmb).
  cbv zeta in Hb. rewrite Hb.
  destruct (bucketLoop_any_shape pt resource metric settings
              (convertTimeStamp (Timestamp pt))
              (ExplicitBounds pt) (BucketCounts pt) mb 0 [])
    as (mc & bbs & Hloop & Hmc); [lia |].
  rewrite Hloop.
  assert (Hinf :
    (if NoRecordedValue pt then mkSample StaleNaN (convertTimeStamp (Timestamp pt))
     else mkSample
            (float64_of_uint64
               match last (BucketCounts pt) with
               | Some c =>
                   uint64_add
                     ((0 + sumZ (take (length (ExplicitBounds pt)) (BucketCounts pt)))
                      mod 2 ^ 64) c
               | None =>
                   (0 + sumZ (take (length (ExplicitBounds pt)) (BucketCounts pt)))
                   mod 2 ^ 64
               end) (convertTimeStamp (Timestamp pt)))
    = mkSample (recorded pt (float64_of_uint64 (histogramInfCount pt)))
               (convertTimeStamp (Timestamp pt))).
  { unfold recorded, histogramInfCount. destruct (NoRecordedValue pt); [reflexivity |].
    f_equal. f_equal. cbv zeta.
    destruct (last (BucketCounts pt)) as [c |] eqn:Hlast.
    - unfold uint64_add. by rewrite Z.add_0_l, Zplus_mod_idemp_l.
    - apply last_None in Hlast. rewrite Hlast, take_nil. reflexivity. }
  rewrite Hinf.
  destruct (addSample_then mc
              (mkSample (recorded pt (float64_of_uint64 (histogramInfCount pt)))
                 (convertTimeStamp (Timestamp pt)))
              (createAttributes resource (Attributes pt) (ExternalLabels settings)
                 [nameStr;
                  BuildPromCompliantName metric (Namespace settings) +:+ bucketStr;
                  leStr; pInfStr])
              (Metric_Type_String metric)) as (md & Hd & Hmd).
  destruct (addSample (Some mc) _ _ _) as [tsMap sig0] eqn:Hadd.
  cbn [fst] in Hd. subst tsMap.
  rewrite RemoteWriteFacts.addExemplars_samples.
  rewrite Hmd, Hmc, Hmb.
  rewrite !RemoteWriteFacts.samplesAt_app, <- !app_assoc.
  reflexivity.
Qed.

Lemma sumZ_take_all (counts : list Z) (n : nat) :
  (length counts <= n)%nat -> sumZ (take n counts) = sumZ counts.
Proof. intros Hn. by rewrite take_ge. Qed.

(** X14: for a histogram point of any shape, translated into a non-nil
    map, the samples appended to each series are the [_sum] sample when
    the point has a sum, the [_count] sample, one bucket sample for each
    bound that has a count, and the [+Inf] sample: [1 + min(bounds, counts)
    + 1] samples, and one more with a sum.  The [+Inf] count is the running
    count of the loop plus the last bucket count, so a point with no more
    counts than bounds counts its last bucket twice.  A nil map stays
    nil. *)
Theorem histogram_point_of_any_shape (pt : HistogramDataPoint)
    (resource : Resource) (metric : Metric) (settings : Settings)
    (m : gmap string TimeSeries) :
  (forall s,
      samplesOf (addSingleHistogramDataPoint pt resource metric settings (Some m)) s
      = (samplesOf (Some m) s
         ++ samplesAt s (histogramSamples pt resource metric settings))%list)
  /\ length (histogramSamples pt resource metric settings)
     = ((if HasSum pt then 1 else 0) + 1
        + length (ExplicitBounds pt) `min` length (BucketCounts pt) + 1)%nat
  /\ (forall c,
        last (BucketCounts pt) = Some c ->
        (length (BucketCounts pt) <= length (ExplicitBounds pt))%nat ->
        histogramInfCount pt = (sumZ (BucketCounts pt) + c) mod 2 ^ 64)
  /\ addSingleHistogramDataPoint pt resource metric settings None = None.
Proof.
  split; [| split; [| split]].
  - intros s. apply histogram_samples_any_shape.
  - unfold histogramSamples, expectedSumCountSamples, histogramBucketSamples.
    rewrite !length_app, length_imap, length_take. cbn [length].
    destruct (HasSum pt); cbn [length]; lia.
  - intros c Hlast Hlen. unfold histogramInfCount. rewrite Hlast.
    by rewrite sumZ_take_all.
  - unfold addSingleHistogramDataPoint. cbv zeta.
    destruct (HasSum pt); rewrite ?addSample_nil_map; cbn [fst].
    all: rewrite ?addSample_nil_map; cbn [fst].
    all: destruct (bucketLoop _ _ _ _ _ _ _ _ (None, 0, [])) as [[t c] bbs] eqn:Hloop.
    all: pose proof (bucketLoop_nil_map pt resource settings
                       (BuildPromCompliantName metric (Namespace settings))
                       (Metric_Type_String metric) (convertTimeStamp (Timestamp pt))
                       (ExplicitBounds pt) (BucketCounts pt) 0 []) as Hnil.
    all: rewrite Hloop in Hnil; cbn [fst] in Hnil; subst t.
    all: rewrite addSample_nil_map; reflexivity.
Qed.

Lemma nameStr_is_internal : extraName nameStr = nameStr.
Proof. reflexivity. Qed.

(** X15: [addSingleNumberDataPoint] appends one sample, to the series
    of the point's labels, which carry the metric's name as [__name__].  The
    value is the stale marker for a point flagged [NoRecordedValue],
    otherwise the point's double, its integer converted, or zero for a
    point without a value.  A nil map stays nil. *)
Theorem number_point_adds_one_sample (pt : NumberDataPoint) (resource : Resource)
    (metric : Metric) (settings : Settings) (m : gmap string TimeSeries) :
  let name := BuildPromCompliantName metric (Namespace settings) in
  let labels :=
    createAttributes resource (Number_Attributes pt) (ExternalLabels settings)
      [nameStr; name] in
  let sig := fst (timeSeriesSignature (Metric_Type_String metric) labels) in
  let value :=
    if Number_NoRecordedValue pt then StaleNaN
    else match Number_Value pt with
         | NumberDataPointValueTypeInt i => float64_of_int64 i
         | NumberDataPointValueTypeDouble d => d
         | NumberDataPointValueTypeEmpty => float64_of_uint64 0
         end in
  (forall s,
      samplesOf (addSingleNumberDataPoint pt resource metric settings (Some m)) s
      = (samplesOf (Some m) s
         ++ if decide (sig = s)
            then [mkSample value (convertTimeStamp (Number_Timestamp pt))]
            else [])%list)
  /\ mkLabel nameStr name ∈ labels
  /\ (forall lb, lb ∈ labels -> Label_Name lb = nameStr -> Label_Value lb = name)
  /\ addSingleNumberDataPoint pt resource metric settings None = None.
Proof.
  cbv zeta. split; [| split; [| split]].
  - intros s. unfold addSingleNumberDataPoint. cbv zeta.
    match goal with
    | |- context [addSample (Some m) (Some ?smp) (Some ?ls) ?dt] =>
        destruct (RemoteWriteFacts.addSample_samples m smp ls dt) as (m' & Hadd & Hm')
    end.
    rewrite Hadd. cbn [fst]. apply Hm'.
  - apply (createAttributes_extra_label resource (Number_Attributes pt)
             (ExternalLabels settings) [] [] nameStr). constructor.
  - apply (createAttributes_extra_label resource (Number_Attributes pt)
             (ExternalLabels settings) [] [] nameStr). constructor.
  - unfold addSingleNumberDataPoint. cbv zeta. by rewrite addSample_nil_map.
Qed.

Lemma quantile_loop (pt : SummaryDataPoint) (resource : Resource)
    (metric : Metric) (settings : Settings) (qts : list ValueAtQuantile) :
  forall m,
    exists m',
      fold_left
        (fun tsMap qt =>
           fst (addSample tsMap
                  (Some (mkSample
                           (if Summary_NoRecordedValue pt then StaleNaN
                            else Quantile_Value qt)
                           (convertTimeStamp (Summary_Timestamp pt))))
                  (Some (createAttributes resource (Summary_Attributes pt)
                           (ExternalLabels settings)
                           [nameStr; BuildPromCompliantName metric (Namespace settings);
                            quantileStr; FormatFloat (Quantile qt)]))
                  (Metric_Type_String metric)))
        qts (Some m) = Some m'
      /\ forall s,
          samplesOf (Some m') s
          = (samplesOf (Some m) s
             ++ samplesAt s
                  (map (fun qt =>
                          (summarySignature pt resource metric settings
                             [nameStr; BuildPromCompliantName metric (Namespace settings);
                              quantileStr; FormatFloat (Quantile qt)],
                           mkSample (summaryValue pt (Quantile_Value qt))
                                    (convertTimeStamp (Summary_Timestamp pt))))
                       qts))%list.
Proof.
  induction qts as [| qt qts IH]; intros m.
  - exists m. split; [reflexivity |]. intros s. unfold samplesAt. cbn.
    by rewrite app_nil_r.
  - cbn [fold_left map].
    match goal with
    | |- context [addSample (Some m) (Some ?smp) (Some ?ls) ?dt] =>
        destruct (addSample_then m smp ls dt) as (m1 & Hadd & Hm1)
    end.
    rewrite Hadd. destruct (IH m1) as (m' & Hfold & Hm').
    exists m'. split; [exact Hfold |].
    intros s. rewrite Hm', Hm1, <- app_assoc, <- RemoteWriteFacts.samplesAt_app.
    reflexivity.
Qed.

(** X16: [addSingleSummaryDataPoint] appends the [_sum] sample, the
    [_count] sample and one sample per quantile, in that order:
    [len(QuantileValues) + 2] samples.  A nil map stays nil. *)
Theorem summary_point_adds_quantiles_plus_two (pt : SummaryDataPoint)
    (resource : Resource) (metric : Metric) (settings : Settings)
    (m : gmap string TimeSeries) :
  (forall s,
      samplesOf (addSingleSummaryDataPoint pt resource metric settings (Some m)) s
      = (samplesOf (Some m) s
         ++ samplesAt s (expectedSummarySamples pt resource metric settings))%list)
  /\ length (expectedSummarySamples pt resource metric settings)
     = (length (Summary_QuantileValues pt) + 2)%nat
  /\ addSingleSummaryDataPoint pt resource metric settings None = None.
Proof.
  split; [| split].
  - intros s. unfold addSingleSummaryDataPoint, expectedSummarySamples. cbv zeta.
    fold (summaryValue pt (Summary_Sum pt)).
    fold (summaryValue pt (float64_of_uint64 (Summary_Count pt))).
    match goal with
    | |- context [addSample (Some m) (Some ?smp) (Some ?ls) ?dt] =>
        destruct (addSample_then m smp ls dt) as (ma & Ha & Hma)
    end.
    rewrite Ha.
    match goal with
    | |- context [addSample (Some ma) (Some ?smp) (Some ?ls) ?dt] =>
        destruct (addSample_then ma smp ls dt) as (mb & Hb & Hmb)
    end.
    rewrite Hb.
    destruct (quantile_loop pt resource metric settings
                (Summary_QuantileValues pt) mb) as (mc & Hc & Hmc).
    rewrite Hc, Hmc, Hmb, Hma.
    rewrite <- !app_assoc, <- !RemoteWriteFacts.samplesAt_app. reflexivity.
  - unfold expectedSummarySamples. cbv zeta.
    rewrite length_app, length_map. cbn [length]. lia.
  - unfold addSingleSummaryDataPoint. cbv zeta. rewrite !addSample_nil_map.
    cbn [fst]. induction (Summary_QuantileValues pt) as [| qt qts IH];
      [reflexivity |].
    cbn [fold_left]. by rewrite addSample_nil_map.
Qed.

Lemma removeIf_nil (f : string -> Value -> bool) (kvs : KeyValues) :
  Forall (fun kv => f (fst kv) (snd kv) = true) kvs -> Map_RemoveIf f kvs = [].
Proof.
  unfold Map_RemoveIf. induction 1 as [| kv kvs Hkv _ IH]; [reflexivity |].
  cbn. by rewrite Hkv.
Qed.

Lemma removeIf_not_nil (f : string -> Value -> bool) (kvs : KeyValues)
    (kv : string * Value) :
  kv ∈ kvs -> f (fst kv) (snd kv) = false -> Map_RemoveIf f kvs <> [].
Proof.
  unfold Map_RemoveIf. intros Hin Hf Hnil.
  assert (Hkv : In kv (List.filter (fun kv => negb (f (fst kv) (snd kv))) kvs)).
  { apply filter_In. split; [by apply list_elem_of_In | by rewrite Hf]. }
  by rewrite Hnil in Hkv.
Qed.

(** X17: [addResourceTargetInfo] leaves the map as it is when target
    info is disabled and when the resource has no attribute besides
    [service.name], [service.namespace] and [service.instance.id].
    Otherwise it appends one sample of value 1 to the [info] series whose
    [__name__] is [target_info], prefixed by the namespace and ["_"] when
    there is one. *)
Theorem target_info_needs_other_attributes (resource : Resource)
    (settings : Settings) (timestamp : Z) (tsMap : TsMap) :
  (DisableTargetInfo settings = true ->
   addResourceTargetInfo resource settings timestamp tsMap = tsMap)
  /\ (Forall (fun kv => usedForJobOrInstance (fst kv) (snd kv) = true)
        (Resource_Attributes resource) ->
      addResourceTargetInfo resource settings timestamp tsMap = tsMap)
  /\ (forall kv m,
        DisableTargetInfo settings = false ->
        kv ∈ Resource_Attributes resource ->
        usedForJobOrInstance (fst kv) (snd kv) = false ->
        tsMap = Some m ->
        let name :=
          if decide (Namespace settings = "") then targetMetricName
          else Namespace settings +:+ "_" +:+ targetMetricName in
        let labels :=
          createAttributes resource
            (Map_RemoveIf usedForJobOrInstance (Resource_Attributes resource))
            (ExternalLabels settings) [nameStr; name] in
        mkLabel nameStr name ∈ labels
        /\ forall s,
            samplesOf (addResourceTargetInfo resource settings timestamp tsMap) s
            = (samplesOf tsMap s
               ++ if decide (fst (timeSeriesSignature infoType labels) = s)
                  then [mkSample (float64_of_uint64 1) (convertTimeStamp timestamp)]
                  else [])%list).
Proof.
  unfold addResourceTargetInfo. split; [| split].
  - by intros ->.
  - intros Hall. rewrite (removeIf_nil _ _ Hall).
    by destruct (DisableTargetInfo settings).
  - intros kv m -> Hin Hkv ->. cbv zeta.
    destruct (decide (length (Map_RemoveIf usedForJobOrInstance
                                (Resource_Attributes resource)) = 0%nat))
      as [Hlen | _].
    { apply length_zero_iff_nil in Hlen. by destruct (removeIf_not_nil _ _ _ Hin Hkv). }
    assert (Hname :
      (if decide (0 < String.length (Namespace settings))%nat
       then Namespace settings +:+ "_" +:+ targetMetricName
       else targetMetricName)
      = (if decide (Namespace settings = "") then targetMetricName
         else Namespace settings +:+ "_" +:+ targetMetricName)).
    { destruct (Namespace settings) as [| c ns]; [reflexivity |].
      destruct (decide (0 < _)%nat) as [_ | Hn]; [reflexivity | cbn in Hn; lia]. }
    rewrite Hname. split.
    + apply (createAttributes_extra_label resource _ (ExternalLabels settings)
               [] [] nameStr). constructor.
    + intros s.
      match goal with
      | |- context [addSample (Some m) (Some ?smp) (Some ?ls) ?dt] =>
          destruct (RemoteWriteFacts.addSample_samples m smp ls dt)
            as (m' & Hadd & Hm')
      end.
      rewrite Hadd. cbn [fst]. apply Hm'.
Qed.

(** *** Timestamps and validation *)

Lemma maxTimestamp_fold {A} (f : A -> Z) (dps : list A) :
  forall ts,
    let out := fold_left (fun ts dp => maxTimestamp ts (f dp)) dps ts in
    ts <= out
    /\ Forall (fun t => t <= out) (map f dps)
    /\ (out = ts \/ out ∈ map f dps).
Proof.
  induction dps as [| dp dps IH]; intros ts; cbv zeta.
  - cbn. split; [lia |]. split; [constructor | by left].
  - cbn [fold_left map].
    destruct (IH (maxTimestamp ts (f dp))) as (Hge & Hall & Hin).
    cbv zeta in *.
    assert (Hmax : ts <= maxTimestamp ts (f dp) /\ f dp <= maxTimestamp ts (f dp)
                   /\ (maxTimestamp ts (f dp) = ts \/ maxTimestamp ts (f dp) = f dp)).
    { unfold maxTimestamp. destruct (decide (ts > f dp)); lia. }
    split; [lia |]. split.
    + constructor; [lia | exact Hall].
    + destruct Hin as [Heq | Hin].
      * destruct Hmax as (_ & _ & [Hm | Hm]).
        -- left. congruence.
        -- right. rewrite Heq, Hm. apply list_elem_of_here.
      * right. by apply list_elem_of_further.
Qed.

Lemma mostRecentTimestampInMetric_fold (metric : MetricData) :
  mostRecentTimestampInMetric metric
  = fold_left (fun ts t => maxTimestamp ts t) (timestampsOf metric) 0.
Proof.
  assert (Hmap : forall A (f : A -> Z) (l : list A) ts,
             fold_left (fun ts t => maxTimestamp ts t) (map f l) ts
             = fold_left (fun ts dp => maxTimestamp ts (f dp)) l ts).
  { intros A f l. induction l as [| x l IH]; intros ts; [reflexivity |].
    cbn. apply IH. }
  destruct metric; cbn [mostRecentTimestampInMetric timestampsOf];
    by rewrite ?Hmap.
Qed.

Lemma mostRecentTimestampInMetric_is_max_lemma (metric : MetricData) :
  0 <= mostRecentTimestampInMetric metric
  /\ Forall (fun t => t <= mostRecentTimestampInMetric metric) (timestampsOf metric)
  /\ (mostRecentTimestampInMetric metric = 0
      \/ mostRecentTimestampInMetric metric ∈ timestampsOf metric).
Proof.
  rewrite mostRecentTimestampInMetric_fold.
  pose proof (maxTimestamp_fold (fun t : Z => t) (timestampsOf metric) 0) as Hfold.
  cbv zeta in Hfold. by rewrite map_id in Hfold.
Qed.

(** X18: [mostRecentTimestampInMetric] returns the greatest timestamp
    of the metric's data points, and zero for a metric without data points
    or of a type other than gauge, sum, histogram and summary. *)
Theorem mostRecentTimestampInMetric_is_the_maximum (metric : MetricData) :
  let ts := mostRecentTimestampInMetric metric in
  0 <= ts
  /\ Forall (fun t => t <= ts) (timestampsOf metric)
  /\ (ts = 0 \/ ts ∈ timestampsOf metric).
Proof. apply mostRecentTimestampInMetric_is_max_lemma. Qed.

(** X19: a metric [validateMetrics] accepts is a gauge, a sum, a
    histogram or a summary with at least one data point, a sum or a
    histogram only with cumulative temporality; its most recent timestamp
    is then the timestamp of one of its data points. *)
Theorem validateMetrics_accepts (metric : MetricData) :
  validateMetrics metric = true ->
  timestampsOf metric <> []
  /\ match metric with
     | MetricTypeGauge _ | MetricTypeSummary _ => True
     | MetricTypeSum temporality _ | MetricTypeHistogram temporality _ =>
         temporality = AggregationTemporalityCumulative
     | _ => False
     end
  /\ (Forall (fun t => 0 <= t) (timestampsOf metric) ->
      mostRecentTimestampInMetric metric ∈ timestampsOf metric).
Proof.
  intros Hvalid.
  assert (Hne : timestampsOf metric <> []).
  { destruct metric as [| dps | t dps | t dps | | dps]; try discriminate;
      cbn in Hvalid |- *; destruct dps; try discriminate; done. }
  split; [exact Hne |]. split.
  - destruct metric as [| dps | t dps | t dps | | dps]; try discriminate; try done;
      cbn in Hvalid; apply andb_true_iff in Hvalid as [_ Ht];
      by apply bool_decide_eq_true in Ht.
  - intros Hpos.
    destruct (mostRecentTimestampInMetric_is_max_lemma metric) as (Hnn & Hall & [Hz | Hin]);
      [| exact Hin].
    destruct (timestampsOf metric) as [| t ts] eqn:Hts; [done |].
    apply Forall_cons in Hall as [Ht _]. apply Forall_cons in Hpos as [Ht' _].
    rewrite Hz in *. replace t with 0 by lia. apply list_elem_of_here.
Qed.

End Points.

(** *** The insertion sort of the fixtures as [sort.Sort] *)

Lemma insert_by_perm {A} (ltb : A -> A -> bool) (x : A) (l : list A) :
  fixtures.insert_by ltb x l ≡ₚ x :: l.
Proof.
  induction l as [| y l IH]; [reflexivity |]. cbn.
  destruct (ltb y x); [| reflexivity].
  rewrite IH. apply perm_swap.
Qed.

Lemma sort_by_perm {A} (ltb : A -> A -> bool) (l : list A) :
  fixtures.sort_by ltb l ≡ₚ l.
Proof.
  induction l as [| x l IH]; [reflexivity |].
  cbn. rewrite insert_by_perm. by rewrite IH.
Qed.

Lemma insert_by_sorted {A} (ltb : A -> A -> bool) (x : A) (l : list A) :
  (forall a b, ltb a b = true -> ltb b a = false) ->
  (forall a b c, ltb b a = false -> ltb c b = false -> ltb c a = false) ->
  StronglySorted (fun a b => ltb b a = false) l ->
  StronglySorted (fun a b => ltb b a = false) (fixtures.insert_by ltb x l).
Proof.
  intros Hasym Htrans. induction 1 as [| y l Hs IH Hy]; cbn.
  - repeat constructor.
  - destruct (ltb y x) eqn:Hyx.
    + constructor; [exact IH |].
      rewrite (insert_by_perm ltb x l). constructor; [by apply Hasym | exact Hy].
    + constructor; [by constructor |]. constructor; [exact Hyx |].
      eapply Forall_impl; [exact Hy |]. intros z Hz. cbn in Hz.
      by apply (Htrans x y z).
Qed.

Lemma sort_by_sortsBy {A} (ltb : A -> A -> bool) :
  (forall a b, ltb a b = true -> ltb b a = false) ->
  (forall a b c, ltb b a = false -> ltb c b = false -> ltb c a = false) ->
  sortsBy ltb (fixtures.sort_by ltb).
Proof.
  intros Hasym Htrans l. split; [apply sort_by_perm |].
  induction l as [| x l IH]; [constructor |].
  cbn. by apply insert_by_sorted.
Qed.

Import fixtures fixtures_points.

Lemma sort_ByLabelName_sorts : sortsBy ByLabelName_Less sort_ByLabelName.
Proof.
  apply (sort_by_sortsBy ByLabelName_Less).
  - intros a b. apply ltb_asym.
  - intros a b c. apply not_ltb_trans.
Qed.

Lemma timeSeriesSignature_ignores_label_order_witness :
  timeSeriesSignature "Histogram"
    [mkLabel "le" "1.5"; mkLabel "__name__" "latency"]
  = timeSeriesSignature "Histogram"
      [mkLabel "__name__" "latency"; mkLabel "le" "1.5"].
Proof.
  apply timeSeriesSignature_ignores_label_order.
  - exact sort_ByLabelName_sorts.
  - apply (bool_decide_unpack (NoDup ["le"; "__name__"])). by vm_compute.
  - apply perm_swap.
Defined.

Lemma timeSeriesSignature_merges_label_sets_witness :
  fst (timeSeriesSignature "Gauge" [mkLabel "job" "a-zone-b"])
  = fst (timeSeriesSignature "Gauge" [mkLabel "job" "a"; mkLabel "zone" "b"]).
Proof.
  exact (proj1 (timeSeriesSignature_merges_label_sets "Gauge" "job" "zone" "a" "b"
                  sort_ByLabelName_sorts eq_refl)).
Defined.

Lemma createAttributes_extra_overrides_witness :
  mkLabel "__name__" "latency_bucket"
  ∈ createAttributes resource0 [("__name__", ValueStr "other")] ∅
      ["__name__"; "latency_bucket"; "le"; "1.5"].
Proof.
  apply (proj1 (createAttributes_extra_overrides resource0
                  [("__name__", ValueStr "other")] ∅ [] [("le", "1.5")]
                  "__name__" "latency_bucket"
                  ltac:(repeat constructor; intros Heq; vm_compute in Heq;
                        discriminate Heq))).
Defined.

Lemma createAttributes_job_and_instance_witness :
  mkLabel "job" "shop/checkout"
  ∈ createAttributes resource1 [("job", ValueStr "other")] ∅
      ["__name__"; "latency"].
Proof.
  apply (proj1 (proj1 (createAttributes_job_and_instance resource1
                         [("job", ValueStr "other")] ∅ [("__name__", "latency")]
                         ltac:(repeat constructor; intros Heq; vm_compute in Heq;
                               discriminate Heq))
                  (ValueStr "checkout") eq_refl)).
Defined.

Lemma validateMetrics_accepts_witness :
  mostRecentTimestampInMetric gauge ∈ timestampsOf gauge.
Proof.
  apply (proj2 (proj2 (validateMetrics_accepts gauge eq_refl))).
  repeat constructor. cbn. lia.
Defined.

(** The translations run on the fixtures: a summary with two quantiles
    gives four samples, a histogram with as many counts as bounds counts
    its last bucket twice, and a resource that only names its service gets
    no target info. *)
Example histogram_counts_last_bucket_twice :
  map Sample_Value
    (samplesOf
       (addSingleHistogramDataPoint
          (mkHistogramDataPoint [] 5000000 false 0%float 8 false
             [1%float; 2%float] [5; 3] [])
          resource0 "latency" settings0 (Some ∅))
       (bucketSignature
          (mkHistogramDataPoint [] 5000000 false 0%float 8 false
             [1%float; 2%float] [5; 3] [])
          resource0 "latency" settings0 pInfStr))
  = [11%float].
Proof. vm_compute. reflexivity. Qed.

Example target_info_examples :
  addResourceTargetInfo resource1 settings0 5000000 (Some ∅) = Some ∅
  /\ map Sample_Value
       (samplesOf
          (addResourceTargetInfo
             (mkResource [("service.name", ValueStr "checkout");
                          ("host", ValueStr "h1")])
             settings0 5000000 (Some ∅))
          (fst (timeSeriesSignature infoType
                  [mkLabel "host" "h1"; mkLabel "job" "checkout";
                   mkLabel "__name__" "target_info"])))
     = [1%float].
Proof. split; vm_compute; reflexivity. Qed.

End HelperFacts.

(** ** Attributes that share a label name *)
Module CollisionFacts.
Import pcommon prometheusremotewrite helper.

Section Collisions.
Context `{!Float64} `{!Externals}.

Lemma concat_join (a v : string) (vs : list string) :
  String.concat ";" ((a +:+ ";" +:+ v) :: vs) = a +:+ ";" +:+ String.concat ";" (v :: vs).
Proof.
  destruct vs as [| w vs]; [reflexivity |].
  cbn [String.concat].
  change (String.append ?x ?y) with (x +:+ y).
  by rewrite !HelperFacts.app_string_assoc.
Qed.

Lemma addAttributes_lookup (kvs : KeyValues) (n : string) :
  forall l,
    keyed l ->
    fold_left addAttribute kvs l !! n
    = match l !! n, collidingValues n kvs with
      | None, [] => None
      | None, vs => Some (mkLabel n (String.concat ";" vs))
      | Some lb, vs => Some (mkLabel n (String.concat ";" (Label_Value lb :: vs)))
      end.
Proof.
  induction kvs as [| [k v] kvs IH]; intros l Hl.
  - cbn. destruct (l !! n) as [lb |] eqn:Hn; [| reflexivity].
    rewrite <- (Hl _ _ Hn). by destruct lb.
  - cbn [fold_left]. rewrite IH by by apply HelperFacts.keyed_addAttribute.
    unfold collidingValues. cbn [List.filter fst snd].
    unfold addAttribute. cbn [fst snd].
    case_bool_decide as Hk.
    + subst n. cbn [map snd].
      destruct (l !! NormalizeLabel k) as [lb |] eqn:Hn.
      * rewrite lookup_insert_eq. cbn [Label_Value]. by rewrite concat_join.
      * by rewrite lookup_insert_eq.
    + destruct (l !! NormalizeLabel k) as [lb |] eqn:Hn';
        by rewrite lookup_insert_ne.
Qed.

Lemma labelsOfAttributes_lookup (resource : Resource) (attributes : KeyValues)
    (n : string) :
  n <> JobLabel -> n <> InstanceLabel ->
  labelsOfAttributes resource attributes !! n
  = match collidingValues n (Map_Sort attributes) with
    | [] => None
    | vs => Some (mkLabel n (String.concat ";" vs))
    end.
Proof.
  intros Hjob Hinst. unfold labelsOfAttributes, addInstanceLabel, addJobLabel.
  assert (Hfold : fold_left addAttribute (Map_Sort attributes) ∅ !! n
                  = match collidingValues n (Map_Sort attributes) with
                    | [] => None
                    | vs => Some (mkLabel n (String.concat ";" vs))
                    end).
  { rewrite addAttributes_lookup; [by rewrite lookup_empty |].
    intros k lb. by rewrite lookup_empty. }
  destruct (Map_Get _ AttributeServiceInstanceID);
    destruct (Map_Get _ AttributeServiceName);
    rewrite ?lookup_insert_ne by done; exact Hfold.
Qed.

(** X28: attributes whose keys are normalized to one label name are
    merged into one label: its value is the values of those attributes, in
    the order of the sorted attributes, joined with [";"].  This holds for
    every name other than [job] and [instance] that no extra is stored
    under; an external label of that name is skipped. *)
Theorem createAttributes_joins_colliding_attributes (resource : Resource)
    (attributes : KeyValues) (externalLabels : gmap string string)
    (pairs : list (string * string)) (n : string) :
  n <> JobLabel -> n <> InstanceLabel ->
  Forall (fun p => extraName (fst p) <> n) pairs ->
  collidingValues n (Map_Sort attributes) <> [] ->
  let labels :=
    createAttributes resource attributes externalLabels (extrasOf pairs) in
  let value := String.concat ";" (collidingValues n (Map_Sort attributes)) in
  mkLabel n value ∈ labels
  /\ forall lb, lb ∈ labels -> Label_Name lb = n -> Label_Value lb = value.
Proof.
  intros Hjob Hinst Hpairs Hvs. cbv zeta.
  rewrite HelperFacts.createAttributes_unfold.
  rewrite <- (app_nil_r (extrasOf pairs)), HelperFacts.addExtras_pairs.
  cbn [addExtras]. apply HelperFacts.the_label_of_a_name.
  - apply HelperFacts.keyed_setExtras, HelperFacts.keyed_addExternalLabels,
      HelperFacts.keyed_labelsOfAttributes.
  - rewrite HelperFacts.setExtras_lookup_other by done.
    rewrite HelperFacts.addExternalLabels_lookup.
    rewrite labelsOfAttributes_lookup by done.
    by destruct (collidingValues n (Map_Sort attributes)).
Qed.

End Collisions.

Import fixtures.

Lemma createAttributes_joins_colliding_attributes_witness :
  mkLabel "zone" "a;b"
  ∈ createAttributes resource0 [("zone", ValueStr "a"); ("zone", ValueStr "b")]
      {[ "zone" := "external" ]} ["__name__"; "latency"].
Proof.
  apply (proj1 (createAttributes_joins_colliding_attributes resource0
                  [("zone", ValueStr "a"); ("zone", ValueStr "b")]
                  {[ "zone" := "external" ]} [("__name__", "latency")] "zone"
                  ltac:(discriminate) ltac:(discriminate)
                  ltac:(repeat constructor; intros Heq; vm_compute in Heq;
                        discriminate Heq)
                  ltac:(discriminate))).
Defined.

End CollisionFacts.

(** ** Resource context: what the setters store *)
Module ResourceSetFacts.
Import Ottl pcommon ottlcommon.

Section Accessors.
Context {K : Type} `{!ResourceContext K} `{!Helpers}.

Lemma resourceAt_set_dropped (σ : Store) (r r' : Resource) (v : Z) :
  resourceAt (Resource_SetDroppedAttributesCount r v σ) r'
  = if decide (r = r') then mkResourceData (attributes (resourceAt σ r)) v
    else resourceAt σ r'.
Proof.
  unfold resourceAt, Resource_SetDroppedAttributesCount. cbn.
  destruct (decide (r = r')) as [<- | Hne].
  - by rewrite lookup_insert_eq.
  - by rewrite lookup_insert_ne.
Qed.

(** X20: [Set] on [dropped_attributes_count] with an [int64] stores
    the value truncated to [uint32], so [Get] afterwards returns the value
    modulo [2^32], and the value itself when it is in range.  The
    attributes of the resource, every other resource and every free-standing
    map stay as they were. *)
Theorem dropped_attributes_count_Set_then_Get (ctx : K) (i : Z) (σ : Store) :
  let σ' := Setter accessResourceDroppedAttributesCount ctx (AnyInt64 i) σ in
  Getter accessResourceDroppedAttributesCount ctx σ' = AnyInt64 (i mod 2 ^ 32)
  /\ (0 <= i < 2 ^ 32 ->
      Getter accessResourceDroppedAttributesCount ctx σ' = AnyInt64 i)
  /\ readMap σ' (Resource_Attributes (GetResource ctx))
     = readMap σ (Resource_Attributes (GetResource ctx))
  /\ (forall r, r <> GetResource ctx -> resourceAt σ' r = resourceAt σ r)
  /\ maps σ' = maps σ.
Proof.
  cbv zeta.
  change (Setter accessResourceDroppedAttributesCount ctx (AnyInt64 i) σ)
    with (Resource_SetDroppedAttributesCount (GetResource ctx) (uint32 i) σ).
  change (Getter accessResourceDroppedAttributesCount ctx ?s)
    with (AnyInt64 (droppedAttributesCount (resourceAt s (GetResource ctx)))).
  rewrite resourceAt_set_dropped, decide_True by done. cbn [droppedAttributesCount].
  split; [reflexivity |]. split; [| split; [| split]].
  - intros Hi. unfold uint32. by rewrite Z.mod_small.
  - unfold readMap, Resource_Attributes.
    by rewrite resourceAt_set_dropped, decide_True.
  - intros r Hr. rewrite resourceAt_set_dropped. by rewrite decide_False.
  - reflexivity.
Qed.

(** X21: [Set] on the whole-resource path with a resource copies that
    resource's attributes and dropped-attributes count into the resource of
    the context; [Get] still returns the context's own resource, and no
    other resource and no free-standing map changes. *)
Theorem resource_Set_copies_the_resource (ctx : K) (newRes : Resource) (σ : Store) :
  let σ' := Setter accessResource ctx (AnyResource newRes) σ in
  Getter accessResource ctx σ' = AnyResource (GetResource ctx)
  /\ resourceAt σ' (GetResource ctx) = resourceAt σ newRes
  /\ (forall r, r <> GetResource ctx -> resourceAt σ' r = resourceAt σ r)
  /\ maps σ' = maps σ.
Proof.
  cbv zeta.
  change (Setter accessResource ctx (AnyResource newRes) σ)
    with (Resource_CopyTo newRes (GetResource ctx) σ).
  split; [reflexivity |].
  unfold Resource_CopyTo, Map_CopyTo. cbv zeta.
  split; [| split].
  - rewrite resourceAt_set_dropped, decide_True by done.
    change (attributes (resourceAt ?s (GetResource ctx)))
      with (readMap s (ResourceAttributes (GetResource ctx))).
    unfold Resource_Attributes. rewrite ResourceFacts.readMap_writeMap_eq.
    unfold readMap, Resource_DroppedAttributesCount.
    by destruct (resourceAt σ newRes).
  - intros r Hr. rewrite resourceAt_set_dropped, decide_False by done.
    unfold resourceAt, writeMap, Resource_Attributes. cbn.
    by rewrite lookup_insert_ne.
  - reflexivity.
Qed.

End Accessors.
End ResourceSetFacts.

(** ** The [Capture] methods and [compareOp.String] *)
Module CaptureFacts.
Import Ottl.

(** X22: [compareOp.String] returns ["UNKNOWN OP!"] exactly for the
    values outside [EQ..GT]; it never does for an operator [Capture] has
    accepted, and it gives the six operators six different names. *)
Theorem compareOp_String_names_the_operators (c : compareOp) :
  (compareOp_String c = "UNKNOWN OP!" <-> ~ (0 <= c <= 5))
  /\ (forall c0 s vs op,
        compareOp_Capture c0 (s :: vs) = Return (op, None) ->
        compareOp_String op <> "UNKNOWN OP!")
  /\ (forall c1 c2,
        0 <= c1 <= 5 -> 0 <= c2 <= 5 ->
        compareOp_String c1 = compareOp_String c2 -> c1 = c2).
Proof.
  assert (Hunknown : forall c, compareOp_String c = "UNKNOWN OP!" <-> ~ (0 <= c <= 5)).
  { intros c'. unfold compareOp_String, EQ, NE, LT, LTE, GTE, GT.
    repeat case_decide; unfold compareOp in *; split; intros Hx;
      first [discriminate Hx | reflexivity | lia]. }
  split; [apply Hunknown |]. split.
  - intros c0 s vs op Hcap. rewrite Hunknown. intros Hout. apply Hout.
    unfold compareOp_Capture, index0 in Hcap.
    rewrite OttlFacts.compareOpTable_lookup in Hcap.
    unfold EQ, NE, LT, LTE, GTE, GT in Hcap.
    unfold compareOp in *.
    repeat case_decide; try discriminate Hcap; injection Hcap as <-; lia.
  - intros c1 c2 H1 H2. unfold compareOp_String, EQ, NE, LT, LTE, GTE, GT.
    unfold compareOp in *.
    repeat case_decide; intros Hx; first [discriminate Hx | lia].
Qed.

Lemma slice_from_2 (s : string) :
  (exists msg, slice_from 2 s = Panic msg) <-> (String.length s < 2)%nat.
Proof.
  destruct s as [| a [| b s]]; cbn; split; try lia; eauto.
  - intros [msg Hmsg]. discriminate.
Qed.

(** X23: the [Capture] methods index [values[0]] unguarded:
    [compareOp.Capture] and [boolean.Capture] panic exactly on an empty
    slice, [byteSlice.Capture] exactly on an empty slice or a first value
    shorter than the two characters it cuts off, and [isNil.Capture], which
    does not read its argument, never. *)
Theorem Capture_panics (values : list string) :
  (forall c, (exists msg, compareOp_Capture c values = Panic msg) <-> values = [])
  /\ (forall b, (exists msg, boolean_Capture b values = Panic msg) <-> values = [])
  /\ (forall b,
        (exists msg, byteSlice_Capture b values = Panic msg)
        <-> match values with
            | [] => True
            | v0 :: _ => (String.length v0 < 2)%nat
            end)
  /\ (forall n, isNil_Capture n values = Return (true, None)).
Proof.
  split; [| split; [| split]].
  - intros c. destruct values as [| v0 vs]; cbn.
    + split; [done | eauto].
    + unfold compareOp_Capture. cbn. destruct (compareOpTable !! v0);
        split; (discriminate || intros [msg Hmsg]; discriminate).
  - intros b. destruct values as [| v0 vs]; cbn; split; try done; eauto.
    intros [msg Hmsg]. discriminate.
  - intros b. destruct values as [| v0 vs].
    { split; [done | intros _; by eexists]. }
    rewrite <- slice_from_2. unfold byteSlice_Capture. cbn [index0].
    destruct (slice_from 2 v0) as [rawStr | msg]; [| split; eauto].
    destruct (hex_DecodeString rawStr) as [bytes [err |]];
      split; intros [msg Hmsg]; discriminate Hmsg.
  - reflexivity.
Qed.

End CaptureFacts.

(** ** Parenthesized boolean expressions *)
Module GroupingFacts.
Import Ottl ParserProps.

Section Grouping.
Context {conv : Conversions}.

(** X24: a parenthesized expression is a boolean value.  For tokens
    that parse as the boolean expression [E], the tokens [( E )] parse as
    the [booleanValue] whose [SubExpr] is [E], with neither [Comparison] nor
    [ConstExpr]. *)
Theorem parenthesized_expression_is_a_boolean_value (tE : list Token)
    (E : booleanExpression) :
  parseBooleanExpression tE = Match E [] ->
  parseBooleanValue (mkToken LParen "(" :: tE ++ [mkToken RParen ")"])%list
  = Match (mkBooleanValue None None (Some E)) [].
Proof.
  intros HE. unfold parseBooleanValue. cbn [length].
  remember (S (length (tE ++ [mkToken RParen ")"])%list)) as fuel eqn:Hfuel.
  assert (Hlt : (length tE < fuel)%nat).
  { rewrite Hfuel, length_app. cbn. lia. }
  clear Hfuel.
  assert (Hinner :
    parseBooleanExpressionWith (parseBooleanValueFuel fuel) fuel
      (tE ++ [mkToken RParen ")"])%list
    = Match E [mkToken RParen ")"]).
  { apply (ParserFacts.extends_parseBooleanExpressionWith
             (parseBooleanValueFuel fuel)
             (ParserFacts.extends_parseBooleanValueFuel fuel) fuel tE E []);
      [| reflexivity].
    rewrite ParserFacts.parseBooleanExpression_fuel by exact Hlt. exact HE. }
  cbn [parseBooleanValueFuel].
  unfold orElse at 1.
  rewrite (ParserFacts.refuses_bind _ _ _ (ParserFacts.refuses_parseComparison (S fuel)))
    by reflexivity.
  unfold orElse.
  rewrite (ParserFacts.token_other Boolean) by reflexivity.
  rewrite (ParserFacts.bind_intro (literal LParen "(") _ _ "("
             (tE ++ [mkToken RParen ")"])%list) by reflexivity.
  rewrite (ParserFacts.bind_intro _ _ _ _ _ Hinner).
  reflexivity.
Qed.

End Grouping.

Import fixtures.

Lemma parenthesized_expression_is_a_boolean_value_witness :
  parseBooleanValue
    [mkToken LParen "("; mkToken Boolean "true"; mkToken OpOr "or";
     mkToken Boolean "false"; mkToken RParen ")"]
  = Match
      (mkBooleanValue None None
         (Some (mkBooleanExpression
                  (mkTerm (mkBooleanValue None (Some true) None) [])
                  [mkOpOrTerm "or"
                     (mkTerm (mkBooleanValue None (Some false) None) [])])))
      [].
Proof.
  apply (parenthesized_expression_is_a_boolean_value
           [mkToken Boolean "true"; mkToken OpOr "or"; mkToken Boolean "false"]).
  reflexivity.
Defined.

(** On a statement: the parentheses put [b == 2 or c == 3] under the
    [and]. *)
Example parentheses_on_text :
  exists i A E,
    parseStatement "drop() where a == 1 and (b == 2 or c == 3)"
    = inl (mkParsedStatement i
             (Some (mkBooleanExpression
                      (mkTerm A [mkOpAndBooleanValue "and"
                                   (mkBooleanValue None None (Some E))])
                      [])))
    /\ length (booleanExpression_Right E) = 1%nat.
Proof. do 3 eexists. split; [vm_compute; reflexivity | reflexivity]. Qed.

End GroupingFacts.

(** ** Chains of [and] *)
Module ChainFacts.
Import Ottl ParserProps.

Section Chains.
Context {conv : Conversions}.

Lemma andTokens_follows (operands : list (list Token * booleanValue)) :
  follows afterBooleanValue (andTokens operands) = true.
Proof. by destruct operands. Qed.

Lemma length_andTokens (operands : list (list Token * booleanValue)) :
  (length operands <= length (andTokens operands))%nat.
Proof.
  induction operands as [| [t B] operands IH]; [done |].
  unfold andTokens in *. cbn [map concat fst]. rewrite length_app. cbn [length]. lia.
Qed.

Lemma and_chain (pb : parser booleanValue)
    (operands : list (list Token * booleanValue)) :
  Forall (fun operand =>
            forall more, follows afterBooleanValue more = true ->
                         pb (fst operand ++ more)%list = Match (snd operand) more)
         operands ->
  forall fuel,
    (length operands < fuel)%nat ->
    many fuel (parseOpAndBooleanValue pb) (andTokens operands)
    = Match (andValues operands) [].
Proof.
  induction 1 as [| [t B] operands Hop _ IH]; intros fuel Hfuel.
  - destruct fuel as [| fuel]; [cbn in Hfuel; lia |]. reflexivity.
  - destruct fuel as [| fuel]; [cbn in Hfuel; lia |].
    cbn [length] in Hfuel.
    unfold andTokens, andValues. cbn [map concat fst snd].
    fold (andTokens operands). fold (andValues operands).
    apply (ParserFacts.many_cons _ _ _ _ (andTokens operands)).
    + unfold parseOpAndBooleanValue.
      rewrite (ParserFacts.bind_intro (token OpAnd) _ _ "and"
                 (t ++ andTokens operands)%list) by reflexivity.
      rewrite (ParserFacts.bind_intro pb _ _ B (andTokens operands));
        [reflexivity |].
      apply (Hop (andTokens operands)), andTokens_follows.
    + apply IH. lia.
Qed.

(** X29: a chain of [and]s is one term with a flat list.  For tokens that
    parse as the boolean value [A] and operands that parse as the boolean
    values [B1], ..., [Bn], the input [A and B1 and ... and Bn] parses as the
    expression whose only term has [A] on the left and the pairs
    ([and], [B1]), ..., ([and], [Bn]) on the right, in the order of the
    input. *)
Theorem and_chain_is_a_flat_list (tA : list Token) (A : booleanValue)
    (operands : list (list Token * booleanValue)) :
  parseBooleanValue tA = Match A [] ->
  Forall (fun operand => parseBooleanValue (fst operand) = Match (snd operand) [])
         operands ->
  parseBooleanExpression (tA ++ andTokens operands)%list
  = Match (mkBooleanExpression (mkTerm A (andValues operands)) []) [].
Proof.
  intros HA Hops. unfold parseBooleanExpression.
  remember (S (length (tA ++ andTokens operands)%list)) as fuel eqn:Hfuel.
  assert (Hlen : (length tA < fuel /\ length (andTokens operands) < fuel)%nat)
    by (rewrite Hfuel, length_app; lia).
  assert (Hpart : Forall (fun operand => length (fst operand) < fuel)%nat operands).
  { destruct Hlen as [_ Hlen]. clear -Hlen.
    induction operands as [| [t B] operands IH]; [constructor |].
    unfold andTokens in *. cbn [map concat fst] in Hlen.
    rewrite length_app in Hlen. cbn [length] in Hlen.
    constructor; [cbn; lia | apply IH; lia]. }
  clear Hfuel.
  unfold parseBooleanExpressionWith.
  rewrite (ParserFacts.bind_intro _ _ _ (mkTerm A (andValues operands)) []).
  - rewrite (ParserFacts.bind_intro _ _ _ [] []); [reflexivity |].
    destruct fuel as [| fuel]; [lia |]. reflexivity.
  - unfold parseTerm.
    rewrite (ParserFacts.bind_intro _ _ _ A (andTokens operands)).
    + rewrite (ParserFacts.bind_intro _ _ _ (andValues operands) []);
        [reflexivity |].
      apply and_chain.
      * clear HA Hlen.
        induction Hops as [| [t B] operands HB _ IH]; [constructor |].
        apply Forall_cons in Hpart as [Ht Hpart].
        constructor; [| by apply IH]. intros more Hmore. cbn [fst snd] in *.
        apply (ParserFacts.extends_parseBooleanValueFuel fuel t B [] more);
          [| exact Hmore].
        by rewrite ParserFacts.parseBooleanValue_fuel.
      * pose proof (length_andTokens operands). lia.
    + apply (ParserFacts.extends_parseBooleanValueFuel fuel tA A []
               (andTokens operands)); [| apply andTokens_follows].
      rewrite ParserFacts.parseBooleanValue_fuel by lia. exact HA.
Qed.

End Chains.

Import fixtures.

Lemma and_chain_is_a_flat_list_witness :
  parseBooleanExpression
    [mkToken Boolean "true"; mkToken OpAnd "and"; mkToken Boolean "false";
     mkToken OpAnd "and"; mkToken Boolean "true"]
  = Match
      (mkBooleanExpression
         (mkTerm (mkBooleanValue None (Some true) None)
            [mkOpAndBooleanValue "and" (mkBooleanValue None (Some false) None);
             mkOpAndBooleanValue "and" (mkBooleanValue None (Some true) None)])
         [])
      [].
Proof.
  apply (and_chain_is_a_flat_list [mkToken Boolean "true"]
           (mkBooleanValue None (Some true) None)
           [([mkToken Boolean "false"], mkBooleanValue None (Some false) None);
            ([mkToken Boolean "true"], mkBooleanValue None (Some true) None)]).
  - reflexivity.
  - repeat constructor.
Defined.

End ChainFacts.

(** ** Attribute matchers *)
Module MatcherFacts.
Import pcommon filtermatcher.

Section Matcher.
Context {ext : FilterExternals}.

Lemma Map_Get_nil (k : string) : Map_Get [] k = None.
Proof. reflexivity. Qed.

Lemma Match_forallb (ma : list AttributeMatcher) (attrs : KeyValues) :
  Match ma attrs = forallb (propertyMatches attrs) ma.
Proof.
  unfold Match. destruct ma as [| p ma]; [reflexivity |].
  destruct attrs as [| kv attrs]; [| reflexivity].
  cbn [length forallb]. unfold propertyMatches at 1. by rewrite Map_Get_nil.
Qed.

(** X25: [Match] is the conjunction of its properties.  The empty
    matcher matches every map, a matcher with a property matches no empty
    map, the matcher of two lists appended matches exactly when both lists
    match, and a match means that the map has an entry for the key of every
    property. *)
Theorem Match_is_a_conjunction (attrs : KeyValues) :
  Match [] attrs = true
  /\ (forall property ma, Match (property :: ma) [] = false)
  /\ (forall ma1 ma2,
        Match (ma1 ++ ma2) attrs = Match ma1 attrs && Match ma2 attrs)
  /\ (forall ma property,
        Match ma attrs = true -> property ∈ ma ->
        exists attr, Map_Get attrs (Key property) = Some attr).
Proof.
  split; [reflexivity |]. split; [reflexivity |]. split.
  - intros ma1 ma2. by rewrite !Match_forallb, forallb_app.
  - intros ma property Hm Hin. rewrite Match_forallb in Hm.
    rewrite forallb_forall in Hm.
    specialize (Hm property (proj1 (list_elem_of_In _ _) Hin)).
    unfold propertyMatches in Hm.
    destruct (Map_Get attrs (Key property)) as [attr |]; [eauto | discriminate].
Qed.

(** The loop, from any list of entries built so far. *)
Lemma loop_keys (config : Config) (attributes : list Attribute) :
  forall rawAttributes ma,
    NewAttributesMatcher_loop config attributes rawAttributes = inl ma ->
    map Key ma = (map Key rawAttributes ++ map Attribute_Key attributes)%list
    /\ Forall (fun a => Attribute_Key a <> "") attributes
    /\ exists built,
        ma = (rawAttributes ++ built)%list
        /\ Forall2
             (fun entry attribute =>
                Key entry = Attribute_Key attribute
                /\ (Attribute_Value attribute = None ->
                    AttributeValue entry = None /\ StringFilter entry = None)
                /\ (Config_MatchType config = Strict -> StringFilter entry = None)
                /\ (Config_MatchType config = Regexp -> AttributeValue entry = None))
             built attributes.
Proof.
  induction attributes as [| a attributes IH]; intros rawAttributes ma Hloop.
  - injection Hloop as <-. rewrite !app_nil_r.
    split; [reflexivity |]. split; [constructor |].
    exists []. rewrite app_nil_r. split; [reflexivity | constructor].
  - cbn [NewAttributesMatcher_loop] in Hloop.
    destruct (decide (Attribute_Key a = "")) as [| Hkey]; [discriminate |].
    assert (Hstep : exists entry,
               NewAttributesMatcher_loop config attributes
                 (rawAttributes ++ [entry])%list = inl ma
               /\ Key entry = Attribute_Key a
               /\ (Attribute_Value a = None ->
                   AttributeValue entry = None /\ StringFilter entry = None)
               /\ (Config_MatchType config = Strict -> StringFilter entry = None)
               /\ (Config_MatchType config = Regexp -> AttributeValue entry = None)).
    { destruct (Attribute_Value a) as [raw |].
      - destruct (NewAttributeValueRaw raw) as [val | err]; [| discriminate].
        destruct (Config_MatchType config) eqn:Hmt; [| | discriminate].
        + destruct val; try discriminate.
          destruct (CreateFilterSet [s] config) as [filter | err]; [| discriminate].
          eexists. split; [exact Hloop |]. cbn. repeat split; done.
        + eexists. split; [exact Hloop |]. cbn. repeat split; done.
      - eexists. split; [exact Hloop |]. cbn. repeat split; done. }
    destruct Hstep as (entry & Hrest & Hk & Hshape).
    destruct (IH _ _ Hrest) as (Hkeys & Hne & built & -> & Hbuilt).
    split; [| split].
    + rewrite Hkeys, map_app, <- app_assoc. cbn. by rewrite Hk.
    + by constructor.
    + exists (entry :: built). rewrite <- app_assoc. split; [reflexivity |].
      constructor; [| exact Hbuilt]. by split.
Qed.

Lemma loop_empty_key (config : Config) (attributes : list Attribute) :
  Exists (fun a => Attribute_Key a = "") attributes ->
  forall rawAttributes,
    exists err, NewAttributesMatcher_loop config attributes rawAttributes = inr err.
Proof.
  intros Hex rawAttributes.
  destruct (NewAttributesMatcher_loop config attributes rawAttributes)
    as [ma | err] eqn:Hloop; [| eauto].
  destruct (loop_keys _ _ _ _ Hloop) as (_ & Hne & _).
  apply Exists_exists in Hex as (a & Hin & Hkey).
  rewrite Forall_forall in Hne. by destruct (Hne a Hin).
Qed.

(** X26: when [NewAttributesMatcher] succeeds, its entries are the
    attributes in order, each with the attribute's key, which is not empty;
    an attribute without a value gives an entry that checks the key only, a
    strict configuration sets no string filter and a regexp configuration
    no attribute value.  An empty key in the list makes it fail, and with a
    match type other than the two it succeeds only when no attribute has a
    value. *)
Theorem NewAttributesMatcher_keeps_the_keys (config : Config)
    (attributes : list Attribute) :
  (forall ma,
      NewAttributesMatcher config attributes = inl ma ->
      Forall2
        (fun entry attribute =>
           Key entry = Attribute_Key attribute
           /\ Attribute_Key attribute <> ""
           /\ (Attribute_Value attribute = None ->
               AttributeValue entry = None /\ StringFilter entry = None)
           /\ (Config_MatchType config = Strict -> StringFilter entry = None)
           /\ (Config_MatchType config = Regexp -> AttributeValue entry = None))
        ma attributes)
  /\ (Exists (fun a => Attribute_Key a = "") attributes ->
      exists err, NewAttributesMatcher config attributes = inr err)
  /\ (forall name ma,
        Config_MatchType config = OtherMatchType name ->
        NewAttributesMatcher config attributes = inl ma ->
        Forall (fun a => Attribute_Value a = None) attributes).
Proof.
  unfold NewAttributesMatcher. split; [| split].
  - intros ma Hloop.
    destruct (loop_keys _ _ _ _ Hloop) as (_ & Hne & built & -> & Hbuilt).
    cbn [app]. clear Hloop. induction Hbuilt as [| e a built attrs He _ IH];
      [constructor |].
    apply Forall_cons in Hne as [Ha Hne]. constructor; [| by apply IH].
    destruct He as (Hk & Hnone & Hstrict & Hregexp).
    split; [exact Hk |]. split; [exact Ha |]. split; [exact Hnone |].
    split; [exact Hstrict | exact Hregexp].
  - intros Hex. by apply loop_empty_key.
  - intros name ma Hmt. generalize (@nil AttributeMatcher) as rawAttributes.
    induction attributes as [| a attributes IH]; intros rawAttributes Hloop;
      [constructor |].
    cbn [NewAttributesMatcher_loop] in Hloop.
    destruct (decide (Attribute_Key a = "")); [discriminate |].
    destruct (Attribute_Value a) as [raw |] eqn:Hv.
    + destruct (NewAttributeValueRaw raw); [| discriminate].
      rewrite Hmt in Hloop. discriminate.
    + constructor; [exact Hv | by eapply IH].
Qed.

(** X27: for attributes without values, [NewAttributesMatcher] succeeds
    exactly when no key is empty, whatever the match type, and the matcher
    it builds matches a map exactly when the map has an entry for every
    key. *)
Theorem key_only_matcher (config : Config) (keys : list string) (attrs : KeyValues) :
  let attributes := map (fun k => mkAttribute k None) keys in
  (Forall (fun k => k <> "") keys ->
   exists ma,
     NewAttributesMatcher config attributes = inl ma
     /\ (Match ma attrs = true
         <-> Forall (fun k => exists attr, Map_Get attrs k = Some attr) keys))
  /\ (Exists (fun k => k = "") keys ->
      exists err, NewAttributesMatcher config attributes = inr err).
Proof.
  cbv zeta. split.
  - intros Hkeys.
    assert (Hbuild : forall rawAttributes,
               NewAttributesMatcher_loop config
                 (map (fun k => mkAttribute k None) keys) rawAttributes
               = inl (rawAttributes
                      ++ map (fun k => mkAttributeMatcher k None None) keys)%list).
    { induction Hkeys as [| k keys Hk _ IH]; intros rawAttributes.
      - cbn. by rewrite app_nil_r.
      - cbn [map NewAttributesMatcher_loop Attribute_Key Attribute_Value].
        rewrite decide_False by done. rewrite IH, <- app_assoc. reflexivity. }
    eexists. split; [apply Hbuild |]. cbn [app].
    rewrite Match_forallb, forallb_forall, Forall_forall. split.
    + intros Hall k Hk.
      specialize (Hall (mkAttributeMatcher k None None)).
      unfold propertyMatches in Hall. cbn in Hall.
      destruct (Map_Get attrs k) as [attr |]; [eauto |].
      discriminate Hall. apply in_map_iff. exists k. split; [reflexivity |].
      by apply list_elem_of_In.
    + intros Hall p Hp. apply in_map_iff in Hp as (k & <- & Hk).
      apply list_elem_of_In in Hk. destruct (Hall k Hk) as [attr Hattr].
      unfold propertyMatches. cbn. by rewrite Hattr.
  - intros Hex. apply loop_empty_key.
    apply Exists_exists in Hex as (k & Hin & ->).
    apply Exists_exists. exists (mkAttribute "" None). split; [| reflexivity].
    apply list_elem_of_fmap. by exists "".
Qed.

End Matcher.
End MatcherFacts.
